(** * serve.mjs: a development static server with live reload

    A shallow embedding of the core of [src/serve.mjs] (argument parser,
    router and path resolution, live-reload registry, throttle) and the
    properties of the specification established against it, followed by
    further properties of the code: the answers to static requests, the
    registry over the life of the server, the results of the parser, the
    logger, the tables of the help message and live reload from the
    change of a file to the clients.

    Conventions of the embedding.
    - JavaScript strings are [string]s of 8-bit characters; [toLowerCase]
      acts on the ASCII letters.  A property that rests on the lower case
      of a token, or on what is white space, is stated for strings of
      ASCII characters ([JS.is_ascii]).
    - JavaScript values are the tagged union [JS.value].  Numbers produced
      by [Number(...)] are kept as exact decimal fractions: the rounding to
      binary64 is not modelled.  A property that rests on the value of a
      number is stated for the numbers that binary64 holds, or rounds
      within their kind ([JS.short_decimal]).
    - The content of a file is the [string] of its bytes.
    - [node:path] is modelled in its POSIX flavour.
    - Time is a clock in milliseconds on which timers fall due. *)

From Stdlib Require Import ZArith NArith Lia Ascii String List Bool.
From stdpp Require Import base option list gmap strings.

Local Open Scope string_scope.

(** ** JavaScript strings and values *)

Module JS.

Definition chr (n : nat) : ascii := ascii_of_nat n.

Definition is_upper (c : ascii) : bool :=
  let n := nat_of_ascii c in (65 <=? n)%nat && (n <=? 90)%nat.

Definition lower_char (c : ascii) : ascii :=
  if is_upper c then ascii_of_nat (nat_of_ascii c + 32) else c.

(** [String.prototype.toLowerCase] *)
Fixpoint toLowerCase (s : string) : string :=
  match s with
  | EmptyString => EmptyString
  | String c s' => String (lower_char c) (toLowerCase s')
  end.

(** [String.prototype.startsWith] *)
Fixpoint startsWith (p s : string) : bool :=
  match p, s with
  | EmptyString, _ => true
  | String a p', String b s' => Ascii.eqb a b && startsWith p' s'
  | String _ _, EmptyString => false
  end.

(** [s.slice(n)] for [0 <= n] *)
Fixpoint slice (n : nat) (s : string) : string :=
  match n, s with
  | O, _ => s
  | S n', String _ s' => slice n' s'
  | S _, EmptyString => EmptyString
  end.

(** [String.prototype.includes]: [p] occurs somewhere in [s] *)
Fixpoint contains (p s : string) : bool :=
  startsWith p s ||
  match s with
  | EmptyString => false
  | String _ s' => contains p s'
  end.

(** [Array.prototype.includes] on an array of strings *)
Definition includes (l : list string) (s : string) : bool :=
  existsb (String.eqb s) l.

(** *** Numbers

    The value of a numeric literal is [(-1)^neg * num / 10^scale], kept
    in lowest terms ([scale = 0] or [num] not a multiple of ten). *)
Inductive number :=
| NaN
| Infinity (neg : bool)
| Finite (neg : bool) (num : N) (scale : N).

Inductive value :=
| VUndefined
| VNull
| VBool (b : bool)
| VNum (n : number)
| VStr (s : string).

(** [ToBoolean] *)
Definition truthy (v : value) : bool :=
  match v with
  | VUndefined | VNull => false
  | VBool b => b
  | VNum NaN => false
  | VNum (Infinity _) => true
  | VNum (Finite _ num _) => negb (num =? 0)%N
  | VStr s => negb (String.eqb s "")
  end.

(** [Number.isInteger] *)
Definition isInteger (v : value) : bool :=
  match v with
  | VNum (Finite _ _ scale) => (scale =? 0)%N
  | _ => false
  end.

(** An array element or argument that may be [undefined]. *)
Definition ToString (a : option string) : string :=
  match a with
  | Some s => s
  | None => "undefined"
  end.

(** *** [Number(string)]: the StringNumericLiteral grammar *)

Definition is_space (c : ascii) : bool :=
  let n := nat_of_ascii c in
  ((9 <=? n)%nat && (n <=? 13)%nat) || (n =? 32)%nat.

Fixpoint trim_start (s : list ascii) : list ascii :=
  match s with
  | c :: s' => if is_space c then trim_start s' else s
  | [] => []
  end.

Definition trim (s : list ascii) : list ascii :=
  rev (trim_start (rev (trim_start s))).

Definition digit_val (base : N) (c : ascii) : option N :=
  let n := N_of_ascii c in
  let d :=
    if (48 <=? n)%N && (n <=? 57)%N then Some (n - 48)%N
    else if (97 <=? n)%N && (n <=? 102)%N then Some (n - 87)%N
    else if (65 <=? n)%N && (n <=? 70)%N then Some (n - 55)%N
    else None in
  match d with
  | Some k => if (k <? base)%N then Some k else None
  | None => None
  end.

(** The longest prefix of digits of [s] in the given base, read as a
    number on top of [acc], with the count of digits and the rest. *)
Fixpoint span_digits (base : N) (s : list ascii) (acc : N) (cnt : nat)
  : N * nat * list ascii :=
  match s with
  | c :: s' =>
      match digit_val base c with
      | Some d => span_digits base s' (acc * base + d)%N (S cnt)
      | None => (acc, cnt, s)
      end
  | [] => (acc, cnt, [])
  end.

(** Cancel the factors of ten shared by [num] and [10^scale]. *)
Fixpoint reduce (fuel : nat) (num scale : N) : N * N :=
  match fuel with
  | O => (num, scale)
  | S fuel' =>
      if (num =? 0)%N then (0%N, 0%N)
      else if (scale =? 0)%N then (num, scale)
      else if (num mod 10 =? 0)%N then reduce fuel' (num / 10)%N (scale - 1)%N
      else (num, scale)
  end.

(** [mant * 10^e] as a fraction in lowest terms. *)
Definition decimal (neg : bool) (mant : N) (digits : nat) (e : Z) : number :=
  if (0 <=? e)%Z then Finite neg (mant * 10 ^ Z.to_N e)%N 0
  else let '(n, s) := reduce (S digits) mant (Z.to_N (- e)) in Finite neg n s.

Definition is_e (c : ascii) : bool :=
  Ascii.eqb c "e" || Ascii.eqb c "E".

(** ExponentPart, optional: [None] when malformed. *)
Definition exponent_part (s : list ascii) : option Z :=
  match s with
  | [] => Some 0%Z
  | c :: s' =>
      if is_e c then
        let '(sg, s'') :=
          match s' with
          | "+"%char :: r => (1%Z, r)
          | "-"%char :: r => ((-1)%Z, r)
          | _ => (1%Z, s')
          end in
        match span_digits 10 s'' 0 0 with
        | (_, O, _) => None
        | (e, S _, []) => Some (sg * Z.of_N e)%Z
        | (_, S _, _ :: _) => None
        end
      else None
  end.

(** StrUnsignedDecimalLiteral *)
Definition unsigned_decimal (neg : bool) (s : list ascii) : number :=
  if String.eqb (string_of_list_ascii s) "Infinity" then Infinity neg
  else
    let '(ip, ni, r1) := span_digits 10 s 0 0 in
    let '(m, nf, r2) :=
      match r1 with
      | "."%char :: r => span_digits 10 r ip 0
      | _ => (ip, O, r1)
      end in
    match (ni + nf)%nat with
    | O => NaN
    | S _ =>
        match exponent_part r2 with
        | Some e => decimal neg m (ni + nf) (e - Z.of_nat nf)
        | None => NaN
        end
    end.

(** NonDecimalIntegerLiteral: [0x], [0o], [0b] *)
Definition radix_literal (s : list ascii) : option number :=
  match s with
  | "0"%char :: p :: r =>
      let base :=
        if Ascii.eqb p "x" || Ascii.eqb p "X" then Some 16%N
        else if Ascii.eqb p "o" || Ascii.eqb p "O" then Some 8%N
        else if Ascii.eqb p "b" || Ascii.eqb p "B" then Some 2%N
        else None in
      match base with
      | Some b =>
          match span_digits b r 0 0 with
          | (n, S _, []) => Some (Finite false n 0)
          | _ => Some NaN
          end
      | None => None
      end
  | _ => None
  end.

Definition StringToNumber (s : string) : number :=
  match trim (list_ascii_of_string s) with
  | [] => Finite false 0 0
  | t =>
      match radix_literal t with
      | Some n => n
      | None =>
          match t with
          | "+"%char :: r => unsigned_decimal false r
          | "-"%char :: r => unsigned_decimal true r
          | _ => unsigned_decimal false t
          end
      end
  end.

(** [Number(a)] for a string or [undefined] *)
Definition Number (a : option string) : value :=
  match a with
  | Some s => VNum (StringToNumber s)
  | None => VNum NaN
  end.

(** The integer [n >= 0] as a JavaScript number. *)
Definition int (n : N) : value := VNum (Finite false n 0).

(** *** Where the embedding is exact

    A string of ASCII characters: on such a string [toLowerCase] above
    is [String.prototype.toLowerCase], and the white space that
    [StringToNumber] trims is all the white space that [Number] trims. *)
Definition low (c : ascii) : bool := (nat_of_ascii c <? 128)%nat.

Definition is_ascii (s : string) : bool :=
  forallb low (list_ascii_of_string s).

(** A number that binary64 holds as it is, or rounds without changing
    what kind of number it is: [NaN], an infinity, a whole number below
    2^53 in size, which is held exactly, or a fraction of a numerator
    below 2^53 over at most 300 decimal places, which is rounded to a
    fraction again and never to a whole number or to 0. *)
Definition short_decimal (v : value) : bool :=
  match v with
  | VNum (Finite _ num scale) => (num <? 2 ^ 53)%N && (scale <=? 300)%N
  | _ => true
  end.

End JS.

(** ** Regular expressions without groups or repetition

  Enough for the two patterns the argument parser tests: an alternation
  of sequences of characters, each character mandatory or optional
  ([c?]), searched anywhere in the subject (the patterns are not
  anchored). *)

Module Regex.

Inductive atom :=
| Chr (c : ascii)
| Opt (c : ascii).

Definition head_is (c : ascii) (s : string) : option string :=
  match s with
  | String a s' => if Ascii.eqb a c then Some s' else None
  | EmptyString => None
  end.

(** The sequence [r] matches a prefix of [s] (greedy, with backtracking). *)
Fixpoint matches_at (r : list atom) (s : string) : bool :=
  match r with
  | [] => true
  | Chr c :: r' =>
      match head_is c s with
      | Some s' => matches_at r' s'
      | None => false
      end
  | Opt c :: r' =>
      match head_is c s with
      | Some s' => matches_at r' s' || matches_at r' s
      | None => matches_at r' s
      end
  end.

Fixpoint search (alts : list (list atom)) (s : string) : bool :=
  existsb (fun r => matches_at r s) alts ||
  match s with
  | String _ s' => search alts s'
  | EmptyString => false
  end.

(** [re.test(s)]; [icase] is the [i] flag, for patterns written in
    lower case. *)
Definition test (alts : list (list atom)) (icase : bool) (s : string) : bool :=
  search alts (if icase then JS.toLowerCase s else s).

End Regex.

(** ** The argument parser: [params_definition], [parseArgValue],
  [parseArgs], [printHelp] *)

Module Cli.
Import JS.

Inductive ParamType := TString | TNumber | TBoolean.

Record ParamDefinition := {
  position : option nat;
  aliases : option (list string);
  type : ParamType;
  default_value : value;
  validate : option (value -> bool);
  description : string
}.

Definition params_definition : list (string * ParamDefinition) :=
  [ ("port",
     {| position := None;
        aliases := Some ["port"; "p"];
        type := TNumber;
        default_value := int 8080;
        validate := Some isInteger;
        description := "Port number to listen at" |});
    ("verbose",
     {| position := None;
        aliases := Some ["verbose"; "v"];
        type := TBoolean;
        default_value := VUndefined;
        validate := None;
        description := "Print debug messages" |});
    ("watch",
     {| position := None;
        aliases := Some ["watch"; "w"];
        type := TBoolean;
        default_value := VUndefined;
        validate := None;
        description := "Reload page on source file change" |});
    ("dirpath",
     {| position := Some 0%nat;
        aliases := None;
        type := TString;
        default_value := VStr ".";
        validate := None;
        description := "Path to the directory to serve" |}) ].

(** [/tr?u?e?|ye?s?|1/i] *)
Definition truthy_word : list (list Regex.atom) :=
  [ [Regex.Chr "t"; Regex.Opt "r"; Regex.Opt "u"; Regex.Opt "e"];
    [Regex.Chr "y"; Regex.Opt "e"; Regex.Opt "s"];
    [Regex.Chr "1"] ].

(** [/--?he?l?p?/] *)
Definition help_pattern : list (list Regex.atom) :=
  [ [Regex.Chr "-"; Regex.Opt "-"; Regex.Chr "h";
     Regex.Opt "e"; Regex.Opt "l"; Regex.Opt "p"] ].

Definition parseArgValue (def : ParamDefinition) (arg : option string) : value :=
  match type def with
  | TString =>
      match arg with
      | Some s => VStr s
      | None => VUndefined
      end
  | TNumber => Number arg
  | TBoolean => VBool (Regex.test truthy_word true (ToString arg))
  end.

(** What [printHelp] writes to the error stream.  The usage text itself
    is the result of [buildHelpMessage], which is not modelled. *)
Inductive stderr_chunk :=
| ErrorBanner (text : string)
| HelpMessage.

Record exit := {
  stderr : list stderr_chunk;
  code : Z
}.

Definition esc : string := String (chr 27) "".
Definition nl : string := String (chr 10) "".
Definition FgRed : string := esc ++ "[31m".
Definition Bold : string := esc ++ "[1m".
Definition Reset : string := esc ++ "[0m".

(** [fmt(msg, ...props)] for a string message *)
Definition fmt (msg : string) (props : list string) : string :=
  String.concat "" props ++ msg ++ Reset.

(** [printHelp(err)]: the process ends here, with the given code. *)
Definition printHelp (err : option string) : exit :=
  match err with
  | Some e =>
      if truthy (VStr e) then
        {| stderr :=
             [ ErrorBanner
                 (fmt "Error:" [FgRed; Bold] ++ " " ++ fmt e [FgRed] ++ nl ++ nl);
               HelpMessage ];
           code := 1 |}
      else {| stderr := [HelpMessage]; code := 0 |}
  | None => {| stderr := [HelpMessage]; code := 0 |}
  end.

(** The configuration object [res], keyed by parameter name. *)
Abbreviation Params := (gmap string value).

Inductive outcome :=
| Returned (res : Params)
| Exited (e : exit).

(** State of one pass of the outer loop: the index [i] into [argv], the
    variable [value], [current_position] and [res]. *)
Record scan := {
  idx : nat;
  val : value;
  cur : nat;
  out : Params
}.

Inductive scan_result :=
| Break (s : scan)
| Fallthrough (s : scan)
| Exit (e : exit).

(** One pass of [for (const def_key of def_keys)] from the given
    definition on. *)
Fixpoint scan_defs (argv : list string) (arg : string)
    (defs : list (string * ParamDefinition)) (s : scan) : scan_result :=
  match defs with
  | [] => Fallthrough s
  | (def_key, def) :: defs' =>
      let s1 :=
        if startsWith "-" arg then
          match aliases def with
          | Some al =>
              if includes al (slice 1 arg) then
                match type def with
                | TBoolean =>
                    {| idx := idx s; val := VBool true; cur := cur s; out := out s |}
                | _ =>
                    {| idx := S (idx s);
                       val := parseArgValue def (argv !! S (idx s));
                       cur := cur s; out := out s |}
                end
              else s
          | None => s
          end
        else
          match position def with
          | Some p =>
              if (p =? cur s)%nat then
                {| idx := idx s; val := parseArgValue def (Some arg);
                   cur := S (cur s); out := out s |}
              else s
          | None => s
          end in
      if truthy (val s1) then
        let ok :=
          match validate def with
          | Some f => f (val s1)
          | None => true
          end in
        if ok then
          Break {| idx := idx s1; val := val s1; cur := cur s1;
                   out := <[def_key := val s1]> (out s1) |}
        else
          Exit (printHelp (Some ("Invalid value for argument '" ++ def_key
                                 ++ "': '" ++ ToString (argv !! idx s1) ++ "'")))
      else scan_defs argv arg defs' s1
  end.

(** The outer loop [for (let i = 0; i < argv.length; i += 1)], from
    index [i] on.  Every pass advances [i], so [length argv - i] passes
    are enough; [None] stands for running out of [fuel]. *)
Fixpoint parse_from (fuel : nat) (defs : list (string * ParamDefinition))
    (argv : list string) (i pos : nat) (res : Params) : option outcome :=
  match argv !! i with
  | None => Some (Returned res)
  | Some tok =>
      match fuel with
      | O => None
      | S fuel' =>
          let arg := toLowerCase tok in
          if Regex.test help_pattern false arg then
            Some (Exited (printHelp None))
          else
            match scan_defs argv arg defs
                    {| idx := i; val := VNull; cur := pos; out := res |} with
            | Exit e => Some (Exited e)
            | Break s | Fallthrough s =>
                if truthy (val s) then
                  parse_from fuel' defs argv (S (idx s)) (cur s) (out s)
                else
                  Some (Exited (printHelp (Some ("Unknown argument: '"
                                 ++ ToString (argv !! idx s) ++ "'"))))
            end
      end
  end.

Definition defaults (defs : list (string * ParamDefinition)) : Params :=
  list_to_map (map (fun kd => (fst kd, default_value (snd kd))) defs).

Definition parseArgs (argv : list string) : option outcome :=
  parse_from (length argv) params_definition argv 0 0 (defaults params_definition).

(** The passes of the loop over [params_definition] that store a value:
    [accepted argv arg i pos res s] when the pass for the lower-cased
    token [arg] at index [i], entered with [current_position = pos] and
    configuration [res], ends in state [s] with a value stored. *)
Inductive accepted (argv : list string) (arg : string) (i pos : nat)
    (res : Params) : scan -> Prop :=
| accepted_port next :
    startsWith "-" arg = true ->
    includes ["port"; "p"] (slice 1 arg) = true ->
    argv !! S i = Some next ->
    truthy (Number (Some next)) = true ->
    isInteger (Number (Some next)) = true ->
    accepted argv arg i pos res
      {| idx := S i; val := Number (Some next); cur := pos;
         out := <["port" := Number (Some next)]> res |}
| accepted_verbose :
    startsWith "-" arg = true ->
    includes ["verbose"; "v"] (slice 1 arg) = true ->
    accepted argv arg i pos res
      {| idx := i; val := VBool true; cur := pos;
         out := <["verbose" := VBool true]> res |}
| accepted_watch :
    startsWith "-" arg = true ->
    includes ["watch"; "w"] (slice 1 arg) = true ->
    accepted argv arg i pos res
      {| idx := i; val := VBool true; cur := pos;
         out := <["watch" := VBool true]> res |}
| accepted_positional :
    startsWith "-" arg = false ->
    pos = 0%nat ->
    arg <> "" ->
    accepted argv arg i pos res
      {| idx := i; val := VStr arg; cur := 1%nat;
         out := <["dirpath" := VStr arg]> res |}.


End Cli.


(** ** [node:path], POSIX flavour: [normalize] and [join]

  [normalizeString] of Node walks the characters of the path and keeps
  the result so far, segment by segment; here the path is cut at the
  separators first and the result so far is a stack of segments, last
  segment on top. *)

Module NodePath.

(** The pieces of [s] between the separators ([s.split("/")]). *)
Fixpoint split (s : string) : list string :=
  match s with
  | EmptyString => [EmptyString]
  | String c s' =>
      if Ascii.eqb c "/" then EmptyString :: split s'
      else
        match split s' with
        | h :: t => String c h :: t
        | [] => [String c EmptyString]
        end
  end.

Definition isAbsolute (p : string) : bool := JS.startsWith "/" p.

Fixpoint endsWithSep (p : string) : bool :=
  match p with
  | EmptyString => false
  | String c EmptyString => Ascii.eqb c "/"
  | String _ p' => endsWithSep p'
  end.

(** One segment of [normalizeString]: empty segments and [.] are
    dropped; [..] removes the last segment kept, unless there is none
    or it is [..] itself, in which case it is kept when
    [allowAboveRoot] and dropped otherwise. *)
Definition step (allowAboveRoot : bool) (stack : list string) (seg : string)
  : list string :=
  if String.eqb seg "" || String.eqb seg "." then stack
  else if String.eqb seg ".." then
    match stack with
    | top :: below =>
        if String.eqb top ".." then
          if allowAboveRoot then seg :: stack else stack
        else below
    | [] => if allowAboveRoot then [seg] else []
    end
  else seg :: stack.

Definition normalizeString (path : string) (allowAboveRoot : bool) : list string :=
  rev (fold_left (step allowAboveRoot) (split path) []).

Definition render (absolute trailingSeparator : bool) (segs : list string) : string :=
  match segs with
  | [] => if absolute then "/" else if trailingSeparator then "./" else "."
  | _ =>
      (if absolute then "/" else "") ++ String.concat "/" segs
      ++ (if trailingSeparator then "/" else "")
  end.

(** [path.normalize] *)
Definition normalize (path : string) : string :=
  if String.eqb path "" then "."
  else
    render (isAbsolute path) (endsWithSep path)
           (normalizeString path (negb (isAbsolute path))).

(** [path.join] *)
Definition join (args : list string) : string :=
  match List.filter (fun a => negb (String.eqb a "")) args with
  | [] => "."
  | parts => normalize (String.concat "/" parts)
  end.

Fixpoint no_sep (s : string) : bool :=
  match s with
  | EmptyString => true
  | String c s' => negb (Ascii.eqb c "/") && no_sep s'
  end.

(** Neither empty nor [.]: a segment that [normalizeString] looks at. *)
Definition named (seg : string) : bool :=
  negb (String.eqb seg "" || String.eqb seg ".").

(** The directory and file names a path goes through. *)
Definition segments (p : string) : list string :=
  List.filter named (split p).

(** The name of a file or directory: no separator in it, and none of
    the empty segment, [.] and [..]. *)
Definition plain (seg : string) : bool :=
  no_sep seg && named seg && negb (String.eqb seg "..").

(** The stacks [normalizeString] builds, top first: names on top of
    [..] segments, the latter only when [allowAboveRoot]. *)
Definition stack_ok (allowAboveRoot : bool) (stack : list string) : Prop :=
  exists names n,
    stack = (names ++ repeat ".." n)%list /\
    forallb plain names = true /\
    (allowAboveRoot = false -> n = 0%nat).

Fixpoint strip_prefix (pre l : list string) : option (list string) :=
  match pre, l with
  | [], _ => Some l
  | a :: pre', b :: l' => if String.eqb a b then strip_prefix pre' l' else None
  | _ :: _, [] => None
  end.

(** [p] names [root] or something below it: [p] goes through the
    segments of the normalized [root] and then only downwards, and it is
    absolute exactly when [root] is. *)
Definition within (root p : string) : bool :=
  Bool.eqb (isAbsolute p) (isAbsolute root) &&
  match strip_prefix (segments (normalize root)) (segments p) with
  | Some below => forallb (fun s => negb (String.eqb s "..")) below
  | None => false
  end.

End NodePath.

(** ** Request handlers: [notFound], [handleAPI], [sanitisePath],
  [getFilepath], [handleStatic], [route] *)

Module Server.
Import JS.

(** [/^(\.\.[/\\])+/] replaced by the empty string: the leading run of
    [../] or [..\] is removed. *)
Fixpoint strip_updirs (s : string) : string :=
  match s with
  | String "." (String "." (String c rest)) =>
      if Ascii.eqb c "/" || Ascii.eqb c "\" then strip_updirs rest else s
  | _ => s
  end.

Definition sanitisePath (pathname : string) : string :=
  strip_updirs (NodePath.normalize pathname).

(** [null] is [None]. *)
Definition getFilepath (pathname : string) (prefix : option string)
  : option string :=
  match prefix with
  | Some p =>
      if truthy (VStr p) then
        if startsWith p pathname
        then Some (sanitisePath (slice (String.length p) pathname))
        else None
      else Some (sanitisePath pathname)
  | None => Some (sanitisePath pathname)
  end.

(** The character classes [\d] and line terminator. *)
Definition is_digit (c : ascii) : bool :=
  let n := nat_of_ascii c in (48 <=? n)%nat && (n <=? 57)%nat.

Definition is_line_terminator (c : ascii) : bool :=
  let n := nat_of_ascii c in (n =? 10)%nat || (n =? 13)%nat.

Fixpoint span_digits (s : string) : string * string :=
  match s with
  | String c s' =>
      if is_digit c then
        let '(d, r) := span_digits s' in (String c d, r)
      else (EmptyString, s)
  | EmptyString => (EmptyString, EmptyString)
  end.

Fixpoint all_digits (s : string) : bool :=
  match s with
  | String c s' => is_digit c && all_digits s'
  | EmptyString => true
  end.

Fixpoint no_line_terminator (s : string) : bool :=
  match s with
  | String c s' => negb (is_line_terminator c) && no_line_terminator s'
  | EmptyString => true
  end.

(** [APIPathRegex.exec]: the two groups of a match of the pattern, which
    is anchored at both ends: the literal [/api/], then one or more
    digits (first group), then any characters but line terminators up to
    the end of the input (second group).  The first group takes the
    longest run of digits; giving digits back to the second group cannot
    turn a failure into a match. *)
Definition APIPathRegex_exec (s : string) : option (string * string) :=
  if startsWith "/api/" s then
    let '(version, rest) := span_digits (slice 5 s) in
    if negb (String.eqb version "") && no_line_terminator rest
    then Some (version, rest)
    else None
  else None.

(** What a handler does with the response object. *)
Inductive action :=
| NotFound (msg : string)      (** [notFound(res, msg)]: status 404, body [msg] *)
| Register                     (** [SSERegister(req, res)] *)
| File (pathname : string) (with_transforms : bool)
                               (** [file(res, pathname, transforms)] *)
| Nothing.                     (** the handler returns, [res] untouched *)

Definition handleAPI (pathname : string) : action :=
  match APIPathRegex_exec pathname with
  | Some (version, rest) =>
      if negb (startsWith "/" rest) then NotFound "Invalid API endpoint"
      else Nothing
  | None => NotFound "Invalid API endpoint"
  end.

Record StaticOpts := {
  pathname : string;
  prefix : option string;
  directory : option string;
  runtimeRouting : bool;
  transforms : bool
}.

(** [fs.stat(p)]: [None] when it throws, otherwise whether [p] is a
    directory. *)
Definition Stat := string -> option bool.

(** The paths handed to [fs.stat] and [fs.readFile], in order, and what
    is done with the response. *)
Definition handleStatic (stat : Stat) (opts : StaticOpts)
  : list string * action :=
  match getFilepath (pathname opts) (prefix opts) with
  | None => ([], Nothing)
  | Some filepath =>
      if negb (truthy (VStr filepath)) then ([], Nothing)
      else
        let dirpath := default "" (directory opts) in
        let filepath := NodePath.join [dirpath; filepath] in
        match stat filepath with
        | Some isDirectory =>
            let target :=
              if isDirectory then NodePath.join [filepath; "index.html"]
              else filepath in
            ([filepath; target], File target (transforms opts))
        | None =>
            if runtimeRouting opts then
              let target := NodePath.join [dirpath; "index.html"] in
              ([filepath; target], File target false)
            else
              ([filepath], NotFound ("'" ++ filepath ++ "' not found"))
        end
  end.

(** The fields of [opts] that [route] reads. *)
Record Opts := {
  dirpath : string;
  watch : bool
}.

(** [route], on the [pathname] of the request URL ([None]: the request
    has no URL).  A URL that [new URL] does not parse makes [route]
    throw before this point: see [Static.route_request]. *)
Definition route (stat : Stat) (opts : Opts) (url_pathname : option string)
  : list string * action :=
  match url_pathname with
  | None => ([], NotFound "No URL")
  | Some pathname =>
      if String.eqb pathname "/reload" then ([], Register)
      else if startsWith "/api" pathname then ([], handleAPI pathname)
      else if startsWith "/" pathname then
        handleStatic stat
          {| pathname := pathname;
             prefix := None;
             directory := Some (dirpath opts);
             runtimeRouting := false;
             transforms := watch opts |}
      else ([], NotFound "Unmatched pathname")
  end.

End Server.

(** ** The live-reload registry: [sse_connections], [SSERegister],
  [SSESendReload]

  [sse_connections] is a [Map] from remote address to response object.
  Response objects are shared between the map and the [close] listener
  of their request, so they live in a store and are named by their
  index in it; the map keeps its entries in insertion order, as a
  JavaScript [Map] does. *)

Module Sse.

Record response := {
  statusCode : Z;
  headers : list (string * string);
  written : list string;      (** chunks passed to [write] and [end], in order *)
  finished : bool;            (** [end] has been called *)
  errors : list string        (** error events raised on the object *)
}.

(** A response object as [http] hands it to the request handler. *)
Definition fresh : response :=
  {| statusCode := 200; headers := []; written := []; finished := false;
     errors := [] |}.

Definition writeHead (status : Z) (hs : list (string * string)) (r : response)
  : response :=
  {| statusCode := status; headers := hs; written := written r;
     finished := finished r; errors := errors r |}.

(** [res.write(chunk)]; on a response that has ended it raises
    [ERR_STREAM_WRITE_AFTER_END] instead. *)
Definition write (chunk : string) (r : response) : response :=
  if finished r then
    {| statusCode := statusCode r; headers := headers r; written := written r;
       finished := true; errors := errors r ++ ["write after end"] |}
  else
    {| statusCode := statusCode r; headers := headers r;
       written := written r ++ [chunk];
       finished := false; errors := errors r |}.

(** [res.end(chunk)] *)
Definition end_ (chunk : string) (r : response) : response :=
  if finished r then r
  else
    {| statusCode := statusCode r; headers := headers r;
       written := written r ++ [chunk];
       finished := true; errors := errors r |}.

(** [Map.prototype.set]: the value of an existing key is replaced where
    it stands, a new key goes last. *)
Fixpoint map_set (k : string) (v : nat) (m : list (string * nat))
  : list (string * nat) :=
  match m with
  | [] => [(k, v)]
  | (k', v') :: m' =>
      if String.eqb k' k then (k, v) :: m' else (k', v') :: map_set k v m'
  end.

(** [Map.prototype.delete]: the entry of the key goes. *)
Fixpoint map_delete (k : string) (m : list (string * nat))
  : list (string * nat) :=
  match m with
  | [] => []
  | (k', v') :: m' =>
      if String.eqb k' k then m' else (k', v') :: map_delete k m'
  end.

(** [Map.prototype.get] *)
Fixpoint map_get (k : string) (m : list (string * nat)) : option nat :=
  match m with
  | [] => None
  | (k', v') :: m' => if String.eqb k' k then Some v' else map_get k m'
  end.

Record state := {
  store : list response;                 (** the response objects created so far *)
  listeners : gmap nat string;           (** [close] listeners: response, captured address *)
  sse_connections : list (string * nat)
}.

(** [run] starts with [sse_connections = new Map()]. *)
Definition init : state :=
  {| store := []; listeners := ∅; sse_connections := [] |}.

Definition update (id : nat) (f : response -> response) (st : list response)
  : list response :=
  match st !! id with
  | Some r => <[id := f r]> st
  | None => st
  end.

Definition event_stream_headers : list (string * string) :=
  [ ("Content-Type", "text/event-stream");
    ("Cache-Control", "no-cache");
    ("Connection", "keep-alive");
    ("Access-Control-Allow-Origin", "*") ].

(** [SSERegister(req, res)] for a new request from [remoteAddress]
    ([None]: [req.socket.remoteAddress] is undefined).  Returns the
    response object of the request. *)
Definition SSERegister (remoteAddress : option string) (st : state)
  : nat * state :=
  let res := length (store st) in
  let remoteAddress := default "unknown" remoteAddress in
  (res,
   {| store := store st ++ [writeHead 200 event_stream_headers fresh];
      listeners := <[res := remoteAddress]> (listeners st);
      sse_connections := map_set remoteAddress res (sse_connections st) |}).

(** The [close] event of the request whose response is [res]: the
    listener installed by [SSERegister] runs, once. *)
Definition close (res : nat) (st : state) : state :=
  match listeners st !! res with
  | Some remoteAddress =>
      {| store := update res (end_ "closed") (store st);
         listeners := delete res (listeners st);
         sse_connections := map_delete remoteAddress (sse_connections st) |}
  | None => st
  end.

Definition reload_msg : string :=
  "data: reload" ++ String (JS.chr 10) (String (JS.chr 10) "").

(** [conns.forEach((res, client) => res.write(msg))], entry by entry in
    the order of the map. *)
Definition broadcast (conns : list (string * nat)) (st : list response)
  : list response :=
  fold_left (fun s kv => update (snd kv) (write reload_msg) s) conns st.

(** [SSESendReload()] *)
Definition SSESendReload (st : state) : state :=
  {| store := broadcast (sse_connections st) (store st);
     listeners := listeners st;
     sse_connections := sse_connections st |}.

Inductive event :=
| Connect (remoteAddress : option string)
| Close (res : nat)
| Reload.

Definition step (st : state) (e : event) : state :=
  match e with
  | Connect a => snd (SSERegister a st)
  | Close res => close res st
  | Reload => SSESendReload st
  end.

Definition run (es : list event) : state := fold_left step es init.

(** What the client behind response [res] has been sent. *)
Definition received (res : nat) (st : state) : list string :=
  match store st !! res with
  | Some r => written r
  | None => []
  end.

Definition is_open (res : nat) (st : state) : bool :=
  match store st !! res with
  | Some r => negb (finished r)
  | None => false
  end.

Definition all_errors (st : state) : list string :=
  concat (map errors (store st)).

Definition keys (st : state) : list string := map fst (sse_connections st).

(** What holds of the registry in every state the server goes through:
    one entry per address; the responses in it are open and their
    listener carries the address they are stored under; listeners
    belong to responses of the store; no error was raised. *)
Record invariant (st : state) : Prop := {
  inv_keys : List.NoDup (keys st);
  inv_open : forall k id, In (k, id) (sse_connections st) ->
    (exists r, store st !! id = Some r /\ finished r = false)
    /\ listeners st !! id = Some k;
  inv_listeners : forall id k, listeners st !! id = Some k ->
    (id < length (store st))%nat;
  inv_errors : forall id r, store st !! id = Some r -> errors r = []
}.

End Sse.

(** ** [throttle] and [watch]

  Time is a clock in milliseconds.  A timer set by [setTimeout(f, ms)]
  at time [t] is due at [t + ms]; the event loop runs the timers that
  are due before it delivers a later event. *)

Module Throttle.

Record state := {
  is_timed_out : bool;
  is_timeout_active : bool;
  timers : list Z;       (** when the pending timers are due *)
  calls : list Z         (** when [cb] was called, oldest first *)
}.

(** [throttle(ms, cb)] returns a closure over fresh flags. *)
Definition init : state :=
  {| is_timed_out := false; is_timeout_active := false; timers := [];
     calls := [] |}.

(** The timer callback: both flags are cleared. *)
Definition expire (st : state) : state :=
  {| is_timed_out := false; is_timeout_active := false;
     timers := timers st; calls := calls st |}.

(** The timers due at [now] run and are gone. *)
Definition run_timers (now : Z) (st : state) : state :=
  let due := List.filter (fun d => (d <=? now)%Z) (timers st) in
  let st' := fold_left (fun s _ => expire s) due st in
  {| is_timed_out := is_timed_out st'; is_timeout_active := is_timeout_active st';
     timers := List.filter (fun d => negb (d <=? now)%Z) (timers st);
     calls := calls st' |}.

(** The closure that [throttle(ms, cb)] returns, called at [now]. *)
Definition throttle (ms now : Z) (st : state) : state :=
  if negb (is_timed_out st) then
    let called := (calls st ++ [now])%list in
    if negb (is_timeout_active st) then
      {| is_timed_out := true; is_timeout_active := true;
         timers := (timers st ++ [(now + ms)%Z])%list; calls := called |}
    else
      {| is_timed_out := true; is_timeout_active := is_timeout_active st;
         timers := timers st; calls := called |}
  else st.

(** A change event delivered at [now]. *)
Definition deliver (ms now : Z) (st : state) : state :=
  throttle ms now (run_timers now st).

(** [watch(dir, cb)]: the change events of the watcher, given by their
    times, go through [throttle(100, cb)]. *)
Definition watch (events : list Z) : state :=
  fold_left (fun st t => deliver 100 t st) events init.

(** When [cb] was last called. *)
Definition last_call (st : state) : option Z := last (calls st).

(** While cooling down, one timer is pending, due a window after the
    last call. *)
Definition cooling (ms : Z) (st : state) : Prop :=
  exists c, last_call st = Some c /\
    is_timed_out st = true /\ is_timeout_active st = true /\
    timers st = [(c + ms)%Z].

Definition idle (st : state) : Prop :=
  is_timed_out st = false /\ is_timeout_active st = false /\ timers st = [].

End Throttle.

(** ** Static files: [mimeType], [file], [injectDevHTML], and a request
    from [route] to the response

    [fs.readFile] is a function from paths to contents, [None] when it
    throws.  File contents are strings of bytes; [injectDevHTML] decodes
    and encodes UTF-8, which is the identity on well-formed contents. *)

Module Static.
Import JS Server.

(** The non-empty pieces of a path between separators. *)
Definition pieces (p : string) : list string :=
  List.filter (fun s => negb (String.eqb s "")) (NodePath.split p).

(** [path.parse(p).base]: the last piece, trailing separators aside. *)
Definition base (p : string) : string := List.last (pieces p) "".

(** The part of [s] from its last dot on. *)
Fixpoint last_dot_suffix (s : string) : option string :=
  match s with
  | EmptyString => None
  | String c s' =>
      match last_dot_suffix s' with
      | Some e => Some e
      | None => if Ascii.eqb c "." then Some s else None
      end
  end.

(** The extension of a base name: from its last dot on, unless the name
    is [..] or its only dot comes first. *)
Definition extname (b : string) : string :=
  if String.eqb b ".." then ""
  else
    match b with
    | EmptyString => ""
    | String _ rest => default "" (last_dot_suffix rest)
    end.

(** [path.parse(p).ext] *)
Definition ext (p : string) : string := extname (base p).

Definition mimeType : list (string * string) :=
  [ (".ico", "image/x-icon");
    (".html", "text/html");
    (".js", "text/javascript");
    (".mjs", "text/javascript");
    (".json", "application/json");
    (".css", "text/css");
    (".png", "image/png");
    (".jpg", "image/jpeg");
    (".wav", "audio/wav");
    (".mp3", "audio/mpeg");
    (".svg", "image/svg+xml");
    (".pdf", "application/pdf");
    (".zip", "application/zip");
    (".doc", "application/msword");
    (".eot", "application/vnd.ms-fontobject");
    (".ttf", "application/x-font-ttf") ].

(** [table[key]] on an object literal *)
Fixpoint lookup {A} (key : string) (table : list (string * A)) : option A :=
  match table with
  | [] => None
  | (k, v) :: table' => if String.eqb k key then Some v else lookup key table'
  end.

(** [res.statusCode = status] *)
Definition setStatus (status : Z) (r : Sse.response) : Sse.response :=
  {| Sse.statusCode := status; Sse.headers := Sse.headers r;
     Sse.written := Sse.written r; Sse.finished := Sse.finished r;
     Sse.errors := Sse.errors r |}.

(** [res.setHeader(name, value)] *)
Definition setHeader (name value : string) (r : Sse.response) : Sse.response :=
  {| Sse.statusCode := Sse.statusCode r;
     Sse.headers :=
       (List.filter (fun h => negb (String.eqb (fst h) name)) (Sse.headers r)
        ++ [(name, value)])%list;
     Sse.written := Sse.written r; Sse.finished := Sse.finished r;
     Sse.errors := Sse.errors r |}.

Definition notFound (msg : string) (r : Sse.response) : Sse.response :=
  Sse.end_ msg (setStatus 404 r).

(** [FileTransforms]: a content transform per extension. *)
Definition FileTransforms := list (string * (string -> string)).

Definition file (readFile : string -> option string) (pathname : string)
    (transforms : FileTransforms) (r : Sse.response) : Sse.response :=
  match readFile pathname with
  | Some data =>
      let data :=
        match lookup (ext pathname) transforms with
        | Some transform => transform data
        | None => data
        end in
      let contentType := default "text/plain" (lookup (ext pathname) mimeType) in
      Sse.end_ data (setHeader "Content-Type" contentType (setStatus 200 r))
  | None => notFound ("'" ++ pathname ++ "' not found") r
  end.

(** [s.replace(pat, rep)] for a string pattern and a replacement
    without [$]: the first occurrence of [pat] gives way to [rep]. *)
Fixpoint replace_first (pat rep s : string) : string :=
  if startsWith pat s then rep ++ slice (String.length pat) s
  else
    match s with
    | EmptyString => EmptyString
    | String c s' => String c (replace_first pat rep s')
    end.

Definition quote : string := String (chr 34) "".

Definition dev_script : string :=
  "<script type=" ++ quote ++ "text/javascript" ++ quote
  ++ ">new EventSource('/reload').onmessage=()=>window.location.reload(true)</script>".

(** U+FFFD in UTF-8 *)
Definition replacement : string :=
  String (chr 239) (String (chr 191) (String (chr 189) "")).

(** The lead byte [b] of a sequence of two, three or four bytes: how
    many bytes are to follow, and the bounds of the next one. *)
Definition lead (b : nat) : option (nat * nat * nat) :=
  if (194 <=? b)%nat && (b <=? 223)%nat then Some (1, 128, 191)%nat
  else if (b =? 224)%nat then Some (2, 160, 191)%nat
  else if (b =? 237)%nat then Some (2, 128, 159)%nat
  else if (225 <=? b)%nat && (b <=? 239)%nat then Some (2, 128, 191)%nat
  else if (b =? 240)%nat then Some (3, 144, 191)%nat
  else if (b =? 244)%nat then Some (3, 128, 143)%nat
  else if (241 <=? b)%nat && (b <=? 243)%nat then Some (3, 128, 191)%nat
  else None.

(** The bytes [s] decoded as UTF-8 and encoded again, with the bytes
    [pending] of a sequence that is open, [needed] more to come, the
    next one within [lower] and [upper].  A sequence that is complete
    comes back as it is; one that breaks off gives U+FFFD, and the byte
    that broke it is looked at again. *)
Fixpoint scrub (pending : string) (needed lower upper : nat) (s : string)
  : string :=
  match s with
  | EmptyString =>
      match needed with
      | O => ""
      | S _ => replacement
      end
  | String c s' =>
      let b := nat_of_ascii c in
      let start :=
        if (b <? 128)%nat then String c (scrub "" 0 128 191 s')
        else
          match lead b with
          | Some (n, lo, hi) => scrub (String c "") n lo hi s'
          | None => replacement ++ scrub "" 0 128 191 s'
          end in
      match needed with
      | O => start
      | S n =>
          if (lower <=? b)%nat && (b <=? upper)%nat then
            match n with
            | O => pending ++ String c (scrub "" 0 128 191 s')
            | S _ => scrub (pending ++ String c "") n 128 191 s'
            end
          else replacement ++ start
      end
  end.

(** [Buffer.from(buf.toString("utf8"), "utf8")]: every byte sequence
    that is not well-formed UTF-8 becomes U+FFFD. *)
Definition utf8 (s : string) : string := scrub "" 0 128 191 s.

(** No byte of [p] is an ASCII character. *)
Definition high (p : string) : bool :=
  forallb (fun c => negb (low c)) (list_ascii_of_string p).

(** [injectDevHTML(buf)]: the content is decoded, the script goes
    before the first [</head>] of the text, and the text is encoded
    again.  The pattern is made of ASCII characters, which stand for
    themselves in UTF-8: the replacement is done on the bytes of the
    text. *)
Definition injectDevHTML (content : string) : string :=
  replace_first "</head>" (dev_script ++ "</head>") (utf8 content).

(** The [transforms] that [route] passes on. *)
Definition route_transforms (with_transforms : bool) : FileTransforms :=
  if with_transforms then [(".html", injectDevHTML)] else [].

(** What the handler chosen by [route] does to the response object. *)
Definition respond (readFile : string -> option string) (a : action)
    (r : Sse.response) : Sse.response :=
  match a with
  | NotFound msg => notFound msg r
  | Register => Sse.writeHead 200 Sse.event_stream_headers r
  | File pathname with_transforms =>
      file readFile pathname (route_transforms with_transforms) r
  | Nothing => r
  end.

(** A request for [pathname] through [route], on a new response. *)
Definition serve (stat : Stat) (readFile : string -> option string)
    (opts : Opts) (pathname : string) : Sse.response :=
  respond readFile (snd (route stat opts (Some pathname))) Sse.fresh.

(** The body sent with the response. *)
Definition body (r : Sse.response) : string := String.concat "" (Sse.written r).

(** What [route] has of the URL of a request.  Which strings [new URL]
    refuses is not modelled: the parse is given by its outcome. *)
Inductive request_url :=
| NoURL                         (** [req.url == null] *)
| Invalid                       (** [new URL(req.url, "http://localhost")] throws *)
| Parsed (pathname : string).   (** the [pathname] of the parsed URL *)

(** How [route] ends: it throws with the response untouched, or it
    returns with the response in some state. *)
Inductive routed :=
| Throws
| Returns (r : Sse.response).

(** A request through [route], on a new response. *)
Definition route_request (stat : Stat) (readFile : string -> option string)
    (opts : Opts) (u : request_url) : routed :=
  match u with
  | NoURL => Returns (respond readFile (snd (route stat opts None)) Sse.fresh)
  | Invalid => Throws
  | Parsed pathname => Returns (serve stat readFile opts pathname)
  end.

End Static.

(** ** The configurations [parseArgs] returns *)

Module Config.
Import JS Cli.

(** A flag is [undefined] or [true]: nothing stores [false]. *)
Definition flag_value (v : option value) : Prop :=
  v = Some VUndefined \/ v = Some (VBool true).

(** The four keys of [params_definition] and nothing else; [port] a
    whole number other than 0, [dirpath] a string that is not empty. *)
Definition well_formed (r : Params) : Prop :=
  dom r = ({[ "port"; "verbose"; "watch"; "dirpath" ]} : gset string)
  /\ (exists neg num, r !! "port" = Some (VNum (Finite neg num 0)) /\ num <> 0%N)
  /\ (exists d, r !! "dirpath" = Some (VStr d) /\ d <> "")
  /\ flag_value (r !! "verbose")
  /\ flag_value (r !! "watch").

(** Arguments on which the embedding is exact: tokens of ASCII
    characters, the numbers among them such that binary64 holds them or
    rounds them within their kind.  On such arguments [parseArgs] goes
    the way of the code, token by token. *)
Definition exact_args (argv : list string) : bool :=
  forallb (fun tok => is_ascii tok && short_decimal (Number (Some tok))) argv.

End Config.

(** ** The logger *)

Module Logger.
Import JS.

Inductive Level := Panic | Err | Warn | Info | Debug.

(** [LogLevelEnum]: the counter numbers the levels from 0. *)
Definition LogLevelEnum (l : Level) : Z :=
  match l with
  | Panic => 0
  | Err => 1
  | Warn => 2
  | Info => 3
  | Debug => 4
  end.

(** The methods of [console] that the logger prints with. *)
Inductive console := console_debug | console_info | console_warn | console_error.

Definition FgGray : string := Cli.esc ++ "[90m".
Definition FgYellow : string := Cli.esc ++ "[33m".

(** [stringifyMsgs(msgs)] for an array of messages, each given by the
    text that [stringifyMsg] has for it. *)
Definition stringifyMsgs (msgs : list string) : string := String.concat " " msgs.

(** [fmt(msgs, ...props)] for an array of messages *)
Definition fmt (msgs : list string) (props : list string) : string :=
  String.concat "" props ++ stringifyMsgs msgs ++ Cli.Reset.

(** A logger: each method returns what it prints. *)
Record Logger := {
  debug : list string -> list (console * string);
  info : list string -> list (console * string);
  warn : list string -> list (console * string);
  err : list string -> list (console * string)
}.

(** [level < n], where a missing level stands for [Infinity] *)
Definition below (level : option Z) (n : Z) : bool :=
  match level with
  | Some l => (l <? n)%Z
  | None => false
  end.

(** [initLog({ level })] *)
Definition initLog (level : option Z) : Logger :=
  {| debug := fun msgs =>
       if below level (LogLevelEnum Debug) then []
       else [(console_debug, fmt msgs [FgGray])];
     info := fun msgs =>
       if below level (LogLevelEnum Info) then []
       else [(console_info, fmt msgs [])];
     warn := fun msgs =>
       if below level (LogLevelEnum Warn) then []
       else [(console_warn, fmt msgs [FgYellow])];
     err := fun msgs =>
       if below level (LogLevelEnum Err) then []
       else [(console_error, fmt msgs [Cli.FgRed])] |}.

End Logger.

(** ** The help message *)

Module Help.
Import JS.

Definition PL : string := "  ".
Definition PLO : string := " ".

Definition BoldReset : string := Cli.esc ++ "[22m".
Definition Dim : string := Cli.esc ++ "[2m".
Definition FgGreen : string := Cli.esc ++ "[32m".
Definition FgYellow : string := Cli.esc ++ "[33m".
Definition FgBlue : string := Cli.esc ++ "[34m".
Definition FgMagenta : string := Cli.esc ++ "[35m".
Definition FgCyan : string := Cli.esc ++ "[36m".

Module HelpFlag.
Record t := { name : string; description : string }.
End HelpFlag.

Module HelpArgument.
Record t := {
  name : string;
  type : string;
  description : string;
  arg_default : string
}.
End HelpArgument.

Module HelpPositional.
Record t := {
  name : string;
  position : nat;
  type : string;
  description : string;
  arg_default : string
}.
End HelpPositional.

Module HelpTask.
Record t := { name : string; description : string }.
End HelpTask.

Module HelpExample.
Record t := { description : string; options : option string }.
End HelpExample.

(** An absent field is [None]. *)
Record HelpSections := {
  description : option string;
  positional : option (list HelpPositional.t);
  flags : option (list HelpFlag.t);
  arguments : option (list HelpArgument.t);
  tasks : option (list HelpTask.t);
  examples : option (list HelpExample.t)
}.

Fixpoint spaces (n : nat) : string :=
  match n with
  | O => ""
  | S n' => String " " (spaces n')
  end.

(** [s.padEnd(target)] *)
Definition padEnd (target : nat) (s : string) : string :=
  s ++ spaces (target - String.length s).

(** [Math.max(...ns)] for lengths [ns], of which there is one at least
    wherever it is called. *)
Definition max_of (ns : list nat) : nat := fold_right Nat.max 0%nat ns.

(** [header(str, colour)] *)
Definition header (str : string) (colour : option string) : string :=
  let res := Cli.Bold ++ str ++ ":" ++ BoldReset ++ Cli.nl in
  match colour with
  | Some c => if truthy (VStr c) then c ++ res ++ Cli.Reset else res
  | None => res
  end.

Definition task_item (longestName : nat) (d : HelpTask.t) : string :=
  FgYellow ++ PL ++ padEnd longestName (HelpTask.name d) ++ Cli.Reset ++ PL
  ++ HelpTask.description d.

(** [buildTasks(defs)] *)
Definition buildTasks (defs : option (list HelpTask.t)) : string :=
  match defs with
  | Some ((_ :: _) as l) =>
      let longestName := max_of (map (fun d => String.length (HelpTask.name d)) l) in
      header "Tasks" (Some FgYellow)
      ++ String.concat Cli.nl (map (task_item longestName) l)
  | _ => ""
  end.

Definition positional_item (longestNameArg : nat) (d : HelpPositional.t)
  : string :=
  let nameArg := HelpPositional.name d ++ " <" ++ HelpPositional.type d ++ ">" in
  FgCyan ++ (PLO ++ "-") ++ padEnd longestNameArg nameArg ++ Cli.Reset ++ PL
  ++ HelpPositional.description d
  ++ Cli.fmt (" (default: " ++ HelpPositional.arg_default d ++ ")") [Dim].

(** [buildPositional(defs)] *)
Definition buildPositional (defs : option (list HelpPositional.t)) : string :=
  match defs with
  | Some ((_ :: _) as l) =>
      let longestNameArg :=
        max_of (map (fun d => String.length (HelpPositional.name d)
                              + String.length (HelpPositional.type d) + 3)%nat l) in
      header "Positional" (Some FgCyan)
      ++ String.concat Cli.nl (map (positional_item longestNameArg) l)
  | _ => ""
  end.

Definition arg_item (longestNameArg : nat) (d : HelpArgument.t) : string :=
  let nameArg := HelpArgument.name d ++ " <" ++ HelpArgument.type d ++ ">" in
  FgMagenta ++ (PLO ++ "-") ++ padEnd longestNameArg nameArg ++ Cli.Reset ++ PL
  ++ HelpArgument.description d
  ++ Cli.fmt (" (default: " ++ HelpArgument.arg_default d ++ ")") [Dim].

(** [buildArgs(defs)] *)
Definition buildArgs (defs : option (list HelpArgument.t)) : string :=
  match defs with
  | Some ((_ :: _) as l) =>
      let longestNameArg :=
        max_of (map (fun d => String.length (HelpArgument.name d)
                              + String.length (HelpArgument.type d) + 3)%nat l) in
      header "Arguments" (Some FgMagenta)
      ++ String.concat Cli.nl (map (arg_item longestNameArg) l)
  | _ => ""
  end.

(** [ensureHelp(defs)]: the array of the caller after the call.  Without
    an array the new one stays with [ensureHelp]. *)
Definition ensureHelp (defs : option (list HelpFlag.t))
  : option (list HelpFlag.t) :=
  match defs with
  | Some l =>
      if existsb (fun d => String.eqb (HelpFlag.name d) "help") l then Some l
      else Some (l ++ [ {| HelpFlag.name := "help";
                           HelpFlag.description := "Prints this message" |} ])%list
  | None => None
  end.

Definition flag_item (longestName : nat) (d : HelpFlag.t) : string :=
  FgGreen ++ (PLO ++ "-") ++ padEnd longestName (HelpFlag.name d) ++ Cli.Reset
  ++ PL ++ HelpFlag.description d.

(** [buildFlags(defs)] *)
Definition buildFlags (defs : option (list HelpFlag.t)) : string :=
  match ensureHelp defs with
  | Some ((_ :: _) as l) =>
      let longestName := max_of (map (fun d => String.length (HelpFlag.name d)) l) in
      header "Flags" (Some FgGreen)
      ++ String.concat Cli.nl (map (flag_item longestName) l)
  | _ => ""
  end.

Definition example_item (arg0 : string) (d : HelpExample.t) : string :=
  PL ++ HelpExample.description d ++ Cli.nl ++ PL ++ Dim
  ++ match HelpExample.options d with
     | Some o =>
         if truthy (VStr o) then "$ " ++ arg0 ++ " " ++ o else "$ " ++ arg0
     | None => "$ " ++ arg0
     end
  ++ Cli.Reset.

(** [buildExamples(defs, arg0)] *)
Definition buildExamples (defs : option (list HelpExample.t)) (arg0 : string)
  : string :=
  match defs with
  | Some ((_ :: _) as l) =>
      header "Examples" (Some FgBlue)
      ++ String.concat (Cli.nl ++ Cli.nl) (map (example_item arg0) l)
  | _ => ""
  end.

(** [defs?.length] as a condition *)
Definition has_length {A} (defs : option (list A)) : bool :=
  match defs with
  | Some (_ :: _) => true
  | _ => false
  end.

(** [buildUsage(arg0, sections)] *)
Definition buildUsage (arg0 : string) (sections : HelpSections) : string :=
  Cli.Bold ++ "Usage: " ++ Cli.Reset ++ arg0
  ++ String.concat ""
       (map (fun pos => " [" ++ FgCyan ++ HelpPositional.name pos ++ Cli.Reset ++ "]")
            (default [] (positional sections)))
  ++ (if has_length (flags sections)
      then " [" ++ FgGreen ++ "Flags..." ++ Cli.Reset ++ "]" else "")
  ++ (if has_length (arguments sections)
      then " [" ++ FgMagenta ++ "Arguments..." ++ Cli.Reset ++ "]" else "")
  ++ (if has_length (tasks sections)
      then " [" ++ FgYellow ++ "Tasks..." ++ Cli.Reset ++ "]" else "").

(** [if (res) printedSections.push(res)] *)
Definition push_if (res : string) (printedSections : list string) : list string :=
  if truthy (VStr res) then (printedSections ++ [res])%list else printedSections.

(** [String.prototype.trim] *)
Definition trim (s : string) : string :=
  string_of_list_ascii (JS.trim (list_ascii_of_string s)).

(** [buildHelpMessage(arg0, sections)] *)
Definition buildHelpMessage (arg0 : string) (sections : HelpSections) : string :=
  let printedSections := [buildUsage arg0 sections] in
  let printedSections :=
    match description sections with
    | Some d => push_if (trim d) printedSections
    | None => printedSections
    end in
  let printedSections := push_if (buildPositional (positional sections)) printedSections in
  let printedSections := push_if (buildTasks (tasks sections)) printedSections in
  let printedSections := push_if (buildArgs (arguments sections)) printedSections in
  let printedSections := push_if (buildFlags (flags sections)) printedSections in
  let printedSections := push_if (buildExamples (examples sections) arg0) printedSections in
  String.concat (Cli.nl ++ Cli.nl) printedSections ++ Cli.nl.

(** A table of rows, each a label part and the text after it: the label
    parts are all [width] characters long. *)
Definition table (head : string) (width : nat) (rows : list (string * string))
    (s : string) : Prop :=
  s = head ++ String.concat Cli.nl (map (fun r => fst r ++ snd r) rows)
  /\ Forall (fun r => String.length (fst r) = width) rows.

End Help.

(** ** The running server

  What [run] sets up: the logger, the registry of event streams and,
  with [watch], the watcher whose throttled callback is [SSESendReload]. *)

Module Main.
Import JS.

(** [opts.verbose], [opts.watch] *)
Definition field (args : Cli.Params) (k : string) : value :=
  default VUndefined (args !! k).

(** The logger that [run(args)] creates. *)
Definition run_log (args : Cli.Params) : Logger.Logger :=
  Logger.initLog
    (Some (Logger.LogLevelEnum
             (if truthy (field args "verbose") then Logger.Debug else Logger.Warn))).

(** What reaches the running server: a request for [/reload], the
    [close] event of such a request, a change under the served
    directory. *)
Inductive input :=
| Request (remoteAddress : option string)
| Closed (res : nat)
| Change.

Record server := {
  sse : Sse.state;
  throttled : Throttle.state
}.

Definition init : server := {| sse := Sse.init; throttled := Throttle.init |}.

(** The closure of [throttle(ms, cb)] called at [now], for a callback
    that acts on the state [s]: [cb] is called where the call is
    counted. *)
Definition throttle {S : Type} (ms now : Z) (cb : S -> S)
    (st : Throttle.state) (s : S) : Throttle.state * S :=
  (Throttle.throttle ms now st,
   if negb (Throttle.is_timed_out st) then cb s else s).

(** One input at time [fst e].  Without [watch] no watcher runs, and
    changes go unnoticed.  The timer of the throttle clears flags that
    only the throttled closure reads: it is run when the next change
    comes in. *)
Definition on_input (watching : bool) (sv : server) (e : Z * input) : server :=
  match snd e with
  | Request a =>
      {| sse := snd (Sse.SSERegister a (sse sv)); throttled := throttled sv |}
  | Closed res =>
      {| sse := Sse.close res (sse sv); throttled := throttled sv |}
  | Change =>
      if watching then
        let r := throttle 100 (fst e) Sse.SSESendReload
                   (Throttle.run_timers (fst e) (throttled sv)) (sse sv) in
        {| sse := snd r; throttled := fst r |}
      else sv
  end.

(** The server after the inputs [es]. *)
Definition serve (watching : bool) (es : list (Z * input)) : server :=
  fold_left (on_input watching) es init.

(** The server that [run(args)] starts: [if (opts.watch) watch(...)]. *)
Definition run (args : Cli.Params) (es : list (Z * input)) : server :=
  serve (truthy (field args "watch")) es.

(** The times of the changes among the inputs. *)
Definition changes (es : list (Z * input)) : list Z :=
  omap (fun e => match snd e with Change => Some (fst e) | _ => None end) es.

(** When the clients were last told to reload. *)
Definition last_reload (sv : server) : option Z :=
  Throttle.last_call (throttled sv).

Definition registered (id : nat) (sv : server) : bool :=
  existsb (Nat.eqb id) (map snd (Sse.sse_connections (sse sv))).

End Main.

(** * Properties *)

(** ** JavaScript numbers *)

Section Numbers.
Import JS.

Example Number_integer : Number (Some "3000") = int 3000.
Proof. reflexivity. Qed.

Example Number_word : Number (Some "notanumber") = VNum NaN.
Proof. reflexivity. Qed.

Example Number_fraction : Number (Some "1.5") = VNum (Finite false 15 1).
Proof. reflexivity. Qed.

Example Number_exponent : Number (Some "100e-2") = int 1.
Proof. reflexivity. Qed.

Example Number_hex : Number (Some "0x1F") = int 31.
Proof. reflexivity. Qed.

Example Number_blank : Number (Some "  ") = int 0.
Proof. reflexivity. Qed.

Example Number_undefined : Number None = VNum NaN.
Proof. reflexivity. Qed.
End Numbers.

(** ** The help pattern *)

Section HelpPattern.
Import JS Regex Cli.

Lemma startsWith_cons a p b s :
  startsWith (String a p) (String b s) = Ascii.eqb a b && startsWith p s.
Proof. reflexivity. Qed.


Lemma startsWith_nil_l s : startsWith "" s = true.
Proof. destruct s; reflexivity. Qed.



Lemma matches_at_Opt c r s :
  matches_at (Opt c :: r) s
  = matches_at (Chr c :: r) s || matches_at r s.
Proof.
  cbn [matches_at]. destruct (head_is c s); reflexivity.
Qed.

(** A sequence of optional characters matches at every position. *)
Lemma matches_at_optional r s :
  Forall (fun a => match a with Opt _ => True | Chr _ => False end) r ->
  matches_at r s = true.
Proof.
  intros Hr. revert s. induction Hr as [|a r Ha _ IH]; intros s; [reflexivity|].
  destruct a as [c|c]; [destruct Ha|].
  rewrite matches_at_Opt, IH. apply orb_true_r.
Qed.



End HelpPattern.

(** ** The argument parser *)

Section ParseArgs.
Import JS Cli.

Lemma scan_defs_idx argv arg defs s r :
  scan_defs argv arg defs s = Break r \/ scan_defs argv arg defs s = Fallthrough r ->
  (idx s <= idx r)%nat.
Proof.
  revert s. induction defs as [|[def_key def] defs IH]; intros s H.
  - destruct H as [H|H]; inversion H; subst; lia.
  - cbn [scan_defs] in H.
    set (s1 := if startsWith "-" arg then _ else _) in H.
    assert (Hs1 : (idx s <= idx s1)%nat).
    { subst s1. destruct (startsWith "-" arg).
      - destruct (aliases def) as [al|]; [|lia].
        destruct (includes al (slice 1 arg)); [|lia].
        destruct (type def); cbn; lia.
      - destruct (position def) as [p|]; [|lia].
        destruct (p =? cur s)%nat; cbn; lia. }
    destruct (truthy (val s1)).
    + destruct (match validate def with Some f => f (val s1) | None => true end).
      * destruct H as [H|H]; inversion H; subst; cbn; lia.
      * destruct H as [H|H]; discriminate.
    + apply IH in H. lia.
Qed.

(** Every pass of the loop advances the index, so any [fuel] that covers
    the arguments left gives the same result. *)
Lemma parse_from_fuel defs argv f1 : forall f2 i pos res,
  (length argv - i <= f1)%nat -> (length argv - i <= f2)%nat ->
  parse_from f1 defs argv i pos res = parse_from f2 defs argv i pos res.
Proof.
  induction f1 as [|f1 IH]; intros f2 i pos res H1 H2.
  - destruct f2; [reflexivity|]. cbn [parse_from].
    destruct (argv !! i) eqn:E; [|reflexivity].
    apply lookup_lt_Some in E. lia.
  - cbn [parse_from]. destruct (argv !! i) as [tok|] eqn:E.
    2:{ destruct f2; cbn [parse_from]; rewrite E; reflexivity. }
    apply lookup_lt_Some in E as Hi.
    destruct f2 as [|f2]; [lia|]. cbn [parse_from]. rewrite E.
    destruct (Regex.test help_pattern false (toLowerCase tok)); [reflexivity|].
    destruct (scan_defs argv (toLowerCase tok) defs _) as [s|s|e] eqn:Es;
      [| |reflexivity].
    all: assert (i <= idx s)%nat by (apply (scan_defs_idx _ _ _ _ _ (ltac:(eauto))));
         destruct (truthy (val s)); [apply IH; lia | reflexivity].
Qed.

(** The parser always comes to an end: it returns or exits. *)
Lemma parse_from_total defs argv : forall fuel i pos res,
  (length argv - i <= fuel)%nat ->
  is_Some (parse_from fuel defs argv i pos res).
Proof.
  induction fuel as [|fuel IH]; intros i pos res H; cbn [parse_from].
  - destruct (argv !! i) eqn:E; [|eauto].
    apply lookup_lt_Some in E. lia.
  - destruct (argv !! i) as [tok|] eqn:E; [|eauto].
    apply lookup_lt_Some in E as Hi.
    destruct (Regex.test help_pattern false (toLowerCase tok)); [eauto|].
    destruct (scan_defs argv (toLowerCase tok) defs _) as [s|s|e] eqn:Es;
      [| |eauto].
    all: assert (i <= idx s)%nat by (apply (scan_defs_idx _ _ _ _ _ (ltac:(eauto))));
         destruct (truthy (val s)); [apply IH; lia | eauto].
Qed.

Lemma parseArgs_total argv : is_Some (parseArgs argv).
Proof. apply parse_from_total. lia. Qed.

(** One pass over [params_definition], case by case. *)
Lemma scan_params argv arg i pos res :
  scan_defs argv arg params_definition
            {| idx := i; val := VNull; cur := pos; out := res |} =
  if startsWith "-" arg then
    if includes ["port"; "p"] (slice 1 arg) then
      let v := Number (argv !! S i) in
      if truthy v then
        if isInteger v then
          Break {| idx := S i; val := v; cur := pos; out := <["port" := v]> res |}
        else
          Exit (printHelp (Some ("Invalid value for argument 'port': '"
                                 ++ ToString (argv !! S i) ++ "'")))
      else Fallthrough {| idx := S i; val := v; cur := pos; out := res |}
    else if includes ["verbose"; "v"] (slice 1 arg) then
      Break {| idx := i; val := VBool true; cur := pos;
               out := <["verbose" := VBool true]> res |}
    else if includes ["watch"; "w"] (slice 1 arg) then
      Break {| idx := i; val := VBool true; cur := pos;
               out := <["watch" := VBool true]> res |}
    else Fallthrough {| idx := i; val := VNull; cur := pos; out := res |}
  else if (0 =? pos)%nat then
    if truthy (VStr arg) then
      Break {| idx := i; val := VStr arg; cur := S pos;
               out := <["dirpath" := VStr arg]> res |}
    else Fallthrough {| idx := i; val := VStr arg; cur := S pos; out := res |}
  else Fallthrough {| idx := i; val := VNull; cur := pos; out := res |}.
Proof.
  unfold params_definition. cbn [scan_defs position aliases type validate
    default_value idx val cur out parseArgValue].
  generalize (slice 1 arg). intros x.
  destruct (startsWith "-" arg).
  - unfold includes. cbn [existsb]. rewrite !orb_false_r.
    destruct (String.eqb_spec x "port") as [->|Hport].
    { cbn [orb String.eqb Ascii.eqb Bool.eqb andb]. cbv zeta.
      destruct (truthy (Number (argv !! S i))) eqn:Ht; cbn [idx val cur out];
        rewrite ?Ht; [|reflexivity].
      destruct (isInteger _); reflexivity. }
    destruct (String.eqb_spec x "p") as [->|Hp].
    { cbn [orb String.eqb Ascii.eqb Bool.eqb andb]. cbv zeta.
      destruct (truthy (Number (argv !! S i))) eqn:Ht; cbn [idx val cur out];
        rewrite ?Ht; [|reflexivity].
      destruct (isInteger _); reflexivity. }
    cbn [orb truthy idx val cur out].
    destruct (String.eqb_spec x "verbose") as [->|Hverbose];
      [reflexivity|].
    destruct (String.eqb_spec x "v") as [->|Hv]; [reflexivity|].
    cbn [orb truthy idx val cur out].
    destruct (String.eqb_spec x "watch") as [->|Hwatch];
      [reflexivity|].
    destruct (String.eqb_spec x "w") as [->|Hw]; [reflexivity|].
    reflexivity.
  - cbn [truthy idx val cur out].
    destruct pos as [|pos]; cbn [Nat.eqb idx val cur out truthy]; [|reflexivity].
    destruct (negb (String.eqb arg "")); reflexivity.
Qed.
End ParseArgs.

Section ParseArgsPasses.
Import JS Cli.

Lemma includes_port_not_flag x :
  includes ["port"; "p"] x = true ->
  includes ["verbose"; "v"] x = false /\ includes ["watch"; "w"] x = false.
Proof.
  unfold includes. cbn [existsb]. rewrite !orb_false_r.
  destruct (String.eqb_spec x "port") as [->|_]; [split; reflexivity|].
  destruct (String.eqb_spec x "p") as [->|_]; [split; reflexivity|].
  discriminate.
Qed.

Lemma includes_verbose_not_flag x :
  includes ["verbose"; "v"] x = true ->
  includes ["port"; "p"] x = false /\ includes ["watch"; "w"] x = false.
Proof.
  unfold includes. cbn [existsb]. rewrite !orb_false_r.
  destruct (String.eqb_spec x "verbose") as [->|_]; [split; reflexivity|].
  destruct (String.eqb_spec x "v") as [->|_]; [split; reflexivity|].
  discriminate.
Qed.

Lemma includes_watch_not_flag x :
  includes ["watch"; "w"] x = true ->
  includes ["port"; "p"] x = false /\ includes ["verbose"; "v"] x = false.
Proof.
  unfold includes. cbn [existsb]. rewrite !orb_false_r.
  destruct (String.eqb_spec x "watch") as [->|_]; [split; reflexivity|].
  destruct (String.eqb_spec x "w") as [->|_]; [split; reflexivity|].
  discriminate.
Qed.

(** A pass that stores a value ends in [Break], and conversely. *)
Lemma scan_params_accepted argv arg i pos res s :
  accepted argv arg i pos res s ->
  scan_defs argv arg params_definition
            {| idx := i; val := VNull; cur := pos; out := res |} = Break s
  /\ truthy (val s) = true.
Proof.
  intros H. rewrite scan_params. destruct H as [next H1 H2 H3 H4 H5|H1 H2|H1 H2|H1 H2 H3].
  - rewrite H1, H2, H3. cbv zeta. rewrite H4, H5. auto.
  - apply includes_verbose_not_flag in H2 as H2'. destruct H2' as [E1 E2].
    rewrite H1, E1, H2. auto.
  - apply includes_watch_not_flag in H2 as H2'. destruct H2' as [E1 E2].
    rewrite H1, E1, E2, H2. auto.
  - subst pos. rewrite H1. cbn [Nat.eqb truthy val].
    destruct (String.eqb_spec arg "") as [->|_]; [congruence|]. auto.
Qed.

Lemma scan_params_continue argv arg i pos res s :
  (scan_defs argv arg params_definition
             {| idx := i; val := VNull; cur := pos; out := res |} = Break s
   \/ scan_defs argv arg params_definition
             {| idx := i; val := VNull; cur := pos; out := res |} = Fallthrough s) ->
  truthy (val s) = true ->
  accepted argv arg i pos res s.
Proof.
  rewrite scan_params. intros H Ht.
  destruct (startsWith "-" arg) eqn:E0.
  - destruct (includes ["port"; "p"] (slice 1 arg)) eqn:E1.
    + cbv zeta in H. destruct (argv !! S i) as [next|] eqn:En.
      2:{ cbn in H. destruct H as [H|H]; inversion H; subst; discriminate. }
      destruct (truthy (Number (Some next))) eqn:E2.
      * destruct (isInteger (Number (Some next))) eqn:E3;
          destruct H as [H|H]; inversion H; subst.
        now apply accepted_port.
      * destruct H as [H|H]; inversion H; subst. cbn [val] in Ht. congruence.
    + destruct (includes ["verbose"; "v"] (slice 1 arg)) eqn:E2.
      { destruct H as [H|H]; inversion H; subst. now apply accepted_verbose. }
      destruct (includes ["watch"; "w"] (slice 1 arg)) eqn:E3.
      { destruct H as [H|H]; inversion H; subst. now apply accepted_watch. }
      destruct H as [H|H]; inversion H; subst. discriminate.
  - destruct pos as [|pos]; cbn [Nat.eqb] in H.
    + destruct (truthy (VStr arg)) eqn:E1;
        destruct H as [H|H]; inversion H; subst; [|cbn [val] in Ht; congruence].
      apply accepted_positional; auto.
      intros ->. discriminate.
    + destruct H as [H|H]; inversion H; subst. discriminate.
Qed.

(** The parser returns from index [i] exactly when the token there is no
    help request, its pass stores a value, and the parser returns from
    the index after it. *)
Lemma parse_from_returned fuel argv i pos res tok r :
  argv !! i = Some tok ->
  parse_from (S fuel) params_definition argv i pos res = Some (Returned r) <->
  Regex.test help_pattern false (toLowerCase tok) = false /\
  exists s, accepted argv (toLowerCase tok) i pos res s /\
    parse_from fuel params_definition argv (S (idx s)) (cur s) (out s)
    = Some (Returned r).
Proof.
  intros Htok. cbn [parse_from]. rewrite Htok. split.
  - intros H. destruct (Regex.test _ _ _); [discriminate|]. split; [reflexivity|].
    destruct (scan_defs _ _ _ _) as [s|s|e] eqn:Es; [| |discriminate].
    all: destruct (truthy (val s)) eqn:Ht; [|discriminate].
    all: exists s; split; [apply scan_params_continue; auto | exact H].
  - intros [-> (s & Hs & H)].
    apply scan_params_accepted in Hs as [-> ->]. exact H.
Qed.

Lemma parse_from_end fuel argv i pos res :
  argv !! i = None ->
  parse_from fuel params_definition argv i pos res = Some (Returned res).
Proof. intros H. destruct fuel; cbn [parse_from]; rewrite H; reflexivity. Qed.

Lemma accepted_app pre rest arg i pos res s :
  accepted pre arg i pos res s -> accepted (pre ++ rest) arg i pos res s.
Proof.
  intros [next H1 H2 H3 H4 H5|H1 H2|H1 H2|H1 H2 H3].
  - apply accepted_port; auto. now apply lookup_app_l_Some.
  - now apply accepted_verbose.
  - now apply accepted_watch.
  - now apply accepted_positional.
Qed.

Lemma accepted_idx argv arg i pos res s :
  accepted argv arg i pos res s -> (idx s < length argv)%nat -> (i <= idx s)%nat.
Proof. intros []; cbn; lia. Qed.

Lemma accepted_idx_lt argv arg i pos res s tok :
  argv !! i = Some tok ->
  accepted argv arg i pos res s -> (idx s < length argv)%nat.
Proof.
  intros Hi H. apply lookup_lt_Some in Hi.
  destruct H as [next H1 H2 H3 H4 H5|H1 H2|H1 H2|H1 H2 H3]; cbn; auto.
  now apply lookup_lt_Some in H3.
Qed.

(** Arguments that parse on their own are parsed the same way at the
    front of a longer list: the scan arrives at the first argument after
    them with the configuration they produce. *)
Lemma parse_from_prefix pre rest : forall fuel i pos res r,
  parse_from fuel params_definition pre i pos res = Some (Returned r) ->
  (i <= length pre)%nat ->
  exists pos', forall F, (length (pre ++ rest) - i <= F)%nat ->
    parse_from F params_definition (pre ++ rest) i pos res
    = parse_from (length rest) params_definition (pre ++ rest) (length pre) pos' r.
Proof.
  induction fuel as [|fuel IH]; intros i pos res r H Hi.
  - cbn [parse_from] in H. destruct (pre !! i) eqn:E; [discriminate|].
    inversion H; subst. apply lookup_ge_None in E.
    assert (i = length pre) by lia. subst i.
    exists pos. intros F HF. apply parse_from_fuel; [exact HF|].
    rewrite length_app. lia.
  - destruct (pre !! i) as [tok|] eqn:E.
    + apply (parse_from_returned _ _ _ _ _ _ _ E) in H as (Hh & s & Hs & H).
      pose proof (accepted_idx_lt _ _ _ _ _ _ _ E Hs) as Hlt.
      apply IH in H as [pos' H]; [|lia].
      exists pos'. intros F HF.
      assert (Hi' : (i < length pre)%nat) by (now apply lookup_lt_Some in E).
      rewrite length_app in HF.
      destruct F as [|F]; [lia|].
      rewrite <- H with (F := F).
      2:{ rewrite length_app.
          pose proof (accepted_idx _ _ _ _ _ _ Hs Hlt). lia. }
      destruct (parse_from F params_definition (pre ++ rest) (S (idx s)) (cur s) (out s))
        as [[r'|e]|] eqn:Er.
      * apply parse_from_returned with (tok := tok); [now apply lookup_app_l_Some|].
        split; [exact Hh|]. exists s. split; [now apply accepted_app | exact Er].
      * cbn [parse_from]. rewrite (lookup_app_l_Some _ _ _ _ E), Hh.
        apply (accepted_app _ rest) in Hs.
        apply scan_params_accepted in Hs as [-> ->]. exact Er.
      * cbn [parse_from]. rewrite (lookup_app_l_Some _ _ _ _ E), Hh.
        apply (accepted_app _ rest) in Hs.
        apply scan_params_accepted in Hs as [-> ->]. exact Er.
    + rewrite parse_from_end in H by exact E. inversion H; subst.
      apply lookup_ge_None in E. assert (i = length pre) by lia. subst i.
      exists pos. intros F HF. apply parse_from_fuel; [exact HF|].
      rewrite length_app. lia.
Qed.

Lemma parseArgs_prefix pre rest r :
  parseArgs pre = Some (Returned r) ->
  exists pos,
    parseArgs (pre ++ rest)
    = parse_from (length rest) params_definition (pre ++ rest) (length pre) pos r.
Proof.
  intros H. apply (parse_from_prefix pre rest) in H as [pos H]; [|lia].
  exists pos. apply H. lia.
Qed.


(** The directory to serve is never the empty string. *)
Lemma parse_from_dirpath_not_empty argv : forall fuel i pos res r,
  parse_from fuel params_definition argv i pos res = Some (Returned r) ->
  (exists d, res !! "dirpath" = Some (VStr d) /\ d <> "") ->
  exists d, r !! "dirpath" = Some (VStr d) /\ d <> "".
Proof.
  induction fuel as [|fuel IH]; intros i pos res r H Hd.
  - cbn [parse_from] in H. destruct (argv !! i); [discriminate|].
    inversion H; subst. exact Hd.
  - destruct (argv !! i) as [tok|] eqn:E.
    + apply (parse_from_returned _ _ _ _ _ _ _ E) in H as (Hh & s & Hs & H).
      apply IH in H; [exact H|].
      destruct Hs as [next H1 H2 H3 H4 H5|H1 H2|H1 H2|H1 H2 H3]; cbn [out].
      1-3: now rewrite lookup_insert_ne by discriminate.
      rewrite lookup_insert_eq. eauto.
    + rewrite parse_from_end in H by exact E. inversion H; subst. exact Hd.
Qed.

Lemma parseArgs_dirpath_not_empty argv r :
  parseArgs argv = Some (Returned r) ->
  exists d, r !! "dirpath" = Some (VStr d) /\ d <> "".
Proof.
  intros H. apply parse_from_dirpath_not_empty in H; [exact H|].
  exists ".". split; [reflexivity|discriminate].
Qed.
End ParseArgsPasses.

Section ParseArgsClaims.
Import JS Cli.


(** C5, as the code has it.  Parsing [-p 3000 www -watch] yields the
    configuration with [port] 3000, [dirpath] ["www"], [watch] [true] and
    [verbose] left at its default, which is [undefined]. *)
Theorem parseArgs_example :
  parseArgs ["-p"; "3000"; "www"; "-watch"]
  = Some (Returned (list_to_map
      [ ("port", int 3000); ("dirpath", VStr "www");
        ("watch", VBool true); ("verbose", VUndefined) ])).
Proof. vm_compute. reflexivity. Qed.

(** The configuration of that parse does not hold [verbose: false]. *)
Lemma example_verbose_not_false :
  parseArgs ["-p"; "3000"; "www"; "-watch"]
  <> Some (Returned (list_to_map
      [ ("port", int 3000); ("dirpath", VStr "www");
        ("watch", VBool true); ("verbose", VBool false) ])).
Proof.
  intros H.
  apply (f_equal (fun o => match o with
                           | Some (Returned m) => m !! "verbose"
                           | _ => None
                           end)) in H.
  vm_compute in H. discriminate.
Qed.

(** C6 on the code.  [-p notanumber] ends the process with code 1, but
    through the unknown-argument exit: [Number("notanumber")] is [NaN],
    which is falsy, so the validator of [port] is not consulted and the
    message names the value, not the parameter. *)
Theorem parseArgs_port_notanumber :
  parseArgs ["-p"; "notanumber"]
  = Some (Exited (printHelp (Some "Unknown argument: 'notanumber'")))
  /\ code (printHelp (Some "Unknown argument: 'notanumber'")) = 1%Z
  /\ contains "port" "Unknown argument: 'notanumber'" = false.
Proof. repeat split; vm_compute; reflexivity. Qed.

(** The validator does reject a number that is not an integer, with
    the message that names [port]. *)
Lemma parseArgs_port_fraction :
  parseArgs ["-p"; "1.5"]
  = Some (Exited (printHelp (Some "Invalid value for argument 'port': '1.5'"))).
Proof. vm_compute. reflexivity. Qed.

(** [-p 0] goes the way of [-p notanumber]: 0 is falsy. *)
Lemma parseArgs_port_zero :
  parseArgs ["-p"; "0"]
  = Some (Exited (printHelp (Some "Unknown argument: '0'"))).
Proof. vm_compute. reflexivity. Qed.








End ParseArgsClaims.

(** ** Path resolution *)

Section Paths.
Import JS NodePath.

Lemma split_not_nil s : split s <> [].
Proof.
  destruct s as [|c s]; cbn [split]; [discriminate|].
  destruct (Ascii.eqb c "/"); [discriminate|].
  destruct (split s); discriminate.
Qed.

Lemma split_no_sep s : no_sep s = true -> split s = [s].
Proof.
  induction s as [|c s IH]; [reflexivity|]. cbn [no_sep split].
  intros [Hc Hs]%andb_true_iff. apply negb_true_iff in Hc. rewrite Hc.
  rewrite (IH Hs). reflexivity.
Qed.

Lemma split_all_no_sep s : forallb no_sep (split s) = true.
Proof.
  induction s as [|c s IH]; [reflexivity|]. cbn [split].
  destruct (Ascii.eqb c "/") eqn:E; [exact IH|].
  destruct (split s) as [|h t]; cbn [forallb no_sep] in *; rewrite E; [reflexivity|].
  exact IH.
Qed.

(** Cutting at the separators goes through concatenation with one. *)
Lemma split_app_sep a b :
  split (a ++ String "/" b) = (split a ++ split b)%list.
Proof.
  induction a as [|c a IH]; [reflexivity|].
  change (String c a ++ String "/" b) with (String c (a ++ String "/" b)).
  cbn [split]. rewrite IH.
  destruct (Ascii.eqb c "/"); [reflexivity|].
  pose proof (split_not_nil a). destruct (split a); [congruence|reflexivity].
Qed.

Lemma split_concat l :
  l <> [] -> forallb no_sep l = true -> split (String.concat "/" l) = l.
Proof.
  induction l as [|x l IH]; [congruence|]. intros _ H.
  cbn [forallb] in H. apply andb_true_iff in H as [Hx Hl].
  destruct l as [|y l]; [now apply split_no_sep|].
  change (String.concat "/" (x :: y :: l))
    with (x ++ String "/" (String.concat "/" (y :: l))).
  rewrite split_app_sep, (split_no_sep x Hx), IH by (congruence || assumption).
  reflexivity.
Qed.

Lemma segments_app_sep a b :
  segments (a ++ String "/" b) = (segments a ++ segments b)%list.
Proof. unfold segments. rewrite split_app_sep. apply List.filter_app. Qed.

(** [step] ignores the segments that are not [named]. *)
Lemma fold_step_named allow l : forall stack,
  fold_left (step allow) l stack
  = fold_left (step allow) (List.filter named l) stack.
Proof.
  induction l as [|x l IH]; intros stack; [reflexivity|].
  cbn [fold_left List.filter]. unfold named at 1.
  destruct (String.eqb x "" || String.eqb x ".") eqn:E; cbn [negb].
  - unfold step at 2. rewrite E. apply IH.
  - cbn [fold_left]. apply IH.
Qed.

Lemma normalizeString_segments path allow :
  normalizeString path allow = rev (fold_left (step allow) (segments path) []).
Proof. unfold normalizeString, segments. now rewrite fold_step_named. Qed.

Lemma plain_named x : plain x = true -> named x = true.
Proof. unfold plain. now intros [[_ H]%andb_true_iff _]%andb_true_iff. Qed.

Lemma plain_no_sep x : plain x = true -> no_sep x = true.
Proof. unfold plain. now intros [[H _]%andb_true_iff _]%andb_true_iff. Qed.

Lemma plain_not_up x : plain x = true -> String.eqb x ".." = false.
Proof. unfold plain. intros [_ H]%andb_true_iff. now apply negb_true_iff in H. Qed.

Lemma step_plain allow stack x :
  plain x = true -> step allow stack x = x :: stack.
Proof.
  intros H. unfold step.
  pose proof (plain_named _ H) as Hn. unfold named in Hn.
  apply negb_true_iff in Hn. rewrite Hn, (plain_not_up _ H). reflexivity.
Qed.

(** Names are pushed. *)
Lemma fold_step_plain allow l : forall stack,
  forallb plain l = true ->
  fold_left (step allow) l stack = (rev l ++ stack)%list.
Proof.
  induction l as [|x l IH]; intros stack H; [reflexivity|].
  cbn [forallb] in H. apply andb_true_iff in H as [Hx Hl].
  cbn [fold_left rev]. rewrite (step_plain _ _ _ Hx), (IH _ Hl), <- app_assoc.
  reflexivity.
Qed.

Lemma stack_ok_nil allow : stack_ok allow [].
Proof. exists [], 0%nat. auto. Qed.

Lemma stack_ok_push allow stack x :
  plain x = true -> stack_ok allow stack -> stack_ok allow (x :: stack).
Proof.
  intros Hx (names & n & -> & Hn & Ha).
  exists (x :: names), n. cbn [forallb]. rewrite Hx, Hn. auto.
Qed.

Lemma stack_ok_step allow stack seg :
  no_sep seg = true -> stack_ok allow stack -> stack_ok allow (step allow stack seg).
Proof.
  intros Hseg Hok. unfold step.
  destruct (String.eqb seg "" || String.eqb seg ".") eqn:E1; [exact Hok|].
  destruct (String.eqb_spec seg "..") as [->|E2].
  - destruct Hok as (names & n & -> & Hn & Ha).
    destruct names as [|top names]; cbn [app].
    + destruct n as [|n]; cbn [repeat].
      * destruct allow; [|apply stack_ok_nil].
        exists [], 1%nat. (split; [reflexivity|split; [reflexivity|discriminate]]).
      * rewrite String.eqb_refl. destruct allow.
        -- exists [], (S (S n)). (split; [reflexivity|split; [reflexivity|discriminate]]).
        -- exists [], (S n). (split; [reflexivity|split; [reflexivity|exact Ha]]).
    + cbn [forallb] in Hn. apply andb_true_iff in Hn as [Ht Hn].
      rewrite (plain_not_up _ Ht). exists names, n. auto.
  - apply stack_ok_push; [|exact Hok].
    unfold plain, named. rewrite Hseg, E1.
    apply String.eqb_neq in E2. rewrite E2. reflexivity.
Qed.

Lemma stack_ok_fold allow l : forall stack,
  forallb no_sep l = true -> stack_ok allow stack ->
  stack_ok allow (fold_left (step allow) l stack).
Proof.
  induction l as [|x l IH]; intros stack H Hok; [exact Hok|].
  cbn [forallb] in H. apply andb_true_iff in H as [Hx Hl].
  cbn [fold_left]. apply IH; [exact Hl|]. now apply stack_ok_step.
Qed.

Lemma stack_ok_normalize path allow :
  stack_ok allow (fold_left (step allow) (split path) []).
Proof. apply stack_ok_fold; [apply split_all_no_sep | apply stack_ok_nil]. Qed.

Lemma stack_ok_named allow stack :
  stack_ok allow stack -> forallb (fun s => no_sep s && named s) stack = true.
Proof.
  intros (names & n & -> & Hn & _). rewrite forallb_app. apply andb_true_iff. split.
  - apply forallb_forall. intros x Hx.
    rewrite forallb_forall in Hn. specialize (Hn x Hx).
    now rewrite (plain_no_sep _ Hn), (plain_named _ Hn).
  - apply forallb_forall. intros x Hx. apply repeat_spec in Hx. now subst x.
Qed.

Lemma stack_ok_plain stack : stack_ok false stack -> forallb plain stack = true.
Proof.
  intros (names & n & -> & Hn & Ha). rewrite (Ha eq_refl). cbn [repeat].
  now rewrite app_nil_r.
Qed.

Lemma filter_all {A} (f : A -> bool) l :
  forallb f l = true -> List.filter f l = l.
Proof.
  induction l as [|x l IH]; [reflexivity|]. cbn [forallb List.filter].
  intros [Hx Hl]%andb_true_iff. rewrite Hx, (IH Hl). reflexivity.
Qed.

Lemma forallb_impl {A} (f g : A -> bool) l :
  (forall x, f x = true -> g x = true) ->
  forallb f l = true -> forallb g l = true.
Proof.
  intros Hfg H. apply forallb_forall. intros x Hx.
  apply Hfg. rewrite forallb_forall in H. auto.
Qed.

Lemma split_sep_l s : split (String "/" s) = "" :: split s.
Proof. reflexivity. Qed.

Lemma split_sep_r s : split (s ++ "/") = (split s ++ [""])%list.
Proof. apply (split_app_sep s ""). Qed.

Lemma append_nil_r s : s ++ "" = s.
Proof.
  induction s as [|c s IH]; [reflexivity|].
  change (String c (s ++ "") = String c s). now rewrite IH.
Qed.

(** The segments of a rendered path are the segments rendered. *)
Lemma segments_render abs tr segs :
  forallb (fun s => no_sep s && named s) segs = true ->
  segments (render abs tr segs) = segs.
Proof.
  intros H. destruct segs as [|x segs]; [destruct abs, tr; reflexivity|].
  assert (Hsep : forallb no_sep (x :: segs) = true).
  { revert H. apply forallb_impl. now intros y [? _]%andb_true_iff. }
  assert (Hnamed : forallb named (x :: segs) = true).
  { revert H. apply forallb_impl. now intros y [_ ?]%andb_true_iff. }
  unfold render, segments.
  assert (E : List.filter named
                (split (String.concat "/" (x :: segs) ++ (if tr then "/" else "")))
              = x :: segs).
  { destruct tr.
    - cbv iota. rewrite split_sep_r, List.filter_app, split_concat
        by (congruence || assumption).
      rewrite (filter_all _ _ Hnamed). cbn [List.filter named]. apply app_nil_r.
    - cbv iota. rewrite append_nil_r, split_concat by (congruence || assumption).
      apply (filter_all _ _ Hnamed). }
  destruct abs; [|exact E].
  change ("/" ++ ?s) with (String "/" s). rewrite split_sep_l.
  cbn [List.filter]. exact E.
Qed.

Lemma isAbsolute_render abs tr segs :
  forallb (fun s => no_sep s && named s) segs = true ->
  isAbsolute (render abs tr segs) = abs.
Proof.
  intros H. destruct segs as [|x segs]; [destruct abs, tr; reflexivity|].
  destruct abs; [reflexivity|].
  cbn [forallb] in H. apply andb_true_iff in H as [[Hs Hn]%andb_true_iff _].
  destruct x as [|c x]; [discriminate|].
  cbn [no_sep] in Hs. apply andb_true_iff in Hs as [Hc _].
  apply negb_true_iff in Hc.
  assert (E : exists r, render false tr (String c x :: segs) = String c r)
    by (destruct segs; eexists; reflexivity).
  destruct E as [r ->]. unfold isAbsolute.
  change (startsWith "/" (String c r)) with (Ascii.eqb "/" c && startsWith "" r).
  rewrite (Ascii.eqb_sym "/"%char c), Hc. reflexivity.
Qed.

Lemma render_not_empty abs tr segs :
  forallb (fun s => no_sep s && named s) segs = true ->
  render abs tr segs <> "".
Proof.
  intros H. destruct segs as [|x segs]; [destruct abs, tr; discriminate|].
  unfold render. destruct abs; [discriminate|].
  cbn [forallb] in H. apply andb_true_iff in H as [[_ Hn]%andb_true_iff _].
  destruct x as [|c x]; [discriminate|].
  destruct segs; discriminate.
Qed.

Lemma normalize_render path :
  path <> "" ->
  normalize path
  = render (isAbsolute path) (endsWithSep path)
           (normalizeString path (negb (isAbsolute path))).
Proof.
  intros H. unfold normalize.
  destruct (String.eqb_spec path ""); [congruence|reflexivity].
Qed.

Lemma normalizeString_ok path allow :
  stack_ok allow (rev (normalizeString path allow)).
Proof.
  unfold normalizeString. rewrite rev_involutive. apply stack_ok_normalize.
Qed.

Lemma normalizeString_named path allow :
  forallb (fun s => no_sep s && named s) (normalizeString path allow) = true.
Proof.
  pose proof (stack_ok_named _ _ (normalizeString_ok path allow)) as H.
  apply forallb_forall. intros x Hx. rewrite forallb_forall in H.
  apply H. apply (proj1 (in_rev _ _)). exact Hx.
Qed.

Lemma forallb_rev {A} (f : A -> bool) l :
  forallb f l = true -> forallb f (rev l) = true.
Proof.
  intros H. apply forallb_forall. intros x Hx.
  apply (proj2 (in_rev _ _)) in Hx.
  rewrite forallb_forall in H. auto.
Qed.

Lemma fold_step_up n : forall m,
  fold_left (step true) (repeat ".." n) (repeat ".." m) = repeat ".." (n + m).
Proof.
  induction n as [|n IH]; intros m; [reflexivity|].
  cbn [repeat fold_left].
  replace (step true (repeat ".." m) "..") with (repeat ".." (S m))
    by (destruct m; reflexivity).
  rewrite IH. f_equal. lia.
Qed.

Lemma rev_repeat {A} (x : A) n : rev (repeat x n) = repeat x n.
Proof.
  induction n as [|n IH]; [reflexivity|]. cbn [repeat rev]. rewrite IH.
  clear IH. induction n as [|n IH]; [reflexivity|]. cbn [repeat app].
  now rewrite IH.
Qed.

(** A stack of [normalizeString] is rebuilt from its own segments. *)
Lemma fold_step_canonical allow stack :
  stack_ok allow stack -> fold_left (step allow) (rev stack) [] = stack.
Proof.
  intros (names & n & -> & Hn & Ha).
  rewrite rev_app_distr, rev_repeat, fold_left_app.
  assert (E : fold_left (step allow) (repeat ".." n) [] = repeat ".." n).
  { destruct allow.
    - change [] with (repeat ".." 0) at 1.
      rewrite (fold_step_up n 0). f_equal. lia.
    - rewrite (Ha eq_refl). reflexivity. }
  rewrite E, fold_step_plain by (now apply forallb_rev).
  now rewrite rev_involutive.
Qed.

Lemma normalizeString_render abs tr segs allow :
  stack_ok allow (rev segs) ->
  normalizeString (render abs tr segs) allow = segs.
Proof.
  intros H. rewrite normalizeString_segments, segments_render.
  - rewrite <- (rev_involutive segs) at 1.
    rewrite (fold_step_canonical _ _ H). apply rev_involutive.
  - apply stack_ok_named in H. rewrite <- (rev_involutive segs).
    now apply forallb_rev.
Qed.

(** Going down from [x] through names adds them to the segments of [x]. *)
Lemma normalizeString_descend x b allow :
  forallb plain (segments b) = true ->
  normalizeString (x ++ String "/" b) allow
  = (normalizeString x allow ++ segments b)%list.
Proof.
  intros H. rewrite !normalizeString_segments, segments_app_sep, fold_left_app.
  rewrite (fold_step_plain _ _ _ H), rev_app_distr, rev_involutive.
  reflexivity.
Qed.

Lemma isAbsolute_app x y : x <> "" -> isAbsolute (x ++ y) = isAbsolute x.
Proof.
  destruct x as [|c x]; [congruence|]. intros _. unfold isAbsolute.
  change (String c x ++ y) with (String c (x ++ y)).
  change (startsWith "/" (String c (x ++ y)))
    with (Ascii.eqb "/" c && startsWith "" (x ++ y)).
  change (startsWith "/" (String c x))
    with (Ascii.eqb "/" c && startsWith "" x).
  now destruct (x ++ y), x.
Qed.

Lemma join_descend x b :
  x <> "" -> b <> "" -> forallb plain (segments b) = true ->
  exists tr,
    join [x; b]
    = render (isAbsolute x) tr
             (normalizeString x (negb (isAbsolute x)) ++ segments b).
Proof.
  intros Hx Hb H. unfold join. cbn [List.filter].
  destruct (String.eqb_spec x ""); [congruence|].
  destruct (String.eqb_spec b ""); [congruence|]. cbn [negb].
  change (String.concat "/" [x; b]) with (x ++ String "/" b).
  rewrite normalize_render by (destruct x; [congruence|discriminate]).
  rewrite (isAbsolute_app x _ Hx), (normalizeString_descend _ _ _ H).
  eauto.
Qed.

Lemma strip_prefix_app l t : strip_prefix l (l ++ t) = Some t.
Proof.
  induction l as [|x l IH]; [reflexivity|]. cbn [app strip_prefix].
  now rewrite String.eqb_refl.
Qed.

Lemma plain_below B :
  forallb plain B = true ->
  forallb (fun s => negb (String.eqb s "..")) B = true.
Proof.
  apply forallb_impl. intros x H. now rewrite (plain_not_up _ H).
Qed.

Lemma plain_all_named B :
  forallb plain B = true -> forallb (fun s => no_sep s && named s) B = true.
Proof.
  apply forallb_impl. intros x H.
  now rewrite (plain_no_sep _ H), (plain_named _ H).
Qed.

(** What is rendered from the segments of [root] followed by names is
    within [root]. *)
Lemma within_render root tr B :
  root <> "" ->
  forallb plain B = true ->
  within root (render (isAbsolute root) tr
                 (normalizeString root (negb (isAbsolute root)) ++ B)) = true.
Proof.
  intros Hroot HB. unfold within.
  assert (Hall : forallb (fun s => no_sep s && named s)
                   (normalizeString root (negb (isAbsolute root)) ++ B) = true).
  { rewrite forallb_app, normalizeString_named. now apply plain_all_named. }
  rewrite (isAbsolute_render _ _ _ Hall), Bool.eqb_reflx. cbn [andb].
  rewrite (segments_render _ _ _ Hall), (normalize_render _ Hroot).
  rewrite (segments_render _ _ _ (normalizeString_named _ _)).
  rewrite strip_prefix_app. now apply plain_below.
Qed.
End Paths.

(** ** Static files and the API namespace *)

Section Routes.
Import JS NodePath Server.

Lemma strip_updirs_absolute s : isAbsolute s = true -> strip_updirs s = s.
Proof.
  destruct s as [|c s]; [reflexivity|]. unfold isAbsolute.
  change (startsWith "/" (String c s)) with (Ascii.eqb "/" c && startsWith "" s).
  intros [Hc _]%andb_true_iff. apply Ascii.eqb_eq in Hc. subst c. reflexivity.
Qed.

Lemma isAbsolute_not_empty s : isAbsolute s = true -> s <> "".
Proof. intros H ->. discriminate. Qed.

(** On an absolute path [sanitisePath] is [path.normalize]: the result
    is absolute and made of names only. *)
Lemma sanitisePath_absolute pathname :
  isAbsolute pathname = true ->
  exists tr names,
    sanitisePath pathname = render true tr names /\
    forallb plain names = true.
Proof.
  intros H. unfold sanitisePath.
  rewrite (normalize_render _ (isAbsolute_not_empty _ H)), H. cbn [negb].
  pose proof (normalizeString_ok pathname false) as Hok.
  apply stack_ok_plain in Hok.
  assert (Hp : forallb plain (normalizeString pathname false) = true).
  { rewrite <- (rev_involutive (normalizeString pathname false)).
    now apply forallb_rev. }
  exists (endsWithSep pathname), (normalizeString pathname false).
  split; [|exact Hp].
  apply strip_updirs_absolute, isAbsolute_render. now apply plain_all_named.
Qed.

Lemma stack_ok_descend allow segs names :
  stack_ok allow (rev segs) -> forallb plain names = true ->
  stack_ok allow (rev (segs ++ names)).
Proof.
  intros (ns & n & E & Hn & Ha) H. rewrite rev_app_distr, E.
  exists (rev names ++ ns)%list, n. rewrite app_assoc, forallb_app.
  rewrite (forallb_rev _ _ H), Hn. auto.
Qed.

Lemma truthy_VStr s : s <> "" -> truthy (VStr s) = true.
Proof. intros H. cbn [truthy]. now destruct (String.eqb_spec s ""). Qed.

(** The paths [handleStatic] touches for a request routed to it. *)
Lemma handleStatic_paths stat root w pathname :
  root <> "" -> isAbsolute pathname = true ->
  exists tr names,
    forallb plain names = true /\
    let filepath :=
      render (isAbsolute root) tr
             (normalizeString root (negb (isAbsolute root)) ++ names) in
    getFilepath pathname None <> None /\
    forall p,
      In p (fst (handleStatic stat
                   {| pathname := pathname; prefix := None;
                      directory := Some root; runtimeRouting := false;
                      transforms := w |})) ->
      p = filepath \/
      exists tr', p = render (isAbsolute root) tr'
                       (normalizeString root (negb (isAbsolute root))
                        ++ (names ++ ["index.html"])).
Proof.
  intros Hroot Habs.
  destruct (sanitisePath_absolute _ Habs) as (trq & names & Eq & Hnames).
  assert (Hq : render true trq names <> "")
    by (apply render_not_empty; now apply plain_all_named).
  assert (Hseg : segments (render true trq names) = names)
    by (apply segments_render; now apply plain_all_named).
  destruct (join_descend root (render true trq names) Hroot Hq) as [tr Ej];
    [now rewrite Hseg|].
  rewrite Hseg in Ej.
  exists tr, names. split; [exact Hnames|]. cbv zeta.
  split; [discriminate|].
  unfold handleStatic.
  cbn [Server.pathname Server.prefix Server.directory Server.runtimeRouting
       Server.transforms getFilepath default].
  rewrite Eq, (truthy_VStr _ Hq). cbn [negb]. cbv zeta.
  change (id root) with root. rewrite Ej.
  set (filepath := render _ tr _).
  assert (Hall : forallb (fun s => no_sep s && named s)
                   (normalizeString root (negb (isAbsolute root)) ++ names) = true).
  { rewrite forallb_app, normalizeString_named. now apply plain_all_named. }
  assert (Hindex : exists tr',
             join [filepath; "index.html"]
             = render (isAbsolute root) tr'
                 (normalizeString root (negb (isAbsolute root))
                  ++ (names ++ ["index.html"]))).
  { destruct (join_descend filepath "index.html") as [tr' E];
      [now apply render_not_empty | discriminate | reflexivity |].
    exists tr'. rewrite E. unfold filepath.
    rewrite (isAbsolute_render _ _ _ Hall), normalizeString_render.
    - now rewrite <- app_assoc.
    - apply stack_ok_descend; [apply normalizeString_ok | exact Hnames]. }
  intros p Hp.
  destruct (stat filepath) as [[|]|]; cbn [fst In] in Hp.
  - destruct Hp as [<-|[<-|[]]]; [now left | now right].
  - destruct Hp as [<-|[<-|[]]]; now left.
  - destruct Hp as [<-|[]]; now left.
Qed.

(** C1.  Every path that a routed request hands to [fs.stat] or
    [fs.readFile] lies within the serving root, whatever the request
    path holds.  The root is not the empty string: [parseArgs] never
    returns one ([parseArgs_dirpath_not_empty]). *)
Theorem route_within_root stat root w pathname p :
  root <> "" ->
  In p (fst (route stat {| dirpath := root; watch := w |} (Some pathname))) ->
  within root p = true.
Proof.
  intros Hroot. unfold route. cbn [dirpath watch].
  destruct (String.eqb pathname "/reload"); [intros []|].
  destruct (startsWith "/api" pathname); [intros []|].
  destruct (startsWith "/" pathname) eqn:Habs; [|intros []].
  destruct (handleStatic_paths stat root w pathname Hroot Habs)
    as (tr & names & Hnames & _ & Hpaths).
  intros Hp. apply Hpaths in Hp as [->|[tr' ->]].
  - now apply within_render.
  - apply within_render; [exact Hroot|].
    rewrite forallb_app, Hnames. reflexivity.
Qed.

Lemma route_within_root_witness :
  fst (route (fun _ => None) {| dirpath := "/srv/site"; watch := false |}
             (Some "/../../etc/passwd"))
  = ["/srv/site/etc/passwd"]
  /\ within "/srv/site" "/srv/site/etc/passwd" = true.
Proof.
  split; [reflexivity|].
  apply (route_within_root (fun _ => None) "/srv/site" false "/../../etc/passwd").
  - discriminate.
  - left. reflexivity.
Defined.

(** Left alone, [sanitisePath] lets a lone [..] through; no request
    reaches it that way, since [route] hands it absolute paths only. *)
Lemma sanitisePath_updir :
  sanitisePath ".." = ".." /\ within "/srv/site" (join ["/srv/site"; ".."]) = false.
Proof. split; reflexivity. Qed.
End Routes.

Section ApiNamespace.
Import JS Server.

Lemma startsWith_slice p : forall s,
  startsWith p s = true -> s = p ++ slice (String.length p) s.
Proof.
  induction p as [|a p IH]; intros s H; [reflexivity|].
  destruct s as [|b s]; [discriminate|].
  change (startsWith (String a p) (String b s))
    with (Ascii.eqb a b && startsWith p s) in H.
  apply andb_true_iff in H as [Hab Hs]. apply Ascii.eqb_eq in Hab. subst b.
  cbn [String.length slice]. change (String a p ++ ?x) with (String a (p ++ x)).
  f_equal. now apply IH.
Qed.

Lemma startsWith_app p s : startsWith p (p ++ s) = true.
Proof.
  induction p as [|a p IH]; [now destruct s|].
  change (String a p ++ s) with (String a (p ++ s)).
  change (startsWith (String a p) (String a (p ++ s)))
    with (Ascii.eqb a a && startsWith p (p ++ s)).
  now rewrite Ascii.eqb_refl, IH.
Qed.

Lemma slice_app p s : slice (String.length p) (p ++ s) = s.
Proof. induction p as [|a p IH]; [reflexivity|]. exact IH. Qed.

(** The digits taken and the rest make up the input. *)
Lemma span_digits_spec s : forall d r,
  span_digits s = (d, r) -> s = d ++ r /\ all_digits d = true.
Proof.
  induction s as [|c s IH]; intros d r H; cbn [span_digits] in H.
  - inversion H; subst. auto.
  - destruct (is_digit c) eqn:Ec.
    + destruct (span_digits s) as [d' r'] eqn:E. inversion H; subst.
      destruct (IH d' r eq_refl) as [-> Hd]. cbn [all_digits].
      rewrite Ec, Hd. auto.
    + inversion H; subst. auto.
Qed.

(** A run of digits followed by a separator is taken whole. *)
Lemma span_digits_app d r :
  all_digits d = true -> span_digits (d ++ String "/" r) = (d, String "/" r).
Proof.
  induction d as [|c d IH]; intros H; [reflexivity|].
  cbn [all_digits] in H. apply andb_true_iff in H as [Hc Hd].
  change (String c d ++ ?x) with (String c (d ++ x)).
  cbn [span_digits]. rewrite Hc, (IH Hd). reflexivity.
Qed.

(** Which paths of the API namespace [handleAPI] leaves unanswered. *)
Lemma handleAPI_nothing pathname :
  handleAPI pathname = Nothing <->
  exists version rest,
    pathname = "/api/" ++ version ++ "/" ++ rest /\
    version <> "" /\ all_digits version = true /\
    no_line_terminator rest = true.
Proof.
  unfold handleAPI, APIPathRegex_exec. split.
  - destruct (startsWith "/api/" pathname) eqn:E; [|discriminate].
    apply startsWith_slice in E. cbn [String.length] in E.
    destruct (span_digits (slice 5 pathname)) as [version r] eqn:Es.
    apply span_digits_spec in Es as [Es Hd].
    destruct (String.eqb_spec version "") as [|Hv]; [discriminate|].
    cbn [negb andb].
    destruct (no_line_terminator r) eqn:Hr; [|discriminate].
    destruct r as [|c rest]; [discriminate|].
    change (startsWith "/" (String c rest))
      with (Ascii.eqb "/" c && startsWith "" rest).
    destruct (Ascii.eqb_spec "/" c) as [<-|]; [|discriminate].
    intros _. exists version, rest.
    rewrite E at 1. rewrite Es. repeat split; auto.
  - intros (version & rest & -> & Hv & Hd & Hr).
    rewrite (startsWith_app "/api/").
    change 5%nat with (String.length "/api/"). rewrite slice_app.
    change ("/" ++ rest) with (String "/" rest).
    rewrite (span_digits_app _ _ Hd).
    destruct (String.eqb_spec version ""); [congruence|].
    cbn [negb andb no_line_terminator]. rewrite Hr. reflexivity.
Qed.

Lemma handleAPI_cases pathname :
  handleAPI pathname = NotFound "Invalid API endpoint"
  \/ handleAPI pathname = Nothing.
Proof.
  unfold handleAPI. destruct (APIPathRegex_exec pathname) as [[v r]|]; auto.
  destruct (startsWith "/" r); auto.
Qed.

Lemma route_to_handleAPI stat opts pathname :
  startsWith "/api" pathname = true ->
  route stat opts (Some pathname) = ([], handleAPI pathname).
Proof.
  intros H. unfold route.
  destruct (String.eqb_spec pathname "/reload") as [->|_]; [discriminate|].
  now rewrite H.
Qed.

(** C2.  What the code does: a request whose path begins with [/api]
    is answered "not found", unless the path is [/api/], a version
    number, [/] and anything.  For those paths the handler returns
    without answering, and the request is left open. *)
Theorem route_api stat opts pathname :
  startsWith "/api" pathname = true ->
  (route stat opts (Some pathname) = ([], NotFound "Invalid API endpoint")
   \/ route stat opts (Some pathname) = ([], Nothing))
  /\ (route stat opts (Some pathname) = ([], Nothing) <->
      exists version rest,
        pathname = "/api/" ++ version ++ "/" ++ rest /\
        version <> "" /\ all_digits version = true /\
        no_line_terminator rest = true).
Proof.
  intros H. rewrite (route_to_handleAPI _ _ _ H). split.
  - destruct (handleAPI_cases pathname) as [-> | ->]; auto.
  - rewrite <- handleAPI_nothing. split; [now intros [= ->] | now intros ->].
Qed.

Lemma route_api_witness :
  (route (fun _ => None) {| dirpath := "."; watch := false |} (Some "/api/users")
   = ([], NotFound "Invalid API endpoint")
   \/ route (fun _ => None) {| dirpath := "."; watch := false |} (Some "/api/users")
      = ([], Nothing))
  /\ (route (fun _ => None) {| dirpath := "."; watch := false |} (Some "/api/users")
      = ([], Nothing) <->
      exists version rest,
        "/api/users" = "/api/" ++ version ++ "/" ++ rest /\
        version <> "" /\ all_digits version = true /\
        no_line_terminator rest = true).
Proof.
  apply (route_api (fun _ => None) {| dirpath := "."; watch := false |}
           "/api/users").
  reflexivity.
Defined.

(** A versioned path gets no answer at all. *)
Lemma versioned_api_path_unanswered :
  startsWith "/api" "/api/1/users" = true
  /\ route (fun _ => None) {| dirpath := "."; watch := false |}
           (Some "/api/1/users")
     = ([], Nothing).
Proof. split; reflexivity. Qed.
End ApiNamespace.

(** ** The live-reload registry *)

Section Registry.
Import Sse.

(** *** The map operations *)

Lemma in_keys_map_set k v m x :
  In x (map fst (map_set k v m)) -> x = k \/ In x (map fst m).
Proof.
  induction m as [|[k0 v0] m IH]; cbn [map_set map fst In].
  - intros [<-|[]]. now left.
  - destruct (String.eqb_spec k0 k) as [->|Hne]; cbn [map fst In].
    + intros [<-|H]; auto.
    + intros [<-|H]; auto. apply IH in H as [->|H]; auto.
Qed.

Lemma NoDup_map_set k v m :
  List.NoDup (map fst m) -> List.NoDup (map fst (map_set k v m)).
Proof.
  induction m as [|[k0 v0] m IH]; cbn [map_set map fst].
  - intros _. constructor; [intros []|constructor].
  - intros [Hk0 Hm]%List.NoDup_cons_iff.
    destruct (String.eqb_spec k0 k) as [->|Hne]; cbn [map fst].
    + now apply List.NoDup_cons_iff.
    + apply List.NoDup_cons_iff. split; [|now apply IH].
      intros [->|H]%in_keys_map_set; [congruence|contradiction].
Qed.

Lemma in_map_set k v m k' v' :
  List.NoDup (map fst m) ->
  In (k', v') (map_set k v m) <->
  (k' = k /\ v' = v) \/ (k' <> k /\ In (k', v') m).
Proof.
  induction m as [|[k0 v0] m IH]; cbn [map_set map fst In].
  - intros _. split.
    + intros [[= <- <-]|[]]. now left.
    + intros [[-> ->]|[_ []]]. now left.
  - intros [Hk0 Hm]%List.NoDup_cons_iff.
    destruct (String.eqb_spec k0 k) as [->|Hne]; cbn [In].
    + split.
      * intros [[= <- <-]|H]; [now left|]. right. split; [|now right].
        intros ->. apply Hk0. now apply (in_map fst) in H.
      * intros [[-> ->]|[Hk [[= <- <-]|H]]]; [now left|congruence|now right].
    + rewrite (IH Hm). split.
      * intros [[= <- <-]|[H|[Hk H]]]; auto.
      * intros [[-> ->]|[Hk [H|H]]]; auto.
Qed.

Lemma in_map_delete k m k' v' :
  List.NoDup (map fst m) ->
  In (k', v') (map_delete k m) <-> k' <> k /\ In (k', v') m.
Proof.
  induction m as [|[k0 v0] m IH]; cbn [map_delete map fst In].
  - intros _. split; [intros []|intros [_ []]].
  - intros [Hk0 Hm]%List.NoDup_cons_iff.
    destruct (String.eqb_spec k0 k) as [->|Hne]; cbn [In].
    + split.
      * intros H. split; [|now right].
        intros ->. apply Hk0. now apply (in_map fst) in H.
      * intros [Hk [[= <- <-]|H]]; [congruence|exact H].
    + rewrite (IH Hm). split.
      * intros [[= <- <-]|[Hk H]]; auto.
      * intros [Hk [H|H]]; auto.
Qed.

Lemma NoDup_map_delete k m :
  List.NoDup (map fst m) -> List.NoDup (map fst (map_delete k m)).
Proof.
  induction m as [|[k0 v0] m IH]; cbn [map_delete map fst]; [auto|].
  intros [Hk0 Hm]%List.NoDup_cons_iff.
  destruct (String.eqb_spec k0 k) as [->|Hne]; cbn [map fst]; [exact Hm|].
  apply List.NoDup_cons_iff. split; [|now apply IH].
  intros H. apply in_map_iff in H as ([k1 v1] & <- & H).
  apply (in_map_delete _ _ _ _ Hm) in H as [_ H].
  apply Hk0. now apply (in_map fst) in H.
Qed.

Lemma map_get_in k v m :
  List.NoDup (map fst m) -> In (k, v) m -> map_get k m = Some v.
Proof.
  induction m as [|[k0 v0] m IH]; cbn [map_get map fst In]; [intros _ []|].
  intros [Hk0 Hm]%List.NoDup_cons_iff [[= -> ->]|H].
  - now rewrite String.eqb_refl.
  - destruct (String.eqb_spec k0 k) as [->|_]; [|now apply IH].
    exfalso. apply Hk0. now apply (in_map fst) in H.
Qed.

(** *** The store *)

Lemma lookup_update id f (st : list response) j :
  update id f st !! j = if decide (j = id) then f <$> st !! j else st !! j.
Proof.
  unfold update. destruct (st !! id) as [r|] eqn:E.
  - destruct (decide (j = id)) as [->|Hne].
    + rewrite E. apply list_lookup_insert_eq. now apply lookup_lt_Some in E.
    + now apply list_lookup_insert_ne.
  - destruct (decide (j = id)) as [->|Hne]; [now rewrite E|reflexivity].
Qed.

Lemma length_update id f (st : list response) :
  length (update id f st) = length st.
Proof. unfold update. destruct (st !! id); [apply length_insert|reflexivity]. Qed.

Lemma broadcast_other conns : forall st id,
  ~ In id (map snd conns) -> broadcast conns st !! id = st !! id.
Proof.
  induction conns as [|[k v] conns IH]; intros st id H; [reflexivity|].
  cbn [map snd In] in H. cbn [broadcast fold_left snd].
  fold (broadcast conns (update v (write reload_msg) st)).
  rewrite IH by tauto. rewrite lookup_update.
  destruct (decide (id = v)); [subst; tauto|reflexivity].
Qed.

Lemma broadcast_hit conns : forall st id,
  List.NoDup (map snd conns) -> In id (map snd conns) ->
  broadcast conns st !! id = write reload_msg <$> st !! id.
Proof.
  induction conns as [|[k v] conns IH]; intros st id Hnd H; [destruct H|].
  cbn [map snd] in Hnd, H. apply List.NoDup_cons_iff in Hnd as [Hv Hnd].
  cbn [broadcast fold_left snd].
  fold (broadcast conns (update v (write reload_msg) st)).
  destruct (decide (id = v)) as [->|Hne].
  - rewrite broadcast_other by exact Hv. rewrite lookup_update.
    now destruct (decide (v = v)).
  - destruct H as [->|H]; [congruence|].
    rewrite (IH _ _ Hnd H), lookup_update.
    now destruct (decide (id = v)).
Qed.

Lemma length_broadcast conns : forall st,
  length (broadcast conns st) = length st.
Proof.
  induction conns as [|kv conns IH]; intros st; [reflexivity|].
  cbn [broadcast fold_left]. fold (broadcast conns (update (snd kv) (write reload_msg) st)).
  rewrite IH. apply length_update.
Qed.

(** *** The invariant *)

Lemma invariant_init : invariant init.
Proof.
  split; cbn.
  - constructor.
  - intros k id [].
  - intros id k H. now rewrite lookup_empty in H.
  - intros id r H. now rewrite lookup_nil in H.
Qed.

Lemma invariant_ids st :
  invariant st -> List.NoDup (map snd (sse_connections st)).
Proof.
  intros [Hk Ho _ _]. unfold keys in Hk.
  induction (sse_connections st) as [|[k id] m IH]; [constructor|].
  cbn [map fst snd] in *. apply List.NoDup_cons_iff in Hk as [Hk Hm].
  apply List.NoDup_cons_iff. split.
  - intros H. apply in_map_iff in H as ([k' id'] & E & H). cbn in E. subst id'.
    destruct (Ho k id (or_introl eq_refl)) as [_ E1].
    destruct (Ho k' id (or_intror H)) as [_ E2].
    assert (k' = k) by congruence. subst k'.
    apply Hk. now apply (in_map fst) in H.
  - apply IH; [exact Hm|]. intros k' id' H. apply Ho. now right.
Qed.

Lemma invariant_register a st :
  invariant st -> invariant (snd (SSERegister a st)).
Proof.
  intros [Hk Ho Hl He]. unfold SSERegister. cbn [snd].
  set (k := default "unknown" a). set (res := length (store st)).
  split; cbn [store listeners sse_connections keys].
  - now apply NoDup_map_set.
  - intros k' id H. apply (in_map_set _ _ _ _ _ Hk) in H as [[-> ->]|[Hne H]].
    + split; [|apply lookup_insert_eq].
      eexists. split; [apply list_lookup_middle; reflexivity|reflexivity].
    + destruct (Ho _ _ H) as [(r & Er & Hr) El].
      assert (id <> res) by (apply Hl in El; unfold res; lia).
      split.
      * exists r. split; [|exact Hr]. now apply lookup_app_l_Some.
      * now rewrite lookup_insert_ne.
  - intros id k'. rewrite length_app. cbn [length].
    destruct (decide (id = res)) as [->|Hne]; [unfold res; lia|].
    rewrite lookup_insert_ne by congruence. intros H%Hl. lia.
  - intros id r H. apply lookup_app_Some in H as [H|[_ H]]; [now apply He in H|].
    destruct (id - length (store st))%nat; [|discriminate H].
    now inversion H.
Qed.

Lemma invariant_close res st : invariant st -> invariant (close res st).
Proof.
  intros Hinv. pose proof Hinv as [Hk Ho Hl He]. unfold close.
  destruct (listeners st !! res) as [k|] eqn:E; [|exact Hinv].
  split; cbn [store listeners sse_connections keys].
  - now apply NoDup_map_delete.
  - intros k' id H. apply (in_map_delete _ _ _ _ Hk) in H as [Hne H].
    destruct (Ho _ _ H) as [(r & Er & Hr) El].
    assert (id <> res) by congruence.
    split.
    + exists r. split; [|exact Hr]. rewrite lookup_update.
      now destruct (decide (id = res)).
    + now rewrite lookup_delete_ne.
  - intros id k'. rewrite length_update.
    destruct (decide (res = id)) as [->|Hne]; [now rewrite lookup_delete_eq|].
    rewrite lookup_delete_ne by exact Hne. apply Hl.
  - intros id r. rewrite lookup_update.
    destruct (decide (id = res)) as [->|_]; [|apply He].
    destruct (store st !! res) as [r0|] eqn:Er; [|discriminate].
    intros [= <-]. unfold end_. destruct (finished r0); now apply He in Er.
Qed.

Lemma invariant_reload st : invariant st -> invariant (SSESendReload st).
Proof.
  intros Hinv. pose proof (invariant_ids _ Hinv) as Hids.
  destruct Hinv as [Hk Ho Hl He].
  assert (Hstore : forall id,
    broadcast (sse_connections st) (store st) !! id
    = if in_dec Nat.eq_dec id (map snd (sse_connections st))
      then write reload_msg <$> store st !! id else store st !! id).
  { intros id. destruct (in_dec _ _ _) as [H|H];
      [now apply broadcast_hit | now apply broadcast_other]. }
  pose proof (length_broadcast (sse_connections st) (store st)) as Hlen.
  unfold SSESendReload.
  split; cbn [store listeners sse_connections keys].
  - exact Hk.
  - intros k id H. destruct (Ho _ _ H) as [(r & Er & Hr) El].
    split; [|exact El]. rewrite Hstore, Er.
    destruct (in_dec _ _ _) as [_|Hn].
    + eexists. split; [reflexivity|]. unfold write. now rewrite Hr.
    + exfalso. apply Hn. now apply (in_map snd) in H.
  - intros id k. rewrite Hlen. apply Hl.
  - intros id r. rewrite Hstore. destruct (in_dec _ _ _) as [Hin|_]; [|apply He].
    apply in_map_iff in Hin as ([k id'] & E & Hin). cbn in E. subst id'.
    destruct (Ho _ _ Hin) as [(r0 & Er & Hr) _]. rewrite Er. intros [= <-].
    unfold write. rewrite Hr. cbn [errors]. now apply He in Er.
Qed.

Lemma invariant_step st e : invariant st -> invariant (step st e).
Proof.
  destruct e; cbn [step];
    [apply invariant_register | apply invariant_close | apply invariant_reload].
Qed.

(** The invariant holds in every state reached from [init]. *)
Lemma invariant_run es : invariant (run es).
Proof.
  unfold run. induction es as [|e es IH] using rev_ind; [apply invariant_init|].
  rewrite fold_left_app. now apply invariant_step.
Qed.

(** *** What clients receive *)

Lemma all_errors_nil st : invariant st -> all_errors st = [].
Proof.
  intros [_ _ _ He]. unfold all_errors.
  induction (store st) as [|r l IH]; [reflexivity|].
  cbn [map concat]. rewrite (He 0%nat r eq_refl). cbn [app].
  apply IH. intros id r' H. apply (He (S id)). exact H.
Qed.

Lemma received_reload_registered st k id :
  invariant st -> In (k, id) (sse_connections st) ->
  received id (SSESendReload st) = (received id st ++ [reload_msg])%list
  /\ is_open id (SSESendReload st) = true.
Proof.
  intros Hinv H. pose proof (invariant_ids _ Hinv) as Hids.
  destruct (inv_open _ Hinv _ _ H) as [(r & Er & Hr) _].
  unfold received, is_open, SSESendReload. cbn [store].
  rewrite (broadcast_hit _ _ _ Hids) by (now apply (in_map snd) in H).
  rewrite Er. cbn [fmap option_fmap option_map]. unfold write. rewrite Hr.
  split; reflexivity.
Qed.

Lemma received_reload_unregistered st id :
  (forall k, ~ In (k, id) (sse_connections st)) ->
  received id (SSESendReload st) = received id st
  /\ is_open id (SSESendReload st) = is_open id st.
Proof.
  intros H. unfold received, is_open, SSESendReload. cbn [store].
  rewrite broadcast_other; [split; reflexivity|].
  intros ([k id'] & E & Hin)%in_map_iff. cbn in E. subst id'. now apply (H k).
Qed.

(** What [SSERegister] does to the state. *)
Lemma register_spec a st :
  invariant st ->
  let k := default "unknown" a in
  let res := fst (SSERegister a st) in
  let st' := snd (SSERegister a st) in
  res = length (store st)
  /\ length (store st') = S (length (store st))
  /\ In (k, res) (sse_connections st')
  /\ received res st' = []
  /\ is_open res st' = true
  /\ (forall k' id, In (k', id) (sse_connections st') ->
      (k' = k /\ id = res) \/ (k' <> k /\ In (k', id) (sse_connections st)))
  /\ (forall k' id, k' <> k -> In (k', id) (sse_connections st) ->
      In (k', id) (sse_connections st')).
Proof.
  intros Hinv k res st'. subst res st'. unfold SSERegister.
  cbn [fst snd store sse_connections]. fold k.
  pose proof (inv_keys _ Hinv) as Hk. unfold keys in Hk.
  split; [reflexivity|]. split; [rewrite length_app; cbn; lia|].
  split; [apply (in_map_set _ _ _ _ _ Hk); now left|].
  unfold received, is_open. cbn [store].
  rewrite list_lookup_middle by reflexivity. cbn [written finished writeHead fresh negb].
  split; [reflexivity|]. split; [reflexivity|]. split.
  - intros k' id H. now apply (in_map_set _ _ _ _ _ Hk) in H.
  - intros k' id Hne H. apply (in_map_set _ _ _ _ _ Hk). now right.
Qed.

(** A response registered by [SSERegister] was not in the registry
    before. *)
Lemma fresh_not_registered st k :
  invariant st -> ~ In (k, length (store st)) (sse_connections st).
Proof.
  intros Hinv H. destruct (inv_open _ Hinv _ _ H) as [_ El].
  apply (inv_listeners _ Hinv) in El. lia.
Qed.

(** What the [close] event of a registered response does. *)
Lemma close_spec st k id :
  invariant st -> In (k, id) (sse_connections st) ->
  received id (close id st) = (received id st ++ ["closed"])%list
  /\ (forall k', ~ In (k', id) (sse_connections (close id st)))
  /\ (forall k' id', k' <> k -> In (k', id') (sse_connections st) ->
      In (k', id') (sse_connections (close id st))
      /\ received id' (close id st) = received id' st).
Proof.
  intros Hinv H. pose proof (inv_keys _ Hinv) as Hk. unfold keys in Hk.
  destruct (inv_open _ Hinv _ _ H) as [(r & Er & Hr) El].
  unfold close. rewrite El. cbn [sse_connections]. unfold received. cbn [store].
  split; [|split].
  - rewrite lookup_update. destruct (decide (id = id)); [|congruence].
    rewrite Er. cbn [fmap option_fmap option_map]. unfold end_. now rewrite Hr.
  - intros k' H'. apply (in_map_delete _ _ _ _ Hk) in H' as [Hne H'].
    destruct (inv_open _ Hinv _ _ H') as [_ El']. congruence.
  - intros k' id' Hne H'. split; [apply (in_map_delete _ _ _ _ Hk); now split|].
    destruct (inv_open _ Hinv _ _ H') as [_ El'].
    rewrite lookup_update. destruct (decide (id' = id)); [congruence|reflexivity].
Qed.

(** C4, amended.  Two clients that register from different remote
    addresses both get the reload message of a broadcast.  When one of
    them has closed before the broadcast, the other one gets the
    message, the one that left gets nothing after its stream was ended,
    and no error is raised. *)
Theorem broadcast_two_clients es a b :
  default "unknown" a <> default "unknown" b ->
  let r1 := fst (SSERegister a (run es)) in
  let st1 := snd (SSERegister a (run es)) in
  let r2 := fst (SSERegister b st1) in
  let st2 := snd (SSERegister b st1) in
  (received r1 (SSESendReload st2) = [reload_msg]
   /\ received r2 (SSESendReload st2) = [reload_msg]
   /\ all_errors (SSESendReload st2) = [])
  /\ (received r1 (SSESendReload (close r1 st2)) = ["closed"]
      /\ received r2 (SSESendReload (close r1 st2)) = [reload_msg]
      /\ all_errors (SSESendReload (close r1 st2)) = [])
  /\ (received r1 (SSESendReload (close r2 st2)) = [reload_msg]
      /\ received r2 (SSESendReload (close r2 st2)) = ["closed"]
      /\ all_errors (SSESendReload (close r2 st2)) = []).
Proof.
  intros Hab r1 st1 r2 st2.
  pose proof (invariant_run es) as H0.
  pose proof (invariant_register a _ H0) as H1. fold st1 in H1.
  pose proof (invariant_register b _ H1) as H2. fold st2 in H2.
  destruct (register_spec a _ H0) as (E1 & L1 & In1 & Rc1 & _ & _ & _).
  fold r1 st1 in E1, L1, In1, Rc1.
  destruct (register_spec b _ H1) as (E2 & _ & In2 & Rc2 & _ & _ & Keep2).
  fold r2 st2 in E2, In2, Rc2, Keep2.
  apply (Keep2 _ _ Hab) in In1 as In1'.
  assert (Rc1' : received r1 st2 = []).
  { unfold received, st2, SSERegister. cbn [snd store].
    rewrite lookup_app_l by (rewrite L1, E1; lia). exact Rc1. }
  split; [|split].
  - destruct (received_reload_registered _ _ _ H2 In1') as [-> _].
    destruct (received_reload_registered _ _ _ H2 In2) as [-> _].
    rewrite Rc1', Rc2. repeat split.
    apply all_errors_nil. now apply invariant_reload.
  - destruct (close_spec _ _ _ H2 In1') as (Cl & Gone & Keep).
    destruct (Keep _ _ (not_eq_sym Hab) In2) as [In2' Same].
    pose proof (invariant_close r1 _ H2) as H3.
    destruct (received_reload_unregistered _ _ Gone) as [-> _].
    destruct (received_reload_registered _ _ _ H3 In2') as [-> _].
    rewrite Cl, Same, Rc1', Rc2. repeat split.
    apply all_errors_nil. now apply invariant_reload.
  - destruct (close_spec _ _ _ H2 In2) as (Cl & Gone & Keep).
    destruct (Keep _ _ Hab In1') as [In1'' Same].
    pose proof (invariant_close r2 _ H2) as H3.
    destruct (received_reload_unregistered _ _ Gone) as [-> _].
    destruct (received_reload_registered _ _ _ H3 In1'') as [-> _].
    rewrite Cl, Same, Rc1', Rc2. repeat split.
    apply all_errors_nil. now apply invariant_reload.
Qed.

Lemma broadcast_two_clients_witness :
  let a := Some "192.168.0.7" in
  let b := Some "192.168.0.9" in
  let r1 := fst (SSERegister a (run [])) in
  let st1 := snd (SSERegister a (run [])) in
  let r2 := fst (SSERegister b st1) in
  let st2 := snd (SSERegister b st1) in
  (received r1 (SSESendReload st2) = [reload_msg]
   /\ received r2 (SSESendReload st2) = [reload_msg]
   /\ all_errors (SSESendReload st2) = [])
  /\ (received r1 (SSESendReload (close r1 st2)) = ["closed"]
      /\ received r2 (SSESendReload (close r1 st2)) = [reload_msg]
      /\ all_errors (SSESendReload (close r1 st2)) = [])
  /\ (received r1 (SSESendReload (close r2 st2)) = [reload_msg]
      /\ received r2 (SSESendReload (close r2 st2)) = ["closed"]
      /\ all_errors (SSESendReload (close r2 st2)) = []).
Proof.
  apply (broadcast_two_clients [] (Some "192.168.0.7") (Some "192.168.0.9")).
  discriminate.
Defined.

(** Of two clients that register from one address only the second gets
    the reload message, though the first is still connected. *)
Lemma same_address_replaces_client :
  let st := run [Connect (Some "::1"); Connect (Some "::1"); Reload] in
  is_open 0 st = true /\ received 0 st = [] /\ received 1 st = [reload_msg].
Proof. repeat split. Qed.

(** After either of them leaves, the one that stays gets nothing. *)
Lemma same_address_close_drops_both :
  let st := run [Connect (Some "::1"); Connect (Some "::1"); Close 0; Reload] in
  is_open 1 st = true /\ received 1 st = [].
Proof. repeat split. Qed.

(** C8.  In every state the registry holds one entry per remote
    address at most, through every registration and every close.  A
    second registration from an address takes the place of the first:
    the first response, open as it is, gets nothing from a broadcast. *)
Theorem registry_one_entry_per_address es a :
  List.NoDup (keys (run es))
  /\ (forall e, List.NoDup (keys (step (run es) e)))
  /\ let r1 := fst (SSERegister a (run es)) in
     let st1 := snd (SSERegister a (run es)) in
     let r2 := fst (SSERegister a st1) in
     let st2 := snd (SSERegister a st1) in
     r1 <> r2
     /\ map_get (default "unknown" a) (sse_connections st2) = Some r2
     /\ is_open r1 (SSESendReload st2) = true
     /\ received r1 (SSESendReload st2) = []
     /\ received r2 (SSESendReload st2) = [reload_msg].
Proof.
  pose proof (invariant_run es) as H0.
  split; [apply (inv_keys _ H0)|].
  split; [intros e; apply inv_keys; now apply invariant_step|].
  intros r1 st1 r2 st2.
  pose proof (invariant_register a _ H0) as H1. fold st1 in H1.
  pose proof (invariant_register a _ H1) as H2. fold st2 in H2.
  destruct (register_spec a _ H0) as (E1 & L1 & In1 & Rc1 & Op1 & Old1 & _).
  fold r1 st1 in E1, L1, In1, Rc1, Op1, Old1.
  destruct (register_spec a _ H1) as (E2 & _ & In2 & Rc2 & _ & Old2 & _).
  fold r2 st2 in E2, In2, Rc2, Old2.
  assert (Hne : r1 <> r2) by lia.
  assert (Same : store st2 !! r1 = store st1 !! r1).
  { unfold st2, SSERegister. cbn [snd store].
    apply lookup_app_l. rewrite L1, E1. lia. }
  assert (Gone : forall k, ~ In (k, r1) (sse_connections st2)).
  { intros k H. apply Old2 in H as [[_ H]|[Hk H]]; [congruence|].
    apply Old1 in H as [[H _]|[_ H]]; [congruence|].
    rewrite E1 in H. now apply fresh_not_registered in H. }
  split; [exact Hne|].
  split; [apply map_get_in; [apply (inv_keys _ H2)|exact In2]|].
  destruct (received_reload_unregistered _ _ Gone) as [-> ->].
  destruct (received_reload_registered _ _ _ H2 In2) as [-> _].
  unfold is_open, received in *. rewrite Same, Rc2.
  split; [exact Op1|]. split; [exact Rc1|reflexivity].
Qed.
End Registry.

(** ** The throttle change callback *)

Section Throttled.
Import Throttle.
Local Open Scope Z_scope.

(** An event in an idle period calls [cb] and opens the cooldown. *)
Lemma deliver_idle ms t st :
  idle st ->
  deliver ms t st
  = {| is_timed_out := true; is_timeout_active := true;
       timers := [t + ms]; calls := (calls st ++ [t])%list |}.
Proof.
  destruct st as [a b ts cs]. intros (Ha & Hb & Ht). cbn in Ha, Hb, Ht. subst.
  reflexivity.
Qed.

(** An event during the cooldown is dropped. *)
Lemma deliver_cooling_early ms t st c :
  cooling ms st -> last_call st = Some c -> t < c + ms ->
  deliver ms t st = st.
Proof.
  destruct st as [a b ts cs]. intros (c' & Hc & Ha & Hb & Ht) Hl Hlt.
  cbn in Ha, Hb, Ht. subst. rewrite Hc in Hl. inversion Hl; subst c'.
  unfold deliver, run_timers. cbn [timers List.filter].
  assert (E : (c + ms <=? t) = false) by (apply Z.leb_gt; lia).
  rewrite E. reflexivity.
Qed.

(** Once the cooldown has elapsed, the next event calls [cb] again. *)
Lemma deliver_cooling_late ms t st c :
  cooling ms st -> last_call st = Some c -> c + ms <= t ->
  deliver ms t st
  = {| is_timed_out := true; is_timeout_active := true;
       timers := [t + ms]; calls := (calls st ++ [t])%list |}.
Proof.
  destruct st as [a b ts cs]. intros (c' & Hc & Ha & Hb & Ht) Hl Hle.
  cbn in Ha, Hb, Ht. subst. rewrite Hc in Hl. inversion Hl; subst c'.
  unfold deliver, run_timers. cbn [timers List.filter].
  assert (E : (c + ms <=? t) = true) by (apply Z.leb_le; lia).
  rewrite E. reflexivity.
Qed.

Lemma watch_snoc events t : watch (events ++ [t]) = deliver 100 t (watch events).
Proof. unfold watch. now rewrite fold_left_app. Qed.

(** The watcher is idle before the first call, and cooling down from
    then on. *)
Lemma watch_state events :
  (calls (watch events) = [] /\ idle (watch events))
  \/ cooling 100 (watch events).
Proof.
  induction events as [|t events IH] using rev_ind.
  - left. repeat split.
  - rewrite watch_snoc. right. destruct IH as [[Hc Hi]|Hcool].
    + rewrite (deliver_idle _ _ _ Hi). exists t. unfold last_call.
      cbn [calls is_timed_out is_timeout_active timers].
      rewrite last_snoc. auto.
    + pose proof Hcool as (c & Hl & _).
      destruct (Z_lt_le_dec t (c + 100)) as [Hlt|Hle].
      * now rewrite (deliver_cooling_early _ _ _ _ Hcool Hl Hlt).
      * rewrite (deliver_cooling_late _ _ _ _ Hcool Hl Hle). exists t.
        unfold last_call. cbn [calls is_timed_out is_timeout_active timers].
        rewrite last_snoc. auto.
Qed.

(** An event calls [cb] exactly when no call was made in the 100 ms
    before it. *)
Lemma watch_calls events t :
  calls (watch (events ++ [t]))
  = match last_call (watch events) with
    | None => [t]
    | Some c =>
        if t <? c + 100 then calls (watch events)
        else (calls (watch events) ++ [t])%list
    end.
Proof.
  rewrite watch_snoc. destruct (watch_state events) as [[Hc Hi]|Hcool].
  - rewrite (deliver_idle _ _ _ Hi). unfold last_call. rewrite Hc. reflexivity.
  - pose proof Hcool as (c & Hl & _). rewrite Hl.
    destruct (Z.ltb_spec t (c + 100)) as [Hlt|Hle].
    + now rewrite (deliver_cooling_early _ _ _ _ Hcool Hl Hlt).
    + now rewrite (deliver_cooling_late _ _ _ _ Hcool Hl Hle).
Qed.

(** Unfold the call made, or not, by the event [t] that follows [l]. *)
Ltac next_call l t :=
  let E := fresh "E" in
  pose proof (watch_calls l t) as E; cbn [app] in E; rewrite E; clear E;
  unfold last_call.

(** C3.  [watch] throttles with a window of 100 ms, leading edge: an
    event calls the callback at once when none was called before or the
    last call is 100 ms old or older, and is dropped otherwise.  Five
    events within 10 ms make one call, and a sixth event 150 ms later
    makes a second one. *)
Theorem watch_leading_edge events t t1 t2 t3 t4 t5 :
  t1 <= t2 -> t2 <= t3 -> t3 <= t4 -> t4 <= t5 -> t5 <= t1 + 10 ->
  calls (watch (events ++ [t]))
  = match last_call (watch events) with
    | None => [t]
    | Some c =>
        if t <? c + 100 then calls (watch events)
        else (calls (watch events) ++ [t])%list
    end
  /\ calls (watch [t1; t2; t3; t4; t5]) = [t1]
  /\ calls (watch [t1; t2; t3; t4; t5; t5 + 150]) = [t1; t5 + 150].
Proof.
  intros H12 H23 H34 H45 H51. split; [apply watch_calls|].
  assert (E1 : calls (watch [t1]) = [t1]) by reflexivity.
  assert (E2 : calls (watch [t1; t2]) = [t1]).
  { next_call [t1] t2. rewrite E1. cbn [last].
    destruct (Z.ltb_spec t2 (t1 + 100)); [reflexivity|lia]. }
  assert (E3 : calls (watch [t1; t2; t3]) = [t1]).
  { next_call [t1; t2] t3. rewrite E2. cbn [last].
    destruct (Z.ltb_spec t3 (t1 + 100)); [reflexivity|lia]. }
  assert (E4 : calls (watch [t1; t2; t3; t4]) = [t1]).
  { next_call [t1; t2; t3] t4. rewrite E3. cbn [last].
    destruct (Z.ltb_spec t4 (t1 + 100)); [reflexivity|lia]. }
  assert (E5 : calls (watch [t1; t2; t3; t4; t5]) = [t1]).
  { next_call [t1; t2; t3; t4] t5. rewrite E4. cbn [last].
    destruct (Z.ltb_spec t5 (t1 + 100)); [reflexivity|lia]. }
  split; [exact E5|].
  next_call [t1; t2; t3; t4; t5] (t5 + 150). rewrite E5. cbn [last].
  destruct (Z.ltb_spec (t5 + 150) (t1 + 100)); [lia|reflexivity].
Qed.

Lemma watch_leading_edge_witness :
  calls (watch ([0] ++ [50]))
  = match last_call (watch [0]) with
    | None => [50]
    | Some c =>
        if 50 <? c + 100 then calls (watch [0])
        else (calls (watch [0]) ++ [50])%list
    end
  /\ calls (watch [0; 2; 4; 6; 8]) = [0]
  /\ calls (watch [0; 2; 4; 6; 8; 8 + 150]) = [0; 8 + 150].
Proof.
  apply (watch_leading_edge [0] 50 0 2 4 6 8); lia.
Defined.
End Throttled.

(** ** Static files *)

Section StaticFiles.
Import JS NodePath Server Static.



(** A request routed to [handleStatic] is answered by [file] on a path
    it touched, or by [notFound]. *)
Lemma handleStatic_action stat root w pathname :
  isAbsolute pathname = true ->
  let res := handleStatic stat
               {| Server.pathname := pathname; prefix := None;
                  directory := Some root; runtimeRouting := false;
                  transforms := w |} in
  (exists p, snd res = File p w /\ In p (fst res))
  \/ (exists msg, snd res = NotFound msg).
Proof.
  intros Habs.
  destruct (sanitisePath_absolute _ Habs) as (trq & names & Eq & Hnames).
  assert (Hq : render true trq names <> "")
    by (apply render_not_empty; now apply plain_all_named).
  unfold handleStatic.
  cbn [Server.pathname Server.prefix Server.directory Server.runtimeRouting
       Server.transforms getFilepath default].
  rewrite Eq, (truthy_VStr _ Hq). cbn [negb]. cbv zeta.
  destruct (stat _) as [[|]|]; cbn [fst snd].
  - left. eexists. split; [reflexivity|]. right. now left.
  - left. eexists. split; [reflexivity|]. now left.
  - right. eauto.
Qed.

Lemma notFound_spec msg :
  notFound msg Sse.fresh
  = {| Sse.statusCode := 404; Sse.headers := []; Sse.written := [msg];
       Sse.finished := true; Sse.errors := [] |}.
Proof. reflexivity. Qed.

Lemma file_spec readFile p t :
  file readFile p t Sse.fresh
  = match readFile p with
    | Some data =>
        {| Sse.statusCode := 200;
           Sse.headers :=
             [("Content-Type", default "text/plain" (lookup (ext p) mimeType))];
           Sse.written :=
             [match lookup (ext p) t with
              | Some f => f data
              | None => data
              end];
           Sse.finished := true; Sse.errors := [] |}
    | None => notFound ("'" ++ p ++ "' not found") Sse.fresh
    end.
Proof. unfold file. destruct (readFile p); reflexivity. Qed.

Lemma route_static stat opts pathname :
  isAbsolute pathname = true ->
  String.eqb pathname "/reload" = false ->
  startsWith "/api" pathname = false ->
  route stat opts (Some pathname)
  = handleStatic stat
      {| Server.pathname := pathname; prefix := None;
         directory := Some (dirpath opts); runtimeRouting := false;
         transforms := watch opts |}.
Proof.
  intros Habs Hr Ha. unfold route. rewrite Hr, Ha.
  unfold isAbsolute in Habs. now rewrite Habs.
Qed.

(** The requests with a pathname that are left without a complete
    response are the event stream and the versioned paths of the API
    namespace; every other one is ended, with status 200 or 404 and one
    chunk of body. *)
Lemma serve_cases stat readFile opts pathname :
  let r := serve stat readFile opts pathname in
  (Sse.finished r = false <->
   pathname = "/reload"
   \/ (startsWith "/api" pathname = true /\ handleAPI pathname = Nothing))
  /\ (Sse.finished r = true ->
      (Sse.statusCode r = 200%Z \/ Sse.statusCode r = 404%Z)
      /\ length (Sse.written r) = 1%nat).
Proof.
  cbv zeta. unfold serve.
  destruct (String.eqb_spec pathname "/reload") as [->|Hr].
  { cbn. split; [split; auto; discriminate | discriminate]. }
  destruct (startsWith "/api" pathname) eqn:Ha.
  { rewrite (route_to_handleAPI _ _ _ Ha). cbn [snd].
    destruct (handleAPI_cases pathname) as [E|E]; rewrite E; cbn [respond].
    - rewrite notFound_spec. cbn. split; [|auto].
      split; [discriminate|]. intros [?|[_ ?]]; congruence.
    - cbn. split; [|discriminate]. split; auto. }
  assert (Hno : ~ (pathname = "/reload"
                   \/ (false = true /\ handleAPI pathname = Nothing)))
    by (intros [?|[? _]]; congruence).
  destruct (startsWith "/" pathname) eqn:Habs.
  - rewrite route_static; auto; [|now apply String.eqb_neq].
    destruct (handleStatic_action stat (dirpath opts) (watch opts) pathname Habs)
      as [(p & E & _)|(msg & E)]; rewrite E; cbn [respond].
    + rewrite file_spec. destruct (readFile p); cbn;
        (split; [split; [discriminate|tauto]|auto]).
    + rewrite notFound_spec. cbn. split; [split; [discriminate|tauto]|auto].
  - unfold route. apply String.eqb_neq in Hr. rewrite Hr, Ha, Habs.
    cbn. split; [split; [discriminate|tauto]|auto].
Qed.

(** X1.  A request whose URL does not parse makes [route] throw with
    nothing written.  Of the requests that [route] returns from, the
    only ones left without a complete response are the event stream and
    the versioned paths of the API namespace; every other one, the
    request without a URL among them, is ended, with status 200 or 404
    and one chunk of body. *)
Theorem serve_answered stat readFile opts u :
  match route_request stat readFile opts u with
  | Throws => u = Invalid
  | Returns r =>
      (Sse.finished r = false <->
       exists pathname, u = Parsed pathname
         /\ (pathname = "/reload"
             \/ (startsWith "/api" pathname = true
                 /\ handleAPI pathname = Nothing)))
      /\ (Sse.finished r = true ->
          (Sse.statusCode r = 200%Z \/ Sse.statusCode r = 404%Z)
          /\ length (Sse.written r) = 1%nat)
  end.
Proof.
  destruct u as [| |pathname]; cbn [route_request]; [|reflexivity|].
  - cbn. split; [|auto]. split; [discriminate|]. now intros (? & ? & _).
  - destruct (serve_cases stat readFile opts pathname) as [H1 H2].
    split; [|exact H2]. rewrite H1. split.
    + intros H. exists pathname. auto.
    + now intros (? & [= <-] & H).
Qed.

Lemma lookup_route_transforms w e :
  lookup e (route_transforms w)
  = if w && String.eqb e ".html" then Some injectDevHTML else None.
Proof.
  destruct w; [|reflexivity]. cbn [route_transforms lookup andb].
  rewrite String.eqb_sym. now destruct (String.eqb e ".html").
Qed.

(** X2.  Whatever is sent with status 200 is the content of a file within
    the serving root: as read, or, when [watch] is on and the extension
    is [.html], decoded as UTF-8 and encoded again with the reload
    script put in; the content type goes by the extension. *)
Theorem serve_ok_file stat readFile root w pathname :
  root <> "" ->
  Sse.finished (serve stat readFile {| dirpath := root; watch := w |} pathname)
  = true ->
  Sse.statusCode (serve stat readFile {| dirpath := root; watch := w |} pathname)
  = 200%Z ->
  exists p data,
    within root p = true /\ readFile p = Some data /\
    Sse.written (serve stat readFile {| dirpath := root; watch := w |} pathname)
    = [if w && String.eqb (ext p) ".html" then injectDevHTML data else data] /\
    Sse.headers (serve stat readFile {| dirpath := root; watch := w |} pathname)
    = [("Content-Type", default "text/plain" (lookup (ext p) mimeType))].
Proof.
  intros Hroot. unfold serve.
  destruct (String.eqb_spec pathname "/reload") as [->|Hr]; [discriminate|].
  destruct (startsWith "/api" pathname) eqn:Ha.
  { rewrite (route_to_handleAPI _ _ _ Ha). cbn [snd].
    destruct (handleAPI_cases pathname) as [E|E]; rewrite E; discriminate. }
  destruct (startsWith "/" pathname) eqn:Habs.
  2:{ unfold route. apply String.eqb_neq in Hr. rewrite Hr, Ha, Habs. discriminate. }
  rewrite route_static; auto; [|now apply String.eqb_neq]. cbn [dirpath watch].
  destruct (handleStatic_paths stat root w pathname Hroot Habs)
    as (tr & names & Hnames & _ & Hpaths).
  destruct (handleStatic_action stat root w pathname Habs)
    as [(p & E & Hin)|(msg & E)]; rewrite E; cbn [respond]; [|discriminate].
  rewrite file_spec. destruct (readFile p) as [data|] eqn:Ep; [|discriminate].
  intros _ _. exists p, data. cbn [Sse.written Sse.headers].
  rewrite lookup_route_transforms.
  split; [|split; [exact Ep|split; [|reflexivity]]].
  - apply Hpaths in Hin as [->|[tr' ->]].
    + now apply within_render.
    + apply within_render; [exact Hroot|]. rewrite forallb_app, Hnames. reflexivity.
  - now destruct (w && String.eqb (ext p) ".html").
Qed.

Lemma serve_ok_file_witness :
  exists p data,
    within "/srv/site" p = true
    /\ (fun q => if String.eqb q "/srv/site/a/b.html"
                 then Some ("<head>" ++ String (chr 233) "</head>") else None) p
       = Some data
    /\ Sse.written
         (serve (fun _ => Some false)
            (fun q => if String.eqb q "/srv/site/a/b.html"
                      then Some ("<head>" ++ String (chr 233) "</head>") else None)
            {| dirpath := "/srv/site"; watch := true |} "/a/../a/b.html")
       = [if true && String.eqb (ext p) ".html" then injectDevHTML data else data]
    /\ Sse.headers
         (serve (fun _ => Some false)
            (fun q => if String.eqb q "/srv/site/a/b.html"
                      then Some ("<head>" ++ String (chr 233) "</head>") else None)
            {| dirpath := "/srv/site"; watch := true |} "/a/../a/b.html")
       = [("Content-Type", default "text/plain" (lookup (ext p) mimeType))].
Proof.
  apply (serve_ok_file (fun _ => Some false)
           (fun q => if String.eqb q "/srv/site/a/b.html"
                     then Some ("<head>" ++ String (chr 233) "</head>") else None)
           "/srv/site" true "/a/../a/b.html").
  - discriminate.
  - reflexivity.
  - reflexivity.
Defined.

Lemma split_render abs tr segs :
  segs <> [] ->
  forallb no_sep segs = true ->
  split (render abs tr segs)
  = ((if abs then [""] else []) ++ segs ++ (if tr then [""] else []))%list.
Proof.
  intros Hne Hsep. destruct segs as [|x segs]; [congruence|].
  unfold render.
  assert (E : split (String.concat "/" (x :: segs) ++ (if tr then "/" else ""))
              = ((x :: segs) ++ (if tr then [""] else []))%list).
  { destruct tr; cbv iota.
    - now rewrite split_sep_r, split_concat.
    - now rewrite append_nil_r, split_concat, app_nil_r. }
  destruct abs; [|exact E].
  change ("/" ++ ?s) with (String "/" s). now rewrite split_sep_l, E.
Qed.




(** *** The reload script *)

Lemma append_cons c a x : String c a ++ x = String c (a ++ x).
Proof. reflexivity. Qed.

Lemma replace_first_cons pat rep c s :
  replace_first pat rep (String c s)
  = if startsWith pat (String c s)
    then rep ++ slice (String.length pat) (String c s)
    else String c (replace_first pat rep s).
Proof. reflexivity. Qed.

Lemma replace_first_absent pat rep s :
  contains pat s = false -> replace_first pat rep s = s.
Proof.
  induction s as [|c s IH]; cbn [contains replace_first];
    intros [H1 H2]%orb_false_iff; rewrite H1; [reflexivity|].
  now rewrite IH.
Qed.

Lemma replace_first_here pat rep b :
  replace_first pat rep (pat ++ b) = rep ++ b.
Proof.
  destruct (pat ++ b) eqn:E; cbn [replace_first];
    rewrite <- E, startsWith_app, slice_app; reflexivity.
Qed.

(** A match that starts in [a] and goes on over the end of [a] ... *)
Lemma startsWith_long p : forall a x,
  (String.length p <= String.length a)%nat ->
  startsWith p (a ++ x) = startsWith p a.
Proof.
  induction p as [|c p IH]; intros a x H; [now rewrite !startsWith_nil_l|].
  destruct a as [|d a]; [cbn in H; lia|].
  rewrite append_cons, !startsWith_cons, IH; [reflexivity|]. cbn in H. lia.
Qed.

Ltac decide_chars :=
  repeat match goal with
         | |- context [Ascii.eqb ?x ?y] => is_var y; destruct (Ascii.eqb x y)
         end;
  reflexivity.

(** ... is not possible for [</head>], which does not overlap itself. *)
Lemma head_no_overlap a b :
  a <> "" -> (String.length a < 7)%nat ->
  startsWith "</head>" (a ++ "</head>" ++ b) = false.
Proof.
  intros Hne Hlen.
  destruct a as [|c1 a]; [congruence|].
  destruct a as [|c2 a];
    [rewrite !append_cons, !startsWith_cons; decide_chars|].
  destruct a as [|c3 a];
    [rewrite !append_cons, !startsWith_cons; decide_chars|].
  destruct a as [|c4 a];
    [rewrite !append_cons, !startsWith_cons; decide_chars|].
  destruct a as [|c5 a];
    [rewrite !append_cons, !startsWith_cons; decide_chars|].
  destruct a as [|c6 a];
    [rewrite !append_cons, !startsWith_cons; decide_chars|].
  destruct a as [|c7 a];
    [rewrite !append_cons, !startsWith_cons; decide_chars|].
  cbn in Hlen. lia.
Qed.

Lemma replace_first_head rep b : forall a,
  contains "</head>" a = false ->
  replace_first "</head>" rep (a ++ "</head>" ++ b) = a ++ rep ++ b.
Proof.
  induction a as [|c a IH]; intros H.
  - exact (replace_first_here "</head>" rep b).
  - cbn [contains] in H. apply orb_false_iff in H as [H1 H2].
    assert (E : startsWith "</head>" (String c a ++ "</head>" ++ b) = false).
    { destruct (Nat.lt_ge_cases (String.length (String c a)) 7) as [Hlt|Hge].
      - now apply head_no_overlap.
      - now rewrite startsWith_long. }
    change (String c a ++ "</head>" ++ b)
      with (String c (a ++ "</head>" ++ b)) in E |- *.
    rewrite replace_first_cons, E.
    change (String c a ++ rep ++ b) with (String c (a ++ rep ++ b)).
    f_equal. exact (IH H2).
Qed.
End StaticFiles.

(** ** [sanitisePath] on any path *)

Section Sanitise.
Import JS NodePath Server.

Lemma split_cons c s :
  split (String c s)
  = if Ascii.eqb c "/" then "" :: split s
    else match split s with
         | h :: t => String c h :: t
         | [] => [String c ""]
         end.
Proof. reflexivity. Qed.

Lemma strip_updirs_eq s :
  strip_updirs s
  = match s with
    | String a (String b (String c rest)) =>
        if Ascii.eqb a "." && Ascii.eqb b "."
           && (Ascii.eqb c "/" || Ascii.eqb c "\")
        then strip_updirs rest else s
    | _ => s
    end.
Proof.
  destruct s as [|a [|b [|c rest]]];
    [reflexivity
    |destruct a as [[] [] [] [] [] [] [] []]; reflexivity
    |destruct a as [[] [] [] [] [] [] [] []];
     destruct b as [[] [] [] [] [] [] [] []]; reflexivity
    |].
  destruct (Ascii.eqb_spec a ".") as [->|Ha].
  - destruct (Ascii.eqb_spec b ".") as [->|Hb]; [reflexivity|].
    destruct b as [[] [] [] [] [] [] [] []]; try reflexivity. congruence.
  - destruct a as [[] [] [] [] [] [] [] []]; try reflexivity. congruence.
Qed.

Lemma split_up_first s more :
  split s = ".." :: more ->
  (s = ".." /\ more = [])
  \/ exists rest, s = String "." (String "." (String "/" rest)) /\ more = split rest.
Proof.
  destruct s as [|a s]; [discriminate|]. rewrite split_cons.
  destruct (Ascii.eqb_spec a "/"); [discriminate|].
  destruct (split s) as [|h t] eqn:E; [discriminate|].
  intros [= -> -> ->].
  destruct s as [|b s]; [discriminate|]. rewrite split_cons in E.
  destruct (Ascii.eqb_spec b "/"); [discriminate|].
  destruct (split s) as [|h' t'] eqn:E'; [now destruct (split_not_nil s)|].
  injection E as -> -> ->.
  destruct s as [|c s]; [left; now inversion E'|]. rewrite split_cons in E'.
  destruct (Ascii.eqb_spec c "/") as [->|].
  - injection E' as <-. right. eauto.
  - destruct (split s); discriminate E'.
Qed.

(** What [strip_updirs] leaves of a path whose [..] pieces all come
    first is [..] itself or holds no [..] piece. *)
Lemma strip_updirs_shape : forall n s,
  (String.length s <= n)%nat ->
  (exists k body, split s = (repeat ".." k ++ body)%list
                  /\ forallb (fun x => negb (String.eqb x "..")) body = true) ->
  strip_updirs s = ".."
  \/ forallb (fun x => negb (String.eqb x "..")) (split (strip_updirs s)) = true.
Proof.
  induction n as [|n IH]; intros s Hlen (k & body & Hs & Hb).
  { destruct s; [right; reflexivity|cbn in Hlen; lia]. }
  assert (Hfix : strip_updirs s = s ->
                 (forall rest, s <> String "." (String "." (String "/" rest))) ->
                 strip_updirs s = ".."
                 \/ forallb (fun x => negb (String.eqb x ".."))
                      (split (strip_updirs s)) = true).
  { intros -> Hno. destruct k as [|k]; [right; now rewrite Hs|].
    cbn [repeat app] in Hs. apply split_up_first in Hs as [[-> _]|(rest & -> & _)];
      [now left|]. now destruct (Hno rest). }
  rewrite strip_updirs_eq in Hfix |- *.
  destruct s as [|a [|b [|c rest]]]; try (apply Hfix; [reflexivity|discriminate]).
  destruct (Ascii.eqb_spec a ".") as [->|Ha]; cbn [andb];
    [|apply Hfix; [reflexivity|congruence]].
  destruct (Ascii.eqb_spec b ".") as [->|Hb']; cbn [andb];
    [|apply Hfix; [reflexivity|congruence]].
  cbn [String.length] in Hlen.
  destruct (Ascii.eqb_spec c "/") as [->|Hc]; cbn [orb].
  - clear Hfix. apply IH; [lia|].
    change (split (String "." (String "." (String "/" rest))))
      with (".." :: split rest) in Hs.
    destruct k as [|k]; cbn [repeat app] in Hs.
    + rewrite <- Hs in Hb. discriminate.
    + injection Hs as Hs. eauto.
  - destruct (Ascii.eqb_spec c "\") as [->|Hc'];
      [|apply Hfix; [reflexivity|congruence]].
    clear Hfix. apply IH; [lia|].
    rewrite !split_cons in Hs. cbn [Ascii.eqb Bool.eqb] in Hs.
    destruct (split rest) as [|h t] eqn:E; [now destruct (split_not_nil rest)|].
    destruct k as [|k]; cbn [repeat app] in Hs; [|discriminate].
    rewrite <- Hs in Hb. cbn [forallb] in Hb. apply andb_true_iff in Hb as [_ Hb].
    destruct (String.eqb_spec h "..") as [->|Hh].
    + exists 1%nat, t. auto.
    + exists 0%nat, (h :: t). split; [reflexivity|]. cbn [forallb].
      apply String.eqb_neq in Hh. now rewrite Hh, Hb.
Qed.

(** In a normalized path the [..] pieces all come first. *)
Lemma normalize_ups_first p :
  exists k body, split (normalize p) = (repeat ".." k ++ body)%list
                 /\ forallb (fun x => negb (String.eqb x "..")) body = true.
Proof.
  unfold normalize. destruct (String.eqb_spec p "") as [->|Hp].
  { exists 0%nat, ["."]. auto. }
  pose proof (normalizeString_ok p (negb (isAbsolute p))) as (names & n & E & Hn & Ha).
  pose proof (normalizeString_named p (negb (isAbsolute p))) as Hnamed.
  apply (f_equal (@rev string)) in E.
  rewrite rev_involutive, rev_app_distr, rev_repeat in E.
  destruct (normalizeString p (negb (isAbsolute p))) as [|x segs] eqn:Es.
  { exists 0%nat. destruct (isAbsolute p), (endsWithSep p); eexists; split; reflexivity. }
  rewrite split_render; [|discriminate|].
  2:{ revert Hnamed. apply forallb_impl. now intros y [? _]%andb_true_iff. }
  rewrite E.
  assert (Hrev : forallb (fun x => negb (String.eqb x "..")) (rev names) = true)
    by (apply forallb_rev; now apply plain_below).
  destruct (isAbsolute p); cbn [negb] in Ha.
  - rewrite (Ha eq_refl). exists 0%nat. eexists. split; [reflexivity|].
    cbn [repeat app forallb String.eqb negb andb]. rewrite forallb_app, Hrev.
    now destruct (endsWithSep p).
  - exists n. eexists. cbn [app]. rewrite <- app_assoc. split; [reflexivity|].
    rewrite forallb_app, Hrev. now destruct (endsWithSep p).
Qed.

Lemma within_root root : root <> "" -> within root (normalize root) = true.
Proof.
  intros Hroot. pose proof (within_render root (endsWithSep root) [] Hroot eq_refl) as H.
  now rewrite app_nil_r, <- (normalize_render _ Hroot) in H.
Qed.

(** X5.  [sanitisePath] does not keep every path within the root: what it
    returns is [..] itself, one level up, or stays within the root when
    joined to it.  This holds for every string, with whatever [..],
    separators and backslashes in it. *)
Theorem sanitisePath_up_or_within root pathname prefix f :
  root <> "" ->
  getFilepath pathname prefix = Some f ->
  f = ".." \/ within root (join [root; f]) = true.
Proof.
  intros Hroot Hf.
  assert (Hs : exists p, f = sanitisePath p).
  { unfold getFilepath in Hf. destruct prefix as [pre|]; [|inversion Hf; eauto].
    destruct (truthy (VStr pre)); [|inversion Hf; eauto].
    destruct (startsWith pre pathname); inversion Hf; eauto. }
  destruct Hs as [p ->]. unfold sanitisePath.
  destruct (strip_updirs_shape _ (normalize p) (Nat.le_refl _) (normalize_ups_first p))
    as [E|Hno]; [now left|right].
  set (g := strip_updirs (normalize p)) in *.
  assert (Hplain : forallb plain (segments g) = true).
  { apply forallb_forall. intros x Hx. unfold segments in Hx.
    apply filter_In in Hx as [Hin Hnamed].
    pose proof (split_all_no_sep g) as Hsep.
    rewrite forallb_forall in Hsep, Hno.
    unfold plain. now rewrite (Hsep _ Hin), Hnamed, (Hno _ Hin). }
  destruct (String.eqb_spec g "") as [->|Hg].
  - unfold join. cbn [List.filter String.eqb negb].
    destruct (String.eqb_spec root ""); [congruence|]. cbn [negb String.concat].
    now apply within_root.
  - destruct (join_descend root g Hroot Hg Hplain) as [tr ->].
    now apply within_render.
Qed.

Lemma sanitisePath_up_or_within_witness :
  getFilepath "/static../../etc/passwd" (Some "/static") = Some "etc/passwd"
  /\ ("etc/passwd" = ".."
      \/ within "/srv/site" (join ["/srv/site"; "etc/passwd"]) = true).
Proof.
  split; [reflexivity|].
  apply (sanitisePath_up_or_within "/srv/site" "/static../../etc/passwd"
           (Some "/static") "etc/passwd").
  - discriminate.
  - reflexivity.
Defined.
End Sanitise.

(** ** The registry over the life of the server *)

Section RegistryLife.
Import Sse.

(** X6.  [SSESendReload] never writes to a response that has ended: in no
    state the server goes through has an error been raised on a
    response. *)
Theorem no_write_after_end es : all_errors (run es) = [].
Proof. apply all_errors_nil, invariant_run. Qed.

Lemma run_snoc es e : run (es ++ [e]) = step (run es) e.
Proof. unfold run. now rewrite fold_left_app. Qed.

Lemma run_app es es' : run (es ++ es') = fold_left step es' (run es).
Proof. unfold run. now rewrite fold_left_app. Qed.

(** Every response of the store is an event stream: nothing but
    [SSERegister] creates one, and [write] and [end] keep the head. *)
Lemma store_heads es :
  Forall (fun r => statusCode r = 200%Z /\ headers r = event_stream_headers)
         (store (run es)).
Proof.
  induction es as [|e es IH] using rev_ind; [constructor|].
  rewrite run_snoc. destruct e as [a|res|]; cbn [step].
  - unfold SSERegister. cbn [snd store]. apply Forall_app. split; [exact IH|].
    repeat constructor.
  - unfold close. destruct (listeners (run es) !! res); [|exact IH].
    cbn [store]. unfold update. destruct (store (run es) !! res) as [r|] eqn:E;
      [|exact IH].
    apply Forall_insert; [exact IH|].
    rewrite Forall_lookup in IH. specialize (IH _ _ E).
    unfold end_. now destruct (finished r).
  - unfold SSESendReload. cbn [store]. unfold broadcast.
    generalize (sse_connections (run es)). intros conns. revert IH.
    generalize (store (run es)).
    induction conns as [|kv conns IHc]; intros st Hst; [exact Hst|].
    cbn [fold_left]. apply IHc. unfold update.
    destruct (st !! kv.2) as [r|] eqn:E; [|exact Hst].
    apply Forall_insert; [exact Hst|].
    rewrite Forall_lookup in Hst. specialize (Hst _ _ E).
    unfold write. now destruct (finished r).
Qed.

(** X7.  Every client in the registry is an open event stream: its response
    has status 200 and the event-stream headers, has not ended, and its
    [close] listener is in place. *)
Theorem registered_is_open_stream es k id :
  In (k, id) (sse_connections (run es)) ->
  exists r, store (run es) !! id = Some r
    /\ finished r = false
    /\ statusCode r = 200%Z
    /\ headers r = event_stream_headers
    /\ listeners (run es) !! id = Some k.
Proof.
  intros H. destruct (inv_open _ (invariant_run es) _ _ H) as [(r & Er & Hr) El].
  exists r. pose proof (store_heads es) as Hh. rewrite Forall_lookup in Hh.
  destruct (Hh _ _ Er). auto.
Qed.

Lemma registered_is_open_stream_witness :
  exists r,
    store (run [Connect (Some "10.0.0.5"); Reload; Connect None]) !! 0%nat = Some r
    /\ finished r = false
    /\ statusCode r = 200%Z
    /\ headers r = event_stream_headers
    /\ listeners (run [Connect (Some "10.0.0.5"); Reload; Connect None]) !! 0%nat
       = Some "10.0.0.5".
Proof.
  apply (registered_is_open_stream
           [Connect (Some "10.0.0.5"); Reload; Connect None] "10.0.0.5" 0).
  left. reflexivity.
Defined.

(** X8.  A response that has ended is never touched again, whatever
    happens afterwards. *)
Theorem ended_is_final es es' id r :
  store (run es) !! id = Some r ->
  finished r = true ->
  store (run (es ++ es')) !! id = Some r.
Proof.
  intros Hr Hfin. induction es' as [|e es' IH] using rev_ind.
  { now rewrite app_nil_r. }
  rewrite app_assoc, run_snoc.
  pose proof (invariant_run (es ++ es')) as Hinv.
  destruct e as [a|res|]; cbn [step].
  - unfold SSERegister. cbn [snd store]. now apply lookup_app_l_Some.
  - unfold close. destruct (listeners _ !! res); [|exact IH]. cbn [store].
    rewrite lookup_update. destruct (decide (id = res)) as [->|_]; [|exact IH].
    rewrite IH. cbn. unfold end_. now rewrite Hfin.
  - unfold SSESendReload. cbn [store]. rewrite broadcast_other; [exact IH|].
    intros ([k id'] & E & Hin)%in_map_iff. cbn in E. subst id'.
    destruct (inv_open _ Hinv _ _ Hin) as [(r' & Er & Hopen) _]. congruence.
Qed.

Lemma ended_is_final_witness :
  store (run ([Connect (Some "a"); Close 0%nat]
              ++ [Reload; Connect (Some "a"); Reload; Close 0%nat])) !! 0%nat
  = Some {| statusCode := 200; headers := event_stream_headers;
            written := ["closed"]; finished := true; errors := [] |}.
Proof.
  apply (ended_is_final [Connect (Some "a"); Close 0%nat]
           [Reload; Connect (Some "a"); Reload; Close 0%nat] 0).
  - reflexivity.
  - reflexivity.
Defined.

(** X9.  A broadcast sends one reload message to every client in the
    registry, however many there are, and nothing to anyone else. *)
Theorem reload_once_each es id :
  received id (run (es ++ [Reload]))
  = (received id (run es)
     ++ if existsb (Nat.eqb id) (map snd (sse_connections (run es)))
        then [reload_msg] else [])%list.
Proof.
  rewrite run_snoc. cbn [step].
  destruct (existsb _ _) eqn:E.
  - apply existsb_exists in E as (id' & Hin & ->%Nat.eqb_eq).
    apply in_map_iff in Hin as ([k id''] & E & Hin). cbn in E. subst id''.
    now destruct (received_reload_registered _ _ _ (invariant_run es) Hin).
  - rewrite app_nil_r. apply received_reload_unregistered.
    intros k Hin. apply (in_map snd) in Hin. cbn in Hin.
    assert (existsb (Nat.eqb id) (map snd (sse_connections (run es))) = true);
      [|congruence].
    apply existsb_exists. exists id. split; [exact Hin|apply Nat.eqb_refl].
Qed.

Lemma map_delete_set k v m :
  List.NoDup (map fst m) ->
  map_delete k (map_set k v m)
  = List.filter (fun kv => negb (String.eqb (fst kv) k)) m.
Proof.
  induction m as [|[k0 v0] m IH]; cbn [map_set map_delete map fst List.filter].
  - intros _. now rewrite String.eqb_refl.
  - intros [Hk0 Hm]%List.NoDup_cons_iff.
    destruct (String.eqb_spec k0 k) as [->|Hne]; cbn [map_delete negb].
    + rewrite String.eqb_refl. symmetry. apply filter_all.
      apply forallb_forall. intros [k1 v1] Hin. cbn.
      destruct (String.eqb_spec k1 k) as [->|]; [|reflexivity].
      exfalso. apply Hk0. now apply (in_map fst) in Hin.
    + apply String.eqb_neq in Hne. rewrite Hne. cbn [negb]. now rewrite IH.
Qed.

(** X10.  A client that registers and leaves takes the entry of its address
    with it: the registry is what it was before, less any client that
    was registered from the same address. *)
Theorem register_then_close es a :
  sse_connections (close (fst (SSERegister a (run es)))
                         (snd (SSERegister a (run es))))
  = List.filter (fun kv => negb (String.eqb (fst kv) (default "unknown" a)))
                (sse_connections (run es)).
Proof.
  unfold close, SSERegister. cbn [fst snd listeners sse_connections].
  rewrite lookup_insert_eq. cbn [sse_connections].
  apply map_delete_set, (inv_keys _ (invariant_run es)).
Qed.
End RegistryLife.

(** ** The rate of the throttled callback *)

Section Rate.
Import Throttle.
Local Open Scope Z_scope.

Lemma watch_calls_cases events t :
  (calls (watch (events ++ [t])) = calls (watch events)
   /\ calls (watch events) <> [])
  \/ (calls (watch (events ++ [t])) = (calls (watch events) ++ [t])%list
      /\ forall c, last (calls (watch events)) = Some c -> c + 100 <= t).
Proof.
  rewrite watch_calls. unfold last_call.
  destruct (last (calls (watch events))) as [c|] eqn:E.
  - destruct (Z.ltb_spec t (c + 100)).
    + left. split; [reflexivity|]. intros Hnil. now rewrite Hnil in E.
    + right. split; [reflexivity|]. now intros c' [= <-].
  - right. apply last_None in E. rewrite E. split; [reflexivity|discriminate].
Qed.

(** X11.  Two calls of the callback in a row are at least 100 ms apart,
    whatever the events and their times. *)
Theorem calls_100ms_apart events i c1 c2 :
  calls (watch events) !! i = Some c1 ->
  calls (watch events) !! S i = Some c2 ->
  c1 + 100 <= c2.
Proof.
  revert i c1 c2. induction events as [|t events IH] using rev_ind;
    intros i c1 c2 H1 H2; [discriminate|].
  destruct (watch_calls_cases events t) as [[E _]|[E Hlast]];
    rewrite E in H1, H2; [eauto|].
  apply lookup_lt_Some in H2 as Hlen. rewrite length_app in Hlen. cbn in Hlen.
  destruct (decide (S i < length (calls (watch events)))%nat) as [Hin|Hout].
  - rewrite lookup_app_l in H1, H2 by lia. eauto.
  - assert (Hi : S i = length (calls (watch events))) by lia.
    rewrite lookup_app_l in H1 by lia.
    rewrite lookup_app_r, Hi, Nat.sub_diag in H2 by lia. inversion H2; subst c2.
    apply Hlast. rewrite last_lookup, <- Hi. exact H1.
Qed.

Lemma calls_100ms_apart_witness :
  calls (watch [3; 40; 99; 140; 141; 239; 240]) = [3; 140; 240]
  /\ 3 + 100 <= 140.
Proof.
  split; [reflexivity|].
  apply (calls_100ms_apart [3; 40; 99; 140; 141; 239; 240] 0%nat 3 140);
    reflexivity.
Defined.

(** X12.  The callback is called at times of events only, in their order,
    and the first event always calls it. *)
Theorem calls_among_events events :
  sublist (calls (watch events)) events
  /\ head (calls (watch events)) = head events.
Proof.
  induction events as [|t events [IHs IHh]] using rev_ind; [split; constructor|].
  destruct (watch_calls_cases events t) as [[E Hne]|[E _]]; rewrite E.
  - split; [now apply sublist_inserts_r|].
    destruct events as [|t0 events]; [now destruct Hne|]. exact IHh.
  - split; [now apply sublist_app|].
    destruct events as [|t0 events].
    + reflexivity.
    + cbn [app head] in *. destruct (calls (watch (t0 :: events))); [discriminate|].
      exact IHh.
Qed.
End Rate.

(** ** What [parseArgs] returns and how it exits *)

Section ParseArgsResults.
Import JS Cli Config.

Lemma well_formed_defaults : well_formed (defaults params_definition).
Proof.
  unfold well_formed, flag_value. split; [|split; [|split; [|split]]].
  - vm_compute. reflexivity.
  - exists false, 8080%N. split; [reflexivity|discriminate].
  - exists ".". split; [reflexivity|discriminate].
  - left. reflexivity.
  - left. reflexivity.
Qed.

Lemma dom_insert_present (r : Params) k v :
  is_Some (r !! k) -> dom (<[k := v]> r) = dom r.
Proof.
  intros H. apply set_eq. intros x.
  rewrite !elem_of_dom, lookup_insert.
  destruct (decide (k = x)) as [->|]; [|reflexivity].
  split; [now intros _|intros _; eauto].
Qed.

Lemma well_formed_accepted argv arg i pos res s :
  accepted argv arg i pos res s -> well_formed res -> well_formed (out s).
Proof.
  intros Hs (Hdom & Hport & Hdir & Hv & Hw).
  assert (Hp : is_Some (res !! "port")) by (destruct Hport as (? & ? & -> & _); eauto).
  assert (Hd : is_Some (res !! "dirpath")) by (destruct Hdir as (? & -> & _); eauto).
  assert (Hv' : is_Some (res !! "verbose")) by (destruct Hv as [-> | ->]; eauto).
  assert (Hw' : is_Some (res !! "watch")) by (destruct Hw as [-> | ->]; eauto).
  destruct Hs as [next H1 H2 H3 H4 H5|H1 H2|H1 H2|H1 H2 H3]; cbn [out];
    unfold well_formed, flag_value;
    (split; [rewrite dom_insert_present; [exact Hdom|assumption]|]).
  - rewrite lookup_insert_eq, !lookup_insert_ne by discriminate.
    split; [|auto].
    unfold Number in *. destruct (StringToNumber next) as [| |neg num scale];
      try discriminate.
    cbn in H4, H5. apply N.eqb_eq in H5. subst scale.
    exists neg, num. split; [reflexivity|].
    intros ->. discriminate.
  - rewrite lookup_insert_eq, !lookup_insert_ne by discriminate. auto.
  - rewrite lookup_insert_eq, !lookup_insert_ne by discriminate. auto.
  - rewrite lookup_insert_eq, !lookup_insert_ne by discriminate.
    split; [auto|]. split; [eauto|auto].
Qed.

Lemma parse_from_well_formed argv : forall fuel i pos res r,
  parse_from fuel params_definition argv i pos res = Some (Returned r) ->
  well_formed res -> well_formed r.
Proof.
  induction fuel as [|fuel IH]; intros i pos res r H Hwf.
  - cbn [parse_from] in H. destruct (argv !! i); [discriminate|].
    now inversion H; subst.
  - destruct (argv !! i) as [tok|] eqn:E.
    + apply (parse_from_returned _ _ _ _ _ _ _ E) in H as (_ & s & Hs & H).
      apply IH in H; [exact H|]. now apply (well_formed_accepted _ _ _ _ _ _ Hs).
    + rewrite parse_from_end in H by exact E. now inversion H; subst.
Qed.

(** X13.  Every configuration that [parseArgs] returns holds the four keys
    and no other; its [port] is a whole number other than 0, its
    [dirpath] is not the empty string, and [verbose] and [watch] are
    [undefined] or [true]. *)
Theorem parseArgs_well_formed argv r :
  parseArgs argv = Some (Returned r) -> well_formed r.
Proof.
  intros H. apply parse_from_well_formed in H; [exact H|].
  apply well_formed_defaults.
Qed.

Lemma parseArgs_well_formed_witness :
  well_formed (list_to_map [ ("port", int 3000); ("dirpath", VStr "www");
                             ("watch", VBool true); ("verbose", VUndefined) ]).
Proof.
  apply (parseArgs_well_formed ["-p"; "3000"; "www"; "-watch"]).
  vm_compute. reflexivity.
Defined.

Lemma scan_defs_exit argv arg defs : forall s e,
  scan_defs argv arg defs s = Exit e ->
  code e = 1%Z /\ exists banner, stderr e = [ErrorBanner banner; HelpMessage].
Proof.
  induction defs as [|[def_key def] defs IH]; intros s e H; [discriminate|].
  cbn [scan_defs] in H.
  set (s1 := if startsWith "-" arg then _ else _) in H.
  destruct (truthy (val s1)); [|now apply IH in H].
  destruct (match validate def with Some f => f (val s1) | None => true end);
    [discriminate|].
  injection H as <-. split; [reflexivity|eauto].
Qed.

Lemma parse_from_exits argv : forall fuel i pos res e,
  parse_from fuel params_definition argv i pos res = Some (Exited e) ->
  (code e = 0%Z /\ stderr e = [HelpMessage])
  \/ (code e = 1%Z /\ exists banner, stderr e = [ErrorBanner banner; HelpMessage]).
Proof.
  induction fuel as [|fuel IH]; intros i pos res e H; cbn [parse_from] in H.
  - destruct (argv !! i); discriminate.
  - destruct (argv !! i) as [tok|]; [|discriminate].
    destruct (Regex.test help_pattern false (toLowerCase tok)).
    { injection H as <-. left. split; reflexivity. }
    destruct (scan_defs argv (toLowerCase tok) params_definition _)
      as [s|s|e'] eqn:Es.
    3:{ injection H as <-. right. now apply scan_defs_exit in Es. }
    all: destruct (truthy (val s)); [now apply IH in H|];
         injection H as <-; right; split; [reflexivity|eauto].
Qed.

(** X14.  [parseArgs] always comes to an end.  When it does not return, it
    ends the process in one of two ways only: with code 0 after the usage
    text alone, or with code 1 after an error line followed by the usage
    text. *)
Theorem parseArgs_exits argv :
  (exists r, parseArgs argv = Some (Returned r))
  \/ (exists e, parseArgs argv = Some (Exited e)
       /\ ((code e = 0%Z /\ stderr e = [HelpMessage])
           \/ (code e = 1%Z
               /\ exists banner, stderr e = [ErrorBanner banner; HelpMessage]))).
Proof.
  destruct (parseArgs_total argv) as [[r|e] H]; [left; eauto|right].
  exists e. split; [exact H|]. now apply parse_from_exits in H.
Qed.

Lemma lookup_after (pre : list string) x post :
  (pre ++ x :: post)%list !! length pre = Some x.
Proof. now apply list_lookup_middle. Qed.

Lemma lookup_after_next (pre : list string) x y post :
  (pre ++ x :: y :: post)%list !! S (length pre) = Some y.
Proof.
  change (pre ++ x :: y :: post)%list with (pre ++ [x] ++ y :: post)%list.
  rewrite app_assoc.
  replace (S (length pre)) with (length (pre ++ [x]))
    by (rewrite length_app; cbn; lia).
  apply lookup_after.
Qed.

Lemma includes_two a b x :
  includes [a; b] x = true -> x = a \/ x = b.
Proof.
  unfold includes. cbn [existsb].
  destruct (String.eqb_spec x a); [now left|].
  destruct (String.eqb_spec x b); [now right|discriminate].
Qed.



Lemma parse_one pre rest pos r tok s o :
  Regex.test help_pattern false (toLowerCase tok) = false ->
  accepted (pre ++ tok :: rest) (toLowerCase tok) (length pre) pos r s ->
  S (idx s) = length (pre ++ tok :: rest) ->
  out s = o ->
  parse_from (length (tok :: rest)) params_definition (pre ++ tok :: rest)
             (length pre) pos r
  = Some (Returned o).
Proof.
  intros Hh Hs Hend <-. cbn [length].
  apply (parse_from_returned _ _ _ _ _ tok _ (lookup_after pre tok rest)).
  split; [exact Hh|].
  exists s. split; [exact Hs|]. apply parse_from_end.
  apply lookup_ge_None. lia.
Qed.

(** X16.  Options given after arguments that parse are added to their
    configuration: a flag sets its key to [true], [-p] with a whole
    number other than 0 sets [port], and the other keys stay as they
    were.  A later option thus replaces an earlier one.  The number is
    below 2^53 in size, where binary64 holds the whole numbers as they
    are written, and the arguments before are such that their parse is
    that of the code. *)
Theorem parseArgs_append_option pre r :
  exact_args pre = true ->
  parseArgs pre = Some (Returned r) ->
  (forall tok, includes ["-verbose"; "-v"] (toLowerCase tok) = true ->
     parseArgs (pre ++ [tok]) = Some (Returned (<["verbose" := VBool true]> r)))
  /\ (forall tok, includes ["-watch"; "-w"] (toLowerCase tok) = true ->
     parseArgs (pre ++ [tok]) = Some (Returned (<["watch" := VBool true]> r)))
  /\ (forall tok v, includes ["-port"; "-p"] (toLowerCase tok) = true ->
     truthy (Number (Some v)) = true -> isInteger (Number (Some v)) = true ->
     short_decimal (Number (Some v)) = true ->
     parseArgs (pre ++ [tok; v])
     = Some (Returned (<["port" := Number (Some v)]> r))).
Proof.
  intros _ Hpre. split; [|split].
  - intros tok Htok. apply includes_two in Htok as E.
    destruct (parseArgs_prefix pre [tok] r Hpre) as [pos ->].
    apply (parse_one pre [] pos r tok
             {| idx := length pre; val := VBool true; cur := pos;
                out := <["verbose" := VBool true]> r |});
      [ | | cbn [idx]; rewrite length_app; cbn; lia | reflexivity].
    + destruct E as [-> | ->]; reflexivity.
    + apply accepted_verbose; destruct E as [-> | ->]; reflexivity.
  - intros tok Htok. apply includes_two in Htok as E.
    destruct (parseArgs_prefix pre [tok] r Hpre) as [pos ->].
    apply (parse_one pre [] pos r tok
             {| idx := length pre; val := VBool true; cur := pos;
                out := <["watch" := VBool true]> r |});
      [ | | cbn [idx]; rewrite length_app; cbn; lia | reflexivity].
    + destruct E as [-> | ->]; reflexivity.
    + apply accepted_watch; destruct E as [-> | ->]; reflexivity.
  - intros tok v Htok Ht Hi _. apply includes_two in Htok as E.
    destruct (parseArgs_prefix pre [tok; v] r Hpre) as [pos ->].
    apply (parse_one pre [v] pos r tok
             {| idx := S (length pre); val := Number (Some v); cur := pos;
                out := <["port" := Number (Some v)]> r |});
      [ | | cbn [idx]; rewrite length_app; cbn; lia | reflexivity].
    + destruct E as [-> | ->]; reflexivity.
    + apply accepted_port; try assumption;
        try (destruct E as [-> | ->]; reflexivity).
      apply lookup_after_next.
Qed.

Lemma parseArgs_append_option_witness :
  parseArgs (["-p"; "3000"] ++ ["-P"; "8000"])
  = Some (Returned (<["port" := Number (Some "8000")]>
                      (<["port" := int 3000]> (defaults params_definition)))).
Proof.
  apply (parseArgs_append_option ["-p"; "3000"]
           (<["port" := int 3000]> (defaults params_definition)));
    vm_compute; reflexivity.
Defined.

(** X17.  The value given to [-p] is rejected unless it is a whole number
    other than 0: a number with a fraction, or an infinite one, by the
    validator of [port], with a message that names [port]; a value that
    is no number, or is 0, as an unknown argument.  The value is made
    of ASCII characters and, when it is a number, one that binary64
    does not round to a number of another kind; so are the arguments
    before it. *)
Theorem parseArgs_port_rejected pre tok v post r :
  exact_args pre = true ->
  parseArgs pre = Some (Returned r) ->
  includes ["-port"; "-p"] (toLowerCase tok) = true ->
  is_ascii v = true ->
  short_decimal (Number (Some v)) = true ->
  truthy (Number (Some v)) && isInteger (Number (Some v)) = false ->
  parseArgs (pre ++ tok :: v :: post)
  = Some (Exited (printHelp (Some
      (if truthy (Number (Some v))
       then "Invalid value for argument 'port': '" ++ v ++ "'"
       else "Unknown argument: '" ++ v ++ "'")))).
Proof.
  intros _ Hpre Htok _ _ Hv. apply includes_two in Htok as E.
  destruct (parseArgs_prefix pre (tok :: v :: post) r Hpre) as [pos ->].
  cbn [length parse_from]. rewrite lookup_after.
  replace (Regex.test help_pattern false (toLowerCase tok)) with false
    by (destruct E as [-> | ->]; reflexivity).
  rewrite scan_params.
  replace (startsWith "-" (toLowerCase tok)) with true
    by (destruct E as [-> | ->]; reflexivity).
  replace (includes ["port"; "p"] (slice 1 (toLowerCase tok))) with true
    by (destruct E as [-> | ->]; reflexivity).
  cbv zeta. rewrite lookup_after_next. cbn [ToString].
  destruct (truthy (Number (Some v))) eqn:Ht; cbn [andb] in Hv.
  - now rewrite Hv.
  - cbn [val idx]. now rewrite Ht, lookup_after_next.
Qed.

Lemma parseArgs_port_rejected_witness :
  parseArgs (["www"] ++ "-PORT" :: "80.5" :: ["-w"])
  = Some (Exited (printHelp (Some
      (if truthy (Number (Some "80.5"))
       then "Invalid value for argument 'port': '" ++ "80.5" ++ "'"
       else "Unknown argument: '" ++ "80.5" ++ "'")))).
Proof.
  apply (parseArgs_port_rejected ["www"] "-PORT" "80.5" ["-w"]
           (<["dirpath" := VStr "www"]> (defaults params_definition)));
    vm_compute; reflexivity.
Defined.
End ParseArgsResults.

(** ** Which arguments turn a flag on *)

Section ParseArgsFlags.
Import JS Cli.

Lemma lower_char_inv c x :
  lower_char c = x -> c = x \/ c = ascii_of_nat (nat_of_ascii x - 32).
Proof.
  intros <-.
  destruct c as [[] [] [] [] [] [] [] []]; vm_compute; auto.
Qed.

Lemma toLowerCase_cons_inv s c t :
  toLowerCase s = String c t ->
  exists c' s', s = String c' s' /\ lower_char c' = c /\ toLowerCase s' = t.
Proof.
  destruct s as [|c' s']; cbn [toLowerCase]; [discriminate|].
  intros H. injection H as H1 H2. eauto.
Qed.

Lemma toLowerCase_nil_inv s : toLowerCase s = "" -> s = "".
Proof. destruct s; [reflexivity|discriminate]. Qed.

Ltac lower_cases H :=
  repeat (apply toLowerCase_cons_inv in H as (? & ? & -> & ?%lower_char_inv & H));
  apply toLowerCase_nil_inv in H as ->.

Lemma startsWith_dash s : startsWith "-" s = true -> s = String "-" (slice 1 s).
Proof.
  destruct s as [|c s]; [discriminate|]. rewrite startsWith_cons.
  intros [H%Ascii.eqb_eq _]%andb_true_iff. now subst.
Qed.

(** A token that reads as a flag is no number. *)
Lemma flag_token_not_number tok :
  startsWith "-" (toLowerCase tok) = true ->
  includes ["verbose"; "v"; "watch"; "w"] (slice 1 (toLowerCase tok)) = true ->
  truthy (Number (Some tok)) = false.
Proof.
  intros H1%startsWith_dash H2. unfold includes in H2. cbn [existsb] in H2.
  repeat (apply orb_true_iff in H2 as [H2%String.eqb_eq|H2]);
    [..|discriminate]; rewrite H2 in H1; clear H2;
    lower_cases H1;
    repeat match goal with
           | H : _ \/ _ |- _ => destruct H as [-> | ->]
           end; vm_compute; reflexivity.
Qed.

Lemma includes_dashed a b arg :
  includes [String "-" a; String "-" b] arg
  = startsWith "-" arg && includes [a; b] (slice 1 arg).
Proof.
  unfold includes. destruct arg as [|c s]; [reflexivity|].
  cbn [existsb String.eqb slice]. rewrite startsWith_cons, startsWith_nil_l.
  rewrite (Ascii.eqb_sym c "-"). destruct (Ascii.eqb "-" c); reflexivity.
Qed.

Lemma past_the_end (argv : list string) i j tok :
  argv !! i = None -> (i <= j)%nat -> argv !! j = Some tok -> False.
Proof.
  intros H1%lookup_ge_None H2 H3%lookup_lt_Some. lia.
Qed.

Lemma parse_from_verbose argv : forall fuel i pos res r,
  parse_from fuel params_definition argv i pos res = Some (Returned r) ->
  r !! "verbose" = Some (VBool true) <->
  res !! "verbose" = Some (VBool true)
  \/ exists j tok, (i <= j)%nat /\ argv !! j = Some tok
       /\ includes ["-verbose"; "-v"] (toLowerCase tok) = true.
Proof.
  induction fuel as [|fuel IH]; intros i pos res r H.
  - cbn [parse_from] in H. destruct (argv !! i) eqn:E; [discriminate|].
    injection H as <-. split; [auto|].
    intros [H|(j & tok & Hj & Ht & _)]; [exact H|].
    destruct (past_the_end _ _ _ _ E Hj Ht).
  - destruct (argv !! i) as [tok|] eqn:E.
    2:{ rewrite parse_from_end in H by exact E. injection H as <-.
        split; [auto|].
        intros [H|(j & tok & Hj & Ht & _)]; [exact H|].
        destruct (past_the_end _ _ _ _ E Hj Ht). }
    pose proof (proj1 (parse_from_returned _ _ _ _ _ _ r E) H) as (Hh & s & Hs & H').
    clear H. rename H' into H.
    apply IH in H. rewrite H. clear H IH.
    destruct Hs as [next H1 H2 H3 H4 H5|H1 H2|H1 H2|H1 H2 H3]; cbn [idx out].
    + rewrite lookup_insert_ne by discriminate. split.
      * intros [H|(j & t & Hj & Ht & Hf)]; [auto|].
        right. exists j, t. split; [lia|auto].
      * intros [H|(j & t & Hj & Ht & Hf)]; [auto|].
        rewrite includes_dashed in Hf. apply andb_true_iff in Hf as [Hf1 Hf2].
        destruct (decide (j = i)) as [->|Hji].
        { rewrite E in Ht. injection Ht as <-.
          apply includes_port_not_flag in H2 as [H2 _]. congruence. }
        destruct (decide (j = S i)) as [->|Hjs].
        { rewrite H3 in Ht. injection Ht as <-.
          rewrite flag_token_not_number in H4; [discriminate|exact Hf1|].
          unfold includes in *. cbn [existsb] in *.
          apply orb_true_iff in Hf2 as [->|Hf2]; [reflexivity|].
          apply orb_true_iff in Hf2 as [->|Hf2]; [|discriminate].
          now rewrite orb_true_r. }
        right. exists j, t. split; [lia|].
        rewrite includes_dashed, Hf1, Hf2. auto.
    + rewrite lookup_insert_eq. split; [|auto]. intros _.
      right. exists i, tok. split; [lia|]. split; [exact E|].
      now rewrite includes_dashed, H1, H2.
    + rewrite lookup_insert_ne by discriminate. split.
      * intros [H|(j & t & Hj & Ht & Hf)]; [auto|].
        right. exists j, t. split; [lia|auto].
      * intros [H|(j & t & Hj & Ht & Hf)]; [auto|].
        destruct (decide (j = i)) as [->|Hji].
        { rewrite E in Ht. injection Ht as <-.
          rewrite includes_dashed in Hf. apply andb_true_iff in Hf as [Hf1 Hf2].
          apply includes_watch_not_flag in H2 as [_ H2]. congruence. }
        right. exists j, t. split; [lia|auto].
    + rewrite lookup_insert_ne by discriminate. split.
      * intros [H|(j & t & Hj & Ht & Hf)]; [auto|].
        right. exists j, t. split; [lia|auto].
      * intros [H|(j & t & Hj & Ht & Hf)]; [auto|].
        destruct (decide (j = i)) as [->|Hji].
        { rewrite E in Ht. injection Ht as <-.
          rewrite includes_dashed in Hf. apply andb_true_iff in Hf as [Hf1 Hf2].
          congruence. }
        right. exists j, t. split; [lia|auto].
Qed.

Lemma parse_from_watch argv : forall fuel i pos res r,
  parse_from fuel params_definition argv i pos res = Some (Returned r) ->
  r !! "watch" = Some (VBool true) <->
  res !! "watch" = Some (VBool true)
  \/ exists j tok, (i <= j)%nat /\ argv !! j = Some tok
       /\ includes ["-watch"; "-w"] (toLowerCase tok) = true.
Proof.
  induction fuel as [|fuel IH]; intros i pos res r H.
  - cbn [parse_from] in H. destruct (argv !! i) eqn:E; [discriminate|].
    injection H as <-. split; [auto|].
    intros [H|(j & tok & Hj & Ht & _)]; [exact H|].
    destruct (past_the_end _ _ _ _ E Hj Ht).
  - destruct (argv !! i) as [tok|] eqn:E.
    2:{ rewrite parse_from_end in H by exact E. injection H as <-.
        split; [auto|].
        intros [H|(j & tok & Hj & Ht & _)]; [exact H|].
        destruct (past_the_end _ _ _ _ E Hj Ht). }
    pose proof (proj1 (parse_from_returned _ _ _ _ _ _ r E) H) as (Hh & s & Hs & H').
    clear H. rename H' into H.
    apply IH in H. rewrite H. clear H IH.
    destruct Hs as [next H1 H2 H3 H4 H5|H1 H2|H1 H2|H1 H2 H3]; cbn [idx out].
    + rewrite lookup_insert_ne by discriminate. split.
      * intros [H|(j & t & Hj & Ht & Hf)]; [auto|].
        right. exists j, t. split; [lia|auto].
      * intros [H|(j & t & Hj & Ht & Hf)]; [auto|].
        rewrite includes_dashed in Hf. apply andb_true_iff in Hf as [Hf1 Hf2].
        destruct (decide (j = i)) as [->|Hji].
        { rewrite E in Ht. injection Ht as <-.
          apply includes_port_not_flag in H2 as [_ H2]. congruence. }
        destruct (decide (j = S i)) as [->|Hjs].
        { rewrite H3 in Ht. injection Ht as <-.
          rewrite flag_token_not_number in H4; [discriminate|exact Hf1|].
          unfold includes in *. cbn [existsb] in *.
          apply orb_true_iff in Hf2 as [->|Hf2]; [now rewrite !orb_true_r|].
          apply orb_true_iff in Hf2 as [->|Hf2]; [|discriminate].
          now rewrite !orb_true_r. }
        right. exists j, t. split; [lia|].
        rewrite includes_dashed, Hf1, Hf2. auto.
    + rewrite lookup_insert_ne by discriminate. split.
      * intros [H|(j & t & Hj & Ht & Hf)]; [auto|].
        right. exists j, t. split; [lia|auto].
      * intros [H|(j & t & Hj & Ht & Hf)]; [auto|].
        destruct (decide (j = i)) as [->|Hji].
        { rewrite E in Ht. injection Ht as <-.
          rewrite includes_dashed in Hf. apply andb_true_iff in Hf as [Hf1 Hf2].
          apply includes_verbose_not_flag in H2 as [_ H2]. congruence. }
        right. exists j, t. split; [lia|auto].
    + rewrite lookup_insert_eq. split; [|auto]. intros _.
      right. exists i, tok. split; [lia|]. split; [exact E|].
      now rewrite includes_dashed, H1, H2.
    + rewrite lookup_insert_ne by discriminate. split.
      * intros [H|(j & t & Hj & Ht & Hf)]; [auto|].
        right. exists j, t. split; [lia|auto].
      * intros [H|(j & t & Hj & Ht & Hf)]; [auto|].
        destruct (decide (j = i)) as [->|Hji].
        { rewrite E in Ht. injection Ht as <-.
          rewrite includes_dashed in Hf. apply andb_true_iff in Hf as [Hf1 Hf2].
          congruence. }
        right. exists j, t. split; [lia|auto].
Qed.

(** X18.  In the configuration that [parseArgs] returns, [verbose] is [true]
    exactly when one of the arguments is [-v] or [-verbose], and [watch]
    exactly when one is [-w] or [-watch], in any letter case and at any
    place. *)
Theorem parseArgs_flag_iff argv r :
  parseArgs argv = Some (Returned r) ->
  (r !! "verbose" = Some (VBool true) <->
   exists tok, In tok argv /\ includes ["-verbose"; "-v"] (toLowerCase tok) = true)
  /\ (r !! "watch" = Some (VBool true) <->
   exists tok, In tok argv /\ includes ["-watch"; "-w"] (toLowerCase tok) = true).
Proof.
  intros H. split.
  - rewrite (parse_from_verbose _ _ _ _ _ _ H). split.
    + intros [H0|(j & tok & _ & Hj & Hf)]; [discriminate|].
      exists tok. split; [|exact Hf].
      apply list_elem_of_In. now apply list_elem_of_lookup_2 in Hj.
    + intros (tok & [j Hj]%list_elem_of_In%list_elem_of_lookup_1 & Hf).
      right. exists j, tok. split; [lia|auto].
  - rewrite (parse_from_watch _ _ _ _ _ _ H). split.
    + intros [H0|(j & tok & _ & Hj & Hf)]; [discriminate|].
      exists tok. split; [|exact Hf].
      apply list_elem_of_In. now apply list_elem_of_lookup_2 in Hj.
    + intros (tok & [j Hj]%list_elem_of_In%list_elem_of_lookup_1 & Hf).
      right. exists j, tok. split; [lia|auto].
Qed.

Lemma parseArgs_flag_iff_witness :
  (<["watch" := VBool true]> (<["dirpath" := VStr "www"]> (defaults params_definition))
     !! "verbose" = Some (VBool true) <->
   exists tok, In tok ["www"; "-W"]
     /\ includes ["-verbose"; "-v"] (toLowerCase tok) = true)
  /\ (<["watch" := VBool true]> (<["dirpath" := VStr "www"]> (defaults params_definition))
     !! "watch" = Some (VBool true) <->
   exists tok, In tok ["www"; "-W"]
     /\ includes ["-watch"; "-w"] (toLowerCase tok) = true).
Proof.
  apply (parseArgs_flag_iff ["www"; "-W"]). vm_compute. reflexivity.
Defined.
End ParseArgsFlags.

(** ** What the logger prints *)

Section Logging.
Import JS Cli Config Logger Main.

Lemma existsb_lookup {A} (f : A -> bool) (l : list A) :
  existsb f l = true <-> exists j x, (0 <= j)%nat /\ l !! j = Some x /\ f x = true.
Proof.
  rewrite existsb_exists. split.
  - intros (x & [j Hj]%list_elem_of_In%list_elem_of_lookup_1 & Hf).
    exists j, x. split; [lia|auto].
  - intros (j & x & _ & Hj%list_elem_of_lookup_2%list_elem_of_In & Hf). eauto.
Qed.

(** The flags of the configuration, read as conditions, say whether
    the option was among the arguments. *)
Lemma parseArgs_flag_fields argv r :
  parseArgs argv = Some (Returned r) ->
  truthy (field r "verbose")
  = existsb (fun tok => includes ["-verbose"; "-v"] (toLowerCase tok)) argv
  /\ truthy (field r "watch")
  = existsb (fun tok => includes ["-watch"; "-w"] (toLowerCase tok)) argv.
Proof.
  intros H.
  pose proof (parse_from_well_formed _ _ _ _ _ _ H well_formed_defaults)
    as (_ & _ & _ & Hv & Hw).
  pose proof (parse_from_verbose _ _ _ _ _ _ H) as Ev.
  pose proof (parse_from_watch _ _ _ _ _ _ H) as Ew.
  unfold field. split.
  - destruct (existsb _ argv) eqn:E.
    + apply existsb_lookup in E. destruct Ev as [_ Ev]. rewrite Ev; [reflexivity|].
      right. exact E.
    + destruct Hv as [-> | Hv]; [reflexivity|].
      apply Ev in Hv as [Hv|Hv]; [discriminate|].
      apply existsb_lookup in Hv. congruence.
  - destruct (existsb _ argv) eqn:E.
    + apply existsb_lookup in E. destruct Ew as [_ Ew]. rewrite Ew; [reflexivity|].
      right. exact E.
    + destruct Hw as [-> | Hw]; [reflexivity|].
      apply Ew in Hw as [Hw|Hw]; [discriminate|].
      apply existsb_lookup in Hw. congruence.
Qed.

(** X19.  The logger of the running server prints warnings and errors
    always, and [info] and [debug] messages only when [-v] or
    [-verbose] was among the arguments. *)
Theorem log_info_needs_verbose argv r msgs :
  parseArgs argv = Some (Returned r) ->
  let verbose :=
    existsb (fun tok => includes ["-verbose"; "-v"] (toLowerCase tok)) argv in
  debug (run_log r) msgs
  = (if verbose then [(console_debug, fmt msgs [FgGray])] else [])
  /\ info (run_log r) msgs
  = (if verbose then [(console_info, fmt msgs [])] else [])
  /\ warn (run_log r) msgs = [(console_warn, fmt msgs [FgYellow])]
  /\ err (run_log r) msgs = [(console_error, fmt msgs [FgRed])].
Proof.
  intros H verbose. apply parseArgs_flag_fields in H as [H _].
  unfold run_log. rewrite H. fold verbose.
  destruct verbose; repeat split.
Qed.

Lemma log_info_needs_verbose_witness :
  let r := <["port" := int 3000]> (defaults params_definition) in
  let verbose :=
    existsb (fun tok => includes ["-verbose"; "-v"] (toLowerCase tok))
            ["-p"; "3000"] in
  debug (run_log r) ["GET: /"]
  = (if verbose then [(console_debug, fmt ["GET: /"] [FgGray])] else [])
  /\ info (run_log r) ["GET: /"]
  = (if verbose then [(console_info, fmt ["GET: /"] [])] else [])
  /\ warn (run_log r) ["GET: /"] = [(console_warn, fmt ["GET: /"] [FgYellow])]
  /\ err (run_log r) ["GET: /"] = [(console_error, fmt ["GET: /"] [FgRed])].
Proof.
  apply (log_info_needs_verbose ["-p"; "3000"]). vm_compute. reflexivity.
Defined.
End Logging.

(** ** Live reload, from the change of a file to the clients *)

Section LiveReload.
Import JS Cli Sse Main.

Lemma serve_snoc w es e : serve w (es ++ [e]) = on_input w (serve w es) e.
Proof. unfold serve. now rewrite fold_left_app. Qed.

(** The registry of the running server is in a state that requests,
    [close] events and broadcasts lead to. *)
Lemma serve_invariant w es : invariant (sse (serve w es)).
Proof.
  induction es as [|[t i] es IH] using rev_ind; [apply invariant_init|].
  rewrite serve_snoc. unfold on_input. cbn [snd fst]. destruct i as [a|res|].
  - apply (invariant_step _ (Connect a) IH).
  - apply (invariant_step _ (Close res) IH).
  - destruct w; [|exact IH]. unfold throttle. cbn [sse snd].
    destruct (negb _); [|exact IH]. apply (invariant_step _ Reload IH).
Qed.

Lemma serve_throttled es :
  throttled (serve true es) = Throttle.watch (changes es).
Proof.
  induction es as [|[t i] es IH] using rev_ind; [reflexivity|].
  rewrite serve_snoc. unfold changes. rewrite omap_app. fold (changes es).
  unfold on_input. cbn [snd fst omap]. destruct i as [a|res|]; cbn [throttled].
  - now rewrite app_nil_r.
  - now rewrite app_nil_r.
  - unfold throttle. cbn [fst throttled]. rewrite IH.
    unfold Throttle.watch. rewrite fold_left_app. reflexivity.
Qed.

(** After the timers have run, the flag is clear exactly when no call
    was made in the last 100 ms. *)
Lemma watch_due events t :
  negb (Throttle.is_timed_out (Throttle.run_timers t (Throttle.watch events)))
  = match Throttle.last_call (Throttle.watch events) with
    | Some c => (c + 100 <=? t)%Z
    | None => true
    end.
Proof.
  destruct (watch_state events) as [[Hc (H1 & H2 & H3)]|(c & Hl & H1 & H2 & H3)].
  - unfold Throttle.last_call. rewrite Hc. cbn [last].
    unfold Throttle.run_timers. rewrite H3. cbn. now rewrite H1.
  - rewrite Hl. unfold Throttle.run_timers. rewrite H3. cbn [List.filter].
    destruct (c + 100 <=? t)%Z; cbn; [reflexivity|now rewrite H1].
Qed.

Lemma parseArgs_watching argv r es :
  parseArgs argv = Some (Returned r) ->
  Main.run r es
  = serve (existsb (fun tok => includes ["-watch"; "-w"] (toLowerCase tok)) argv) es.
Proof. intros [_ H]%parseArgs_flag_fields. unfold Main.run. now rewrite H. Qed.

(** X20.  With [watch], a change under the served directory sends one reload
    message to every client in the registry, unless the clients were
    told to reload less than 100 ms before; then it sends nothing. *)
Theorem change_reloads_clients argv r es t id :
  parseArgs argv = Some (Returned r) ->
  existsb (fun tok => includes ["-watch"; "-w"] (toLowerCase tok)) argv = true ->
  received id (sse (Main.run r (es ++ [(t, Change)])))
  = (received id (sse (Main.run r es))
     ++ if registered id (Main.run r es)
           && match last_reload (Main.run r es) with
              | Some c => (c + 100 <=? t)%Z
              | None => true
              end
        then [reload_msg] else [])%list.
Proof.
  intros H Hw. rewrite !(parseArgs_watching _ _ _ H), Hw. clear H Hw.
  rewrite serve_snoc. unfold on_input, last_reload, registered. cbn [snd fst].
  unfold throttle. cbn [sse snd]. rewrite serve_throttled, watch_due.
  destruct (Throttle.last_call _) as [c|];
    [destruct (c + 100 <=? t)%Z|]; rewrite ?andb_false_r, ?andb_true_r;
    try (now rewrite app_nil_r).
  all: destruct (existsb _ _) eqn:E.
  all: try (apply existsb_exists in E as (id' & Hin & ->%Nat.eqb_eq);
            apply in_map_iff in Hin as ([k id''] & E & Hin); cbn in E; subst id'';
            now destruct (received_reload_registered _ _ _ (serve_invariant true es) Hin)).
  all: rewrite app_nil_r; apply received_reload_unregistered;
       intros k Hin; apply (in_map snd) in Hin; cbn in Hin;
       assert (existsb (Nat.eqb id)
                 (map snd (sse_connections (sse (serve true es)))) = true);
       [|congruence];
       apply existsb_exists; exists id; split; [exact Hin|apply Nat.eqb_refl].
Qed.

Lemma change_reloads_clients_witness :
  let r := <["watch" := VBool true]> (defaults params_definition) in
  let es := [(0, Request (Some "10.0.0.5")); (20, Change); (50, Request None)]%Z in
  received 0 (sse (Main.run r (es ++ [(130, Change)%Z])))
  = (received 0 (sse (Main.run r es))
     ++ if registered 0 (Main.run r es)
           && match last_reload (Main.run r es) with
              | Some c => (c + 100 <=? 130)%Z
              | None => true
              end
        then [reload_msg] else [])%list.
Proof.
  apply (change_reloads_clients ["-w"]); vm_compute; reflexivity.
Defined.

(** Without [watch] the responses of the store have been sent nothing
    and are open, or have been sent [closed] at their end. *)
Lemma unwatched_store es :
  Forall (fun r => (written r = [] /\ finished r = false)
                   \/ (written r = ["closed"] /\ finished r = true))
         (store (sse (serve false es))).
Proof.
  induction es as [|[t i] es IH] using rev_ind; [constructor|].
  rewrite serve_snoc. unfold on_input. cbn [snd fst].
  destruct i as [a|res|]; [| |exact IH]; cbn [sse].
  - unfold SSERegister. cbn [snd store]. apply Forall_app. split; [exact IH|].
    repeat constructor.
  - unfold close. destruct (listeners _ !! res) as [a|] eqn:El; [|exact IH].
    cbn [store]. unfold update.
    destruct (store (sse (serve false es)) !! res) as [r0|] eqn:E; [|exact IH].
    apply Forall_insert; [exact IH|].
    rewrite Forall_lookup in IH. specialize (IH _ _ E).
    unfold end_. destruct (finished r0) eqn:Ef; [now rewrite Ef|].
    cbn [written finished].
    destruct IH as [[-> _] | [_ Hc]]; [now right|discriminate].
Qed.

(** X21.  Without [-w] or [-watch] among the arguments no client is ever
    told to reload: a change is not noticed at all, and a response has
    been sent nothing, or [closed] and no more.  Requests for the event
    stream are registered all the same, as open streams under their
    address, and a client that leaves has been sent [closed], that
    alone, and is out of the registry. *)
Theorem no_reload_without_watch argv r es :
  parseArgs argv = Some (Returned r) ->
  existsb (fun tok => includes ["-watch"; "-w"] (toLowerCase tok)) argv = false ->
  (forall id,
      received id (sse (Main.run r es)) = []
      \/ received id (sse (Main.run r es)) = ["closed"])
  /\ (forall t, Main.run r (es ++ [(t, Change)]) = Main.run r es)
  /\ (forall t a,
      let id := length (store (sse (Main.run r es))) in
      let after := sse (Main.run r (es ++ [(t, Request a)])) in
      In (default "unknown" a, id) (sse_connections after)
      /\ is_open id after = true
      /\ received id after = [])
  /\ (forall t k id,
      In (k, id) (sse_connections (sse (Main.run r es))) ->
      let after := sse (Main.run r (es ++ [(t, Closed id)])) in
      received id after = ["closed"]
      /\ is_open id after = false
      /\ forall k', ~ In (k', id) (sse_connections after)).
Proof.
  intros H Hw. rewrite !(parseArgs_watching _ _ _ H), Hw.
  pose proof (unwatched_store es) as Hs. rewrite Forall_lookup in Hs.
  pose proof (serve_invariant false es) as Hinv.
  split; [|split; [|split]].
  - intros id. unfold received.
    destruct (store (sse (serve false es)) !! id) as [r0|] eqn:E; [|now left].
    destruct (Hs _ _ E) as [[-> _] | [-> _]]; auto.
  - intros t. rewrite (parseArgs_watching _ _ _ H), Hw. apply serve_snoc.
  - intros t a. cbv zeta. rewrite (parseArgs_watching _ _ _ H), Hw, serve_snoc.
    unfold on_input. cbn [snd sse].
    destruct (register_spec a _ Hinv) as (_ & _ & Hin & Hrec & Hopen & _).
    auto.
  - intros t k id Hin. cbv zeta.
    rewrite (parseArgs_watching _ _ _ H), Hw, serve_snoc.
    unfold on_input. cbn [snd sse].
    destruct (close_spec _ _ _ Hinv Hin) as (Hrec & Hout & _).
    destruct (inv_open _ Hinv _ _ Hin) as [(r0 & Er & Hr) El].
    assert (E0 : received id (sse (serve false es)) = []).
    { unfold received. rewrite Er.
      destruct (Hs _ _ Er) as [[-> _] | [_ Hf]]; [reflexivity|congruence]. }
    rewrite Hrec, E0. split; [reflexivity|]. split; [|exact Hout].
    unfold is_open, close. rewrite El. cbn [store]. rewrite lookup_update.
    destruct (decide (id = id)); [|congruence].
    rewrite Er. cbn [fmap option_fmap option_map]. unfold end_. rewrite Hr.
    reflexivity.
Qed.

Lemma no_reload_without_watch_witness :
  let r := <["dirpath" := VStr "www"]> (defaults params_definition) in
  let es := [(0, Request (Some "10.0.0.5")); (20, Change); (50, Change);
             (300, Request None); (400, Change)]%Z in
  (forall id,
      received id (sse (Main.run r es)) = []
      \/ received id (sse (Main.run r es)) = ["closed"])
  /\ (forall t, Main.run r (es ++ [(t, Change)]) = Main.run r es)
  /\ (forall t a,
      let id := length (store (sse (Main.run r es))) in
      let after := sse (Main.run r (es ++ [(t, Request a)])) in
      In (default "unknown" a, id) (sse_connections after)
      /\ is_open id after = true
      /\ received id after = [])
  /\ (forall t k id,
      In (k, id) (sse_connections (sse (Main.run r es))) ->
      let after := sse (Main.run r (es ++ [(t, Closed id)])) in
      received id after = ["closed"]
      /\ is_open id after = false
      /\ forall k', ~ In (k', id) (sse_connections after)).
Proof.
  apply (no_reload_without_watch ["www"]); vm_compute; reflexivity.
Defined.
End LiveReload.

(** ** The tables of the help message *)

Section HelpTables.
Import JS Help.

Lemma string_length_app a b :
  String.length (a ++ b) = (String.length a + String.length b)%nat.
Proof.
  induction a as [|c a IH]; [reflexivity|].
  rewrite append_cons. cbn [String.length]. now rewrite IH.
Qed.

Lemma string_app_assoc (a b c : string) : (a ++ b) ++ c = a ++ b ++ c.
Proof.
  induction a as [|x a IH]; [reflexivity|]. now rewrite !append_cons, IH.
Qed.

Lemma spaces_length n : String.length (spaces n) = n.
Proof. induction n as [|n IH]; cbn; [reflexivity|now rewrite IH]. Qed.

(** [padEnd] fills up to the target and never cuts. *)
Lemma padEnd_length n s :
  String.length (padEnd n s) = Nat.max n (String.length s).
Proof. unfold padEnd. rewrite string_length_app, spaces_length. lia. Qed.

Lemma max_of_ge x ns : In x ns -> (x <= max_of ns)%nat.
Proof.
  induction ns as [|n ns IH]; cbn [In max_of fold_right]; [tauto|].
  intros [->|H]; [lia|]. apply IH in H. unfold max_of in H. lia.
Qed.

(** Rows that pad their label to the longest label of the table start
    their text in one column. *)
Lemma padded_rows {A} (pre mid : string) (label tail : A -> string)
    (item : A -> string) (l : list A) (n : nat) head :
  n = max_of (map (fun d => String.length (label d)) l) ->
  (forall d, item d = pre ++ padEnd n (label d) ++ mid ++ tail d) ->
  exists rows width,
    table head width rows (head ++ String.concat Cli.nl (map item l))
    /\ map snd rows = map tail l.
Proof.
  intros Hn Hitem.
  exists (map (fun d => (pre ++ padEnd n (label d) ++ mid, tail d)) l),
         (String.length pre + n + String.length mid)%nat.
  split; [split|].
  - f_equal. f_equal. rewrite map_map. apply map_ext. intros d. cbn [fst snd].
    now rewrite Hitem, !string_app_assoc.
  - apply List.Forall_forall. intros r [d [<- Hd]]%in_map_iff. cbn [fst].
    rewrite !string_length_app, padEnd_length.
    assert (String.length (label d) <= n)%nat; [|lia].
    subst n. apply max_of_ge, in_map_iff. eauto.
  - rewrite map_map. reflexivity.
Qed.

Lemma ensureHelp_some l :
  ensureHelp (Some l)
  = Some (if existsb (fun d => String.eqb (HelpFlag.name d) "help") l then l
          else l ++ [ {| HelpFlag.name := "help";
                         HelpFlag.description := "Prints this message" |} ])%list.
Proof. unfold ensureHelp. now destruct (existsb _ l). Qed.

Lemma ensureHelp_cons l :
  exists d l',
    (if existsb (fun d => String.eqb (HelpFlag.name d) "help") l then l
     else l ++ [ {| HelpFlag.name := "help";
                    HelpFlag.description := "Prints this message" |} ])%list
    = d :: l'.
Proof.
  destruct (existsb _ l) eqn:E.
  - destruct l as [|d l]; [discriminate|]. eauto.
  - destruct l as [|d l]; cbn [app]; eauto.
Qed.

(** X22.  In each table of the help message the descriptions start in one
    column: every row is a label part of one and the same width,
    followed by the description.  The table of flags has a row for
    [help], added when the caller did not list that flag. *)
Theorem help_tables_aligned :
  (forall l, exists rows width,
      table (header "Flags" (Some FgGreen)) width rows (buildFlags (Some l))
      /\ map snd rows
         = map HelpFlag.description
             (if existsb (fun d => String.eqb (HelpFlag.name d) "help") l then l
              else l ++ [ {| HelpFlag.name := "help";
                             HelpFlag.description := "Prints this message" |} ])%list)
  /\ (forall d l, exists rows width,
      table (header "Tasks" (Some FgYellow)) width rows (buildTasks (Some (d :: l)))
      /\ map snd rows = map HelpTask.description (d :: l))
  /\ (forall d l, exists rows width,
      table (header "Arguments" (Some FgMagenta)) width rows
            (buildArgs (Some (d :: l)))
      /\ map snd rows
         = map (fun d => HelpArgument.description d
                  ++ Cli.fmt (" (default: " ++ HelpArgument.arg_default d ++ ")") [Dim])
               (d :: l))
  /\ (forall d l, exists rows width,
      table (header "Positional" (Some FgCyan)) width rows
            (buildPositional (Some (d :: l)))
      /\ map snd rows
         = map (fun d => HelpPositional.description d
                  ++ Cli.fmt (" (default: " ++ HelpPositional.arg_default d ++ ")") [Dim])
               (d :: l)).
Proof.
  split; [|split; [|split]].
  - intros l. unfold buildFlags.
    rewrite ensureHelp_some. destruct (ensureHelp_cons l) as (d & l' & ->).
    eapply padded_rows with (pre := FgGreen ++ PLO ++ "-") (mid := Cli.Reset ++ PL)
                           (label := HelpFlag.name) (l := d :: l');
      [reflexivity|].
    intros x. unfold flag_item. now rewrite !string_app_assoc.
  - intros d l. unfold buildTasks.
    eapply padded_rows with (pre := FgYellow ++ PL) (mid := Cli.Reset ++ PL)
                           (label := HelpTask.name) (l := d :: l);
      [reflexivity|].
    intros x. unfold task_item. now rewrite !string_app_assoc.
  - intros d l. unfold buildArgs.
    eapply padded_rows
      with (pre := FgMagenta ++ PLO ++ "-") (mid := Cli.Reset ++ PL)
           (label := fun d => HelpArgument.name d ++ " <" ++ HelpArgument.type d ++ ">")
           (l := d :: l)
           (n := max_of (map (fun d => String.length (HelpArgument.name d)
                              + String.length (HelpArgument.type d) + 3)%nat (d :: l))).
    + f_equal. apply map_ext. intros x. rewrite !string_length_app. cbn. lia.
    + intros x. unfold arg_item. now rewrite !string_app_assoc.
  - intros d l. unfold buildPositional.
    eapply padded_rows
      with (pre := FgCyan ++ PLO ++ "-") (mid := Cli.Reset ++ PL)
           (label := fun d => HelpPositional.name d ++ " <" ++ HelpPositional.type d ++ ">")
           (l := d :: l)
           (n := max_of (map (fun d => String.length (HelpPositional.name d)
                              + String.length (HelpPositional.type d) + 3)%nat (d :: l))).
    + f_equal. apply map_ext. intros x. rewrite !string_length_app. cbn. lia.
    + intros x. unfold positional_item. now rewrite !string_app_assoc.
Qed.
End HelpTables.

(** ** Words read as booleans *)

Section BooleanWords.
Import JS Regex Cli.

Lemma chr_then_optional x r c s :
  Forall (fun a => match a with Opt _ => True | Chr _ => False end) r ->
  matches_at (Chr x :: r) (String c s) = Ascii.eqb c x.
Proof.
  intros H. change (matches_at (Chr x :: r) (String c s))
    with (match head_is x (String c s) with
          | Some s' => matches_at r s'
          | None => false
          end).
  unfold head_is. destruct (Ascii.eqb c x); [|reflexivity].
  now apply matches_at_optional.
Qed.

Lemma truthy_word_at c s :
  existsb (fun r => matches_at r (String c s)) truthy_word
  = Ascii.eqb c "t" || Ascii.eqb c "y" || Ascii.eqb c "1".
Proof.
  unfold truthy_word. cbn [existsb].
  rewrite !chr_then_optional by repeat constructor.
  now rewrite orb_false_r, orb_assoc.
Qed.

Lemma contains_char c s :
  contains (String c "") s
  = match s with
    | String a s' => Ascii.eqb c a || contains (String c "") s'
    | EmptyString => false
    end.
Proof.
  destruct s as [|a s]; [reflexivity|].
  cbn [contains]. now rewrite startsWith_cons, startsWith_nil_l, andb_true_r.
Qed.

Lemma search_truthy_word s :
  search truthy_word s = contains "t" s || contains "y" s || contains "1" s.
Proof.
  induction s as [|c s IH]; [reflexivity|].
  cbn [search]. rewrite IH, truthy_word_at, !(contains_char _ (String c s)).
  rewrite (Ascii.eqb_sym c "t"), (Ascii.eqb_sym c "y"), (Ascii.eqb_sym c "1").
  destruct (Ascii.eqb "t" c), (Ascii.eqb "y" c), (Ascii.eqb "1" c),
    (contains "t" s), (contains "y" s), (contains "1" s); reflexivity.
Qed.

(** X23.  For a parameter of type boolean, [parseArgValue] reads as [true]
    every word that has a [t], a [y] or a [1] in it, in either letter
    case, and as [false] every other word: the pattern is matched
    anywhere in the word, and its optional letters add nothing. *)
Theorem parseArgValue_boolean def arg :
  type def = TBoolean ->
  parseArgValue def (Some arg)
  = VBool (contains "t" (toLowerCase arg) || contains "y" (toLowerCase arg)
           || contains "1" (toLowerCase arg)).
Proof.
  intros H. unfold parseArgValue. rewrite H. cbn [ToString].
  unfold test. now rewrite search_truthy_word.
Qed.

Lemma parseArgValue_boolean_witness :
  parseArgValue
    {| position := Some 1%nat; aliases := None; type := TBoolean;
       default_value := VUndefined; validate := None;
       description := "Open the browser" |} (Some "Not")
  = VBool (contains "t" (toLowerCase "Not") || contains "y" (toLowerCase "Not")
           || contains "1" (toLowerCase "Not")).
Proof.
  apply (parseArgValue_boolean
           {| position := Some 1%nat; aliases := None; type := TBoolean;
              default_value := VUndefined; validate := None;
              description := "Open the browser" |} "Not").
  reflexivity.
Defined.
End BooleanWords.

(** ** The help flag in the help message *)

Section HelpFlagRow.
Import JS Help.

Lemma concat_split sep x l :
  In x l -> exists a b, String.concat sep l = a ++ x ++ b.
Proof.
  induction l as [|y l IH]; [intros []|].
  intros [->|H].
  - destruct l as [|z l]; cbn [String.concat].
    + exists "", "". now rewrite append_nil_r.
    + exists "", (sep ++ String.concat sep (z :: l)). reflexivity.
  - destruct (IH H) as (a & b & E). destruct l as [|z l]; [destruct H|].
    cbn [String.concat]. cbn [String.concat] in E. rewrite E.
    exists (y ++ sep ++ a), b. now rewrite !string_app_assoc.
Qed.

Lemma push_if_keeps x res l : In x l -> In x (push_if res l).
Proof.
  unfold push_if. destruct (truthy _); [|auto]. intros H. apply in_app_iff. auto.
Qed.

Lemma push_if_adds res l : res <> "" -> In res (push_if res l).
Proof.
  intros H. unfold push_if. cbn [truthy].
  destruct (String.eqb_spec res ""); [contradiction|]. cbn [negb].
  apply in_app_iff. right. now left.
Qed.

Lemma ensureHelp_has_help l :
  exists d,
    In d (if existsb (fun d => String.eqb (HelpFlag.name d) "help") l then l
          else l ++ [ {| HelpFlag.name := "help";
                         HelpFlag.description := "Prints this message" |} ])%list
    /\ HelpFlag.name d = "help"
    /\ (existsb (fun d => String.eqb (HelpFlag.name d) "help") l = false ->
        HelpFlag.description d = "Prints this message").
Proof.
  destruct (existsb _ l) eqn:E.
  - apply existsb_exists in E as (d & Hd & Hn%String.eqb_eq). exists d.
    split; [exact Hd|]. split; [exact Hn|discriminate].
  - eexists. split; [apply in_app_iff; right; left; reflexivity|].
    split; reflexivity.
Qed.

Lemma header_not_empty str c rest : header str (Some c) ++ rest <> "".
Proof.
  unfold header. cbn [truthy]. destruct (String.eqb_spec c "") as [->|Hc]; cbn [negb].
  - unfold Cli.Bold, Cli.esc. rewrite !append_cons. discriminate.
  - destruct c as [|x c]; [contradiction|]. rewrite !append_cons. discriminate.
Qed.

(** X24.  Every help message made from an array of flags documents [-help]:
    it has a row of the table of flags for it, with the description
    [Prints this message] when the caller did not list the flag,
    whatever the other sections are, and also when the array is empty. *)
Theorem help_flag_documented arg0 sections l :
  flags sections = Some l ->
  exists before n d after,
    buildHelpMessage arg0 sections = before ++ flag_item n d ++ after
    /\ HelpFlag.name d = "help"
    /\ (existsb (fun d => String.eqb (HelpFlag.name d) "help") l = false ->
        HelpFlag.description d = "Prints this message").
Proof.
  intros Hl. destruct (ensureHelp_has_help l) as (d & Hd & Hn & Hdesc).
  assert (Hrow : exists n a b, buildFlags (Some l) = a ++ flag_item n d ++ b
                               /\ buildFlags (Some l) <> "").
  { unfold buildFlags. rewrite ensureHelp_some.
    destruct (ensureHelp_cons l) as (d0 & l' & E). rewrite E in *.
    eexists.
    destruct (concat_split Cli.nl (flag_item
                (max_of (map (fun d => String.length (HelpFlag.name d)) (d0 :: l'))) d)
                (map (flag_item
                (max_of (map (fun d => String.length (HelpFlag.name d)) (d0 :: l'))))
                     (d0 :: l'))) as (a & b & Eab).
    { apply in_map. exact Hd. }
    exists (header "Flags" (Some FgGreen) ++ a), b. split.
    - rewrite Eab. now rewrite !string_app_assoc.
    - apply header_not_empty. }
  destruct Hrow as (n & a & b & Erow & Hne).
  unfold buildHelpMessage. rewrite Hl.
  match goal with
  | |- context [String.concat ?sep ?ps] =>
      destruct (concat_split sep (buildFlags (Some l)) ps) as (a' & b' & E)
  end.
  { apply push_if_keeps, push_if_adds, Hne. }
  rewrite E, Erow. exists (a' ++ a), n, d, (b ++ b' ++ Cli.nl).
  split; [now rewrite !string_app_assoc|auto].
Qed.

Lemma help_flag_documented_witness :
  exists before n d after,
    buildHelpMessage "serve"
      {| description := Some "A static server"; positional := None;
         flags := Some []; arguments := None; tasks := None;
         examples := None |}
    = before ++ flag_item n d ++ after
    /\ HelpFlag.name d = "help"
    /\ (existsb (fun d => String.eqb (HelpFlag.name d) "help") [] = false ->
        HelpFlag.description d = "Prints this message").
Proof.
  apply (help_flag_documented "serve"
           {| description := Some "A static server"; positional := None;
              flags := Some []; arguments := None; tasks := None;
              examples := None |} []).
  reflexivity.
Defined.
End HelpFlagRow.

(** ** The reload script in content of any bytes *)

Section ReloadScript.
Import JS Static.


Lemma scrub_idle p lo hi s : scrub p 0 lo hi s = utf8 s.
Proof. destruct s; reflexivity. Qed.

Lemma utf8_low c s : low c = true -> utf8 (String c s) = String c (utf8 s).
Proof. unfold utf8, low. cbn [scrub]. now intros ->. Qed.

Lemma utf8_high c s :
  low c = false ->
  utf8 (String c s)
  = match lead (nat_of_ascii c) with
    | Some (n, lo, hi) => scrub (String c "") n lo hi s
    | None => replacement ++ utf8 s
    end.
Proof. unfold utf8, low. cbn [scrub]. now intros ->. Qed.

Lemma scrub_open p n lo hi c s :
  scrub p (S n) lo hi (String c s)
  = if (lo <=? nat_of_ascii c)%nat && (nat_of_ascii c <=? hi)%nat then
      match n with
      | O => p ++ String c (utf8 s)
      | S _ => scrub (p ++ String c "") n 128 191 s
      end
    else replacement ++ utf8 (String c s).
Proof. reflexivity. Qed.

Lemma lead_bounds b n lo hi :
  lead b = Some (n, lo, hi) -> (0 < n)%nat /\ (128 <= lo)%nat.
Proof.
  unfold lead.
  repeat match goal with
         | |- context [if ?c then _ else _] => destruct c
         end; intros [= <- <- <-] || discriminate; lia.
Qed.

Lemma low_not_continuation c lo hi :
  low c = true -> (128 <= lo)%nat ->
  (lo <=? nat_of_ascii c)%nat && (nat_of_ascii c <=? hi)%nat = false.
Proof.
  unfold low. intros H%Nat.ltb_lt Hlo. apply andb_false_iff. left.
  apply Nat.leb_gt. lia.
Qed.

Lemma continuation_high c lo hi :
  (128 <= lo)%nat ->
  (lo <=? nat_of_ascii c)%nat && (nat_of_ascii c <=? hi)%nat = true ->
  low c = false.
Proof.
  unfold low. intros Hlo [H%Nat.leb_le _]%andb_true_iff. apply Nat.ltb_ge. lia.
Qed.

Lemma high_cons c p : high (String c p) = negb (low c) && high p.
Proof. reflexivity. Qed.

Lemma high_app p q : high (p ++ q) = high p && high q.
Proof.
  induction p as [|c p IH]; [reflexivity|].
  rewrite append_cons, !high_cons, IH. apply andb_assoc.
Qed.

Lemma high_replacement : high replacement = true.
Proof. reflexivity. Qed.

Section Pattern.
Variables (d : ascii) (q : string).
Hypothesis Hd : low d = true.

Lemma startsWith_high c s :
  low c = false -> startsWith (String d q) (String c s) = false.
Proof.
  intros Hc. rewrite startsWith_cons.
  destruct (Ascii.eqb_spec d c) as [->|_]; [congruence|reflexivity].
Qed.

Lemma contains_high_cons c s :
  low c = false -> contains (String d q) (String c s) = contains (String d q) s.
Proof. intros Hc. cbn [contains]. now rewrite startsWith_high. Qed.

(** Bytes that are no ASCII characters, put in front, add no
    occurrence of a pattern that starts with one. *)
Lemma contains_high_app p s :
  high p = true -> contains (String d q) (p ++ s) = contains (String d q) s.
Proof.
  induction p as [|c p IH]; [reflexivity|].
  rewrite high_cons. intros [Hc%negb_true_iff Hp]%andb_true_iff.
  rewrite append_cons, contains_high_cons by exact Hc. now apply IH.
Qed.

Lemma contains_nil : contains (String d q) "" = false.
Proof. reflexivity. Qed.
End Pattern.

(** What the decoder gives back for an open sequence starts with a byte
    that is no ASCII character. *)
Lemma scrub_open_head s : forall p n lo hi,
  p <> "" -> high p = true -> (128 <= lo)%nat ->
  exists c rest, scrub p (S n) lo hi s = String c rest /\ low c = false.
Proof.
  induction s as [|c s IH]; intros p n lo hi Hp Hh Hlo.
  - cbn [scrub]. eexists _, _. split; reflexivity.
  - rewrite scrub_open. destruct (_ && _) eqn:Er.
    + apply (continuation_high _ _ _ Hlo) in Er.
      destruct p as [|c0 p]; [congruence|].
      rewrite high_cons in Hh. apply andb_true_iff in Hh as [Hc0%negb_true_iff Hh].
      destruct n as [|n].
      * rewrite append_cons. eauto.
      * apply IH; [discriminate| |lia].
        rewrite append_cons, high_cons, Hc0, high_app, Hh, high_cons, Er.
        reflexivity.
    + eexists _, _. split; reflexivity.
Qed.

Lemma utf8_high_head c s :
  low c = false -> exists c' rest, utf8 (String c s) = String c' rest /\ low c' = false.
Proof.
  intros Hc. rewrite utf8_high by exact Hc.
  destruct (lead (nat_of_ascii c)) as [[[n lo] hi]|] eqn:El.
  - apply lead_bounds in El as [Hn Hlo]. destruct n as [|n]; [lia|].
    apply scrub_open_head; [discriminate| |exact Hlo].
    now rewrite high_cons, Hc.
  - eexists _, _. split; reflexivity.
Qed.

Lemma is_ascii_cons c s : is_ascii (String c s) = low c && is_ascii s.
Proof. reflexivity. Qed.

Section AsciiPattern.
Variable q : string.
Hypothesis Hq : is_ascii q = true.

(** Decoding and encoding again leaves a run of ASCII characters at the
    head of the content as it is. *)
Lemma startsWith_utf8 : forall s, startsWith q (utf8 s) = startsWith q s.
Proof.
  clear -Hq. induction q as [|d q' IH]; intros s; [now rewrite !startsWith_nil_l|].
  rewrite is_ascii_cons in Hq. apply andb_true_iff in Hq as [Hd Hq'].
  destruct s as [|c s]; [reflexivity|].
  destruct (low c) eqn:Hc.
  - rewrite utf8_low, !startsWith_cons, IH by assumption. reflexivity.
  - destruct (utf8_high_head c s Hc) as (c' & rest & -> & Hc').
    now rewrite !(startsWith_high d q' Hd).
Qed.
End AsciiPattern.

Section Occurrences.
Variables (d : ascii) (q : string).
Hypothesis Hq : is_ascii (String d q) = true.

Lemma pattern_head_low : low d = true.
Proof using Hq. rewrite is_ascii_cons in Hq. now apply andb_true_iff in Hq as [? _]. Qed.

Lemma contains_utf8_low c s :
  low c = true ->
  contains (String d q) (utf8 s) = contains (String d q) s ->
  contains (String d q) (utf8 (String c s)) = contains (String d q) (String c s).
Proof.
  intros Hc IH. cbn [contains]. rewrite <- IH.
  rewrite <- (startsWith_utf8 _ Hq (String c s)), utf8_low by exact Hc.
  reflexivity.
Qed.

(** Decoding and encoding again neither adds nor removes an
    occurrence of a pattern of ASCII characters. *)
Lemma contains_scrub s : forall p n lo hi,
  high p = true -> (128 <= lo)%nat ->
  contains (String d q) (scrub p n lo hi s) = contains (String d q) s.
Proof.
  induction s as [|c s IH]; intros p n lo hi Hp Hlo.
  - destruct n; [reflexivity|]. cbn [scrub].
    rewrite <- (append_nil_r replacement), contains_high_app
      by (exact pattern_head_low || reflexivity).
    reflexivity.
  - assert (Hstart : contains (String d q) (utf8 (String c s))
                     = contains (String d q) (String c s)).
    { destruct (low c) eqn:Hc.
      - apply contains_utf8_low; [exact Hc|]. apply IH; [reflexivity|lia].
      - rewrite utf8_high by exact Hc.
        rewrite (contains_high_cons d q pattern_head_low c s Hc).
        destruct (lead (nat_of_ascii c)) as [[[n' lo'] hi']|] eqn:El.
        + apply lead_bounds in El as [_ Hlo']. apply IH; [|exact Hlo'].
          now rewrite high_cons, Hc.
        + rewrite contains_high_app by (exact pattern_head_low || reflexivity).
          apply IH; [reflexivity|lia]. }
    destruct n as [|n]; [now rewrite scrub_idle|].
    rewrite scrub_open. destruct (_ && _) eqn:Er.
    + apply (continuation_high _ _ _ Hlo) in Er.
      rewrite (contains_high_cons d q pattern_head_low c s Er).
      destruct n as [|n].
      * change (p ++ String c (utf8 s)) with (p ++ String c "" ++ utf8 s).
        rewrite <- string_app_assoc, contains_high_app; [apply IH; [reflexivity|lia]|exact pattern_head_low|].
        now rewrite high_app, Hp, high_cons, Er.
      * apply IH; [|lia]. now rewrite high_app, Hp, high_cons, Er.
    + now rewrite contains_high_app by (exact pattern_head_low || reflexivity).
Qed.

Lemma contains_utf8 s : contains (String d q) (utf8 s) = contains (String d q) s.
Proof. apply contains_scrub; [reflexivity|lia]. Qed.
End Occurrences.

(** An ASCII character ends whatever sequence is open: the content
    before it and the content from it on are decoded apart. *)
Lemma scrub_app c x : low c = true -> forall a p n lo hi,
  (128 <= lo)%nat ->
  scrub p n lo hi (a ++ String c x) = scrub p n lo hi a ++ utf8 (String c x).
Proof.
  intros Hc. induction a as [|c0 a IH]; intros p n lo hi Hlo.
  - change ("" ++ String c x) with (String c x).
    destruct n as [|n]; [now rewrite scrub_idle|].
    rewrite scrub_open, low_not_continuation by assumption. reflexivity.
  - rewrite append_cons.
    assert (Hstart : utf8 (String c0 (a ++ String c x))
                     = utf8 (String c0 a) ++ utf8 (String c x)).
    { destruct (low c0) eqn:Hc0.
      - rewrite !utf8_low by exact Hc0. unfold utf8 at 1. rewrite IH by lia.
        reflexivity.
      - rewrite !utf8_high by exact Hc0.
        destruct (lead (nat_of_ascii c0)) as [[[n' lo'] hi']|] eqn:El.
        + apply lead_bounds in El as [_ Hlo']. now apply IH.
        + unfold utf8 at 1. rewrite IH by lia. now rewrite string_app_assoc. }
    destruct n as [|n]; [now rewrite !scrub_idle|].
    rewrite !scrub_open. destruct (_ && _).
    + destruct n as [|n].
      * unfold utf8 at 1. rewrite IH by lia.
        now rewrite string_app_assoc, append_cons.
      * apply IH. lia.
    + now rewrite Hstart, string_app_assoc.
Qed.

Lemma utf8_app c x a :
  low c = true -> utf8 (a ++ String c x) = utf8 a ++ utf8 (String c x).
Proof. intros Hc. apply scrub_app; [exact Hc|lia]. Qed.

(** Content of ASCII characters is what it was after decoding and
    encoding again. *)
Lemma utf8_ascii s : is_ascii s = true -> utf8 s = s.
Proof.
  induction s as [|c s IH]; [reflexivity|].
  rewrite is_ascii_cons. intros [Hc Hs]%andb_true_iff.
  now rewrite utf8_low, IH.
Qed.

Lemma utf8_ascii_app p s : is_ascii p = true -> utf8 (p ++ s) = p ++ utf8 s.
Proof.
  induction p as [|c p IH]; [reflexivity|].
  rewrite is_ascii_cons. intros [Hc Hp]%andb_true_iff.
  now rewrite append_cons, utf8_low, IH.
Qed.

(** A byte that is no UTF-8 comes back as U+FFFD, a character of two
    bytes as it is. *)
Lemma injectDevHTML_bytes :
  injectDevHTML (String (chr 233) "") = replacement
  /\ injectDevHTML (String (chr 195) (String (chr 169) ""))
     = String (chr 195) (String (chr 169) "").
Proof. split; reflexivity. Qed.

(** X4.  [injectDevHTML] gives the content back decoded as UTF-8 and
    encoded again, every ill-formed byte sequence as U+FFFD, with the
    reload script before the first [</head>]; content without [</head>]
    is decoded and encoded and no more.  Content of ASCII characters is
    left as it is apart from the script. *)
Theorem injectDevHTML_first_head a b :
  contains "</head>" a = false ->
  injectDevHTML a = utf8 a
  /\ injectDevHTML (a ++ "</head>" ++ b)
     = utf8 a ++ dev_script ++ "</head>" ++ utf8 b
  /\ (is_ascii a = true -> is_ascii b = true ->
      injectDevHTML a = a
      /\ injectDevHTML (a ++ "</head>" ++ b) = a ++ dev_script ++ "</head>" ++ b).
Proof.
  intros H.
  assert (H' : contains "</head>" (utf8 a) = false)
    by now rewrite contains_utf8.
  assert (E1 : injectDevHTML a = utf8 a)
    by (unfold injectDevHTML; now apply replace_first_absent).
  assert (E2 : injectDevHTML (a ++ "</head>" ++ b)
               = utf8 a ++ dev_script ++ "</head>" ++ utf8 b).
  { unfold injectDevHTML.
    change ("</head>" ++ b) with (String "<" ("/head>" ++ b)).
    rewrite utf8_app by reflexivity.
    change (String "<" ("/head>" ++ b)) with ("</head>" ++ b).
    rewrite utf8_ascii_app by reflexivity.
    rewrite (replace_first_head _ (utf8 b) (utf8 a) H').
    now rewrite string_app_assoc. }
  split; [exact E1|]. split; [exact E2|].
  intros Ha Hb. now rewrite E1, E2, !utf8_ascii.
Qed.

Lemma injectDevHTML_first_head_witness :
  injectDevHTML ("<head>" ++ String (chr 233) "")
  = utf8 ("<head>" ++ String (chr 233) "")
  /\ injectDevHTML (("<head>" ++ String (chr 233) "") ++ "</head>"
                    ++ "<body></head></body>")
     = utf8 ("<head>" ++ String (chr 233) "") ++ dev_script ++ "</head>"
       ++ utf8 "<body></head></body>"
  /\ (is_ascii ("<head>" ++ String (chr 233) "") = true ->
      is_ascii "<body></head></body>" = true ->
      injectDevHTML ("<head>" ++ String (chr 233) "")
      = "<head>" ++ String (chr 233) ""
      /\ injectDevHTML (("<head>" ++ String (chr 233) "") ++ "</head>"
                        ++ "<body></head></body>")
         = ("<head>" ++ String (chr 233) "") ++ dev_script ++ "</head>"
           ++ "<body></head></body>").
Proof.
  apply (injectDevHTML_first_head ("<head>" ++ String (chr 233) "")
           "<body></head></body>").
  reflexivity.
Defined.
End ReloadScript.
